(** * SHAC player: decoder and binaural renderer

    A shallow embedding of the SHAC container decoder ([SHACDecoder]), the
    sample-buffer pool ([AudioBufferPool]) and the ambisonic-to-binaural
    renderer ([SpatialAudioEngine]), followed by the properties stated about
    them.

    Conventions of the embedding.
    - A JavaScript number that holds an integer (offsets, sizes, header
      fields, loop counters) is a [Z] or a [nat]; all of them stay far below
      2^53, so no rounding occurs.
    - A JavaScript number that holds a fraction is idealised as a real
      number: [Math.cos] is [cos], [Math.sqrt] is [sqrt], and the rounding of
      IEEE arithmetic and of stores into a [Float32Array] is left out.
    - An [ArrayBuffer] is a [list byte]; a [DataView] accessor and a typed
      array view raise [RangeError] outside the buffer, which is an [Err]
      result here.
    - An element of an audio [Float32Array] is a real number or NaN
      ([None]); NaN comes from arithmetic on an unfilled array slot or from
      the bits of a stored 32-bit float. *)

From Stdlib Require Import ZArith List Lia Lra Psatz Reals.
From Stdlib Require Import Strings.String Strings.Ascii Strings.Byte.
From stdpp Require Import base option list gmap strings.

Import ListNotations.
Local Open Scope Z_scope.
Set Warnings "-register-all".

(** ** Results of operations that may throw *)

Inductive JsError : Type :=
  | RangeError
  | TypeError
  | InvalidMagic
  | UnsupportedVersion (v : Z)
  | InvalidAudioData
  | NoSamples.

Inductive result (A : Type) : Type :=
  | Ok (a : A)
  | Err (e : JsError).

Arguments Ok {A} a.
Arguments Err {A} e.

Definition rbind {A B : Type} (r : result A) (k : A -> result B) : result B :=
  match r with
  | Ok a => k a
  | Err e => Err e
  end.

Notation "'let*' x ':=' r 'in' k" := (rbind r (fun x => k))
  (at level 10, x name, r at level 100, k at level 200).

Fixpoint mapR {A B : Type} (f : A -> result B) (l : list A) : result (list B) :=
  match l with
  | [] => Ok []
  | a :: l' => let* b := f a in let* bs := mapR f l' in Ok (b :: bs)
  end.

(** A [Float32Array] element of an audio buffer. *)
Definition f32 : Type := option R.

(** ** Byte buffers and [DataView] *)

Definition ArrayBuffer : Type := list byte.

Definition byteLength (buf : ArrayBuffer) : Z := Z.of_nat (length buf).

Definition u8 (b : byte) : Z := Z.of_N (Byte.to_N b).

Definition in_range (buf : ArrayBuffer) (off width : Z) : bool :=
  (0 <=? off) && (off + width <=? byteLength buf).

Definition byteAt (buf : ArrayBuffer) (off : Z) : Z :=
  u8 (nth (Z.to_nat off) buf x00).

Definition getUint8 (buf : ArrayBuffer) (off : Z) : result Z :=
  if in_range buf off 1 then Ok (byteAt buf off) else Err RangeError.

Definition getInt8 (buf : ArrayBuffer) (off : Z) : result Z :=
  if in_range buf off 1
  then Ok (let b := byteAt buf off in if 128 <=? b then b - 256 else b)
  else Err RangeError.

(** [getUint16(off, true)]: little-endian. *)
Definition getUint16 (buf : ArrayBuffer) (off : Z) : result Z :=
  if in_range buf off 2
  then Ok (byteAt buf off + 256 * byteAt buf (off + 1))
  else Err RangeError.

(** [getUint32(off, true)]: little-endian. *)
Definition getUint32 (buf : ArrayBuffer) (off : Z) : result Z :=
  if in_range buf off 4
  then Ok (byteAt buf off + 256 * byteAt buf (off + 1)
           + 65536 * byteAt buf (off + 2) + 16777216 * byteAt buf (off + 3))
  else Err RangeError.

(** [new Uint8Array(buffer, off, len)]: a view, checked when it is made. *)
Definition Uint8Array_view (buf : ArrayBuffer) (off len : Z) : result (list byte) :=
  if in_range buf off len
  then Ok (take (Z.to_nat len) (drop (Z.to_nat off) buf))
  else Err RangeError.

(** The element of an [Int16Array] stored in the bytes [lo], [hi]. *)
Definition int16_le (lo hi : Z) : Z :=
  let u := lo + 256 * hi in if 32768 <=? u then u - 65536 else u.

(** [new Int16Array(buffer, off, count)]: a view of [count] 16-bit elements in
    the byte order of the platform, which is little-endian on every platform
    the player runs on. The constructor raises [RangeError] when [off] is
    not a multiple of the element size or the view passes the end of the
    buffer. *)
Definition Int16Array_view (buf : ArrayBuffer) (off count : Z) : result (list Z) :=
  if (off mod 2 =? 0) && in_range buf off (2 * count)
  then Ok (map (fun i : nat =>
                  int16_le (byteAt buf (off + 2 * Z.of_nat i))
                           (byteAt buf (off + 2 * Z.of_nat i + 1)))
               (seq 0 (Z.to_nat count)))
  else Err RangeError.

(** JavaScript's [(high << 8) | low] on 32-bit integers. *)
Definition shl8_or (high low : Z) : Z := Z.lor (Z.shiftl high 8) low.

(** ** Strings and JSON values *)

(** [s.replace(/pat/g, rep)] for a literal pattern: the matches are taken
    from left to right and do not overlap. [skip] counts the characters of
    the current match still to be dropped. *)
Fixpoint replaceAll_from (skip : nat) (pat rep s : string) : string :=
  match s with
  | EmptyString => EmptyString
  | String c s' =>
      match skip with
      | S k => replaceAll_from k pat rep s'
      | O =>
          if (0 <? String.length pat)%nat && String.prefix pat s
          then rep ++ replaceAll_from (String.length pat - 1) pat rep s'
          else String c (replaceAll_from O pat rep s')
      end
  end%string.

Definition replaceAll (pat rep s : string) : string :=
  replaceAll_from O pat rep s.

Definition dquote : string := String (ascii_of_nat 34) EmptyString.

Inductive Json : Type :=
  | JNull
  | JBool (b : bool)
  | JNumber (r : R)
  | JString (s : string)
  | JArray (items : list Json)
  | JObject (fields : list (string * Json)).

(** ** JavaScript [Map]: a finite map kept in insertion order *)

Section JsMap.
Context {K V : Type} `{EqDecision K}.

Fixpoint mapGet (m : list (K * V)) (k : K) : option V :=
  match m with
  | [] => None
  | (k', v') :: m' => if bool_decide (k' = k) then Some v' else mapGet m' k
  end.

Fixpoint mapSet (m : list (K * V)) (k : K) (v : V) : list (K * V) :=
  match m with
  | [] => [(k, v)]
  | (k', v') :: m' =>
      if bool_decide (k' = k) then (k', v) :: m' else (k', v') :: mapSet m' k v
  end.

Fixpoint mapDelete (m : list (K * V)) (k : K) : list (K * V) :=
  match m with
  | [] => []
  | (k', v') :: m' =>
      if bool_decide (k' = k) then m' else (k', v') :: mapDelete m' k
  end.

End JsMap.

(** ** The file loader *)

Module UniversalFileLoader.

(** The errors [getFileExtension] and [validateFile] throw. *)
Inductive LoaderError : Type :=
  | MissingExtension
  | FileTooLarge
  | UnsupportedFormat (extension : string).

Inductive outcome (A : Type) : Type :=
  | Returned (a : A)
  | Thrown (e : LoaderError).

Arguments Returned {A} a.
Arguments Thrown {A} e.

(** [s] ends with [suffix]: what a regular expression [suffix$] tests. *)
Definition endsWith (suffix s : string) : bool :=
  (String.length suffix <=? String.length s)%nat
  && String.eqb
       (substring (String.length s - String.length suffix)
                  (String.length suffix) s)
       suffix.

(** The own properties of [supportedFormats]. *)
Definition supportedFormats (extension : string) : option string :=
  if String.eqb extension ".shac"
  then Some "Spatial Harmonic Audio Codec (Multi-Source)"%string
  else if String.eqb extension ".zyz"
  then Some "ZYZ Format (Pre-Mixed Distribution)"%string
  else None.

Section Loader.

(** [String.prototype.toLowerCase] is taken as given. *)
Variable toLowerCase : string -> string.

(** [filename.toLowerCase().match(/\.(shac|zyz)$/)]: the match, if any, is
    the extension at the end of the lowered name, and [match[0]] is its
    text. *)
Definition getFileExtension (filename : string) : outcome string :=
  let lowered := toLowerCase filename in
  if endsWith ".shac" lowered then Returned ".shac"%string
  else if endsWith ".zyz" lowered then Returned ".zyz"%string
  else Thrown MissingExtension.

(** [validateFile(file)], for a file of [size] bytes called [name]. *)
Definition validateFile (size : Z) (name : string) : outcome bool :=
  let maxSizeGB := 2%Z in
  let maxSizeBytes := (maxSizeGB * 1024 * 1024 * 1024)%Z in
  if (maxSizeBytes <? size)%Z then Thrown FileTooLarge else
  match getFileExtension name with
  | Thrown e => Thrown e
  | Returned extension =>
      match supportedFormats extension with
      | None => Thrown (UnsupportedFormat extension)
      | Some _ => Returned true
      end
  end.

End Loader.

End UniversalFileLoader.

(** ** The decoder *)

Module SHACDecoder.

Record Header : Type := mkHeader {
  version : Z;
  order : Z;
  n_channels : Z;
  sample_rate : Z;
  bit_depth : Z;
  n_samples : Z;
  n_layers : Z;
  normalization : Z
}.

Record LayerInfo : Type := mkLayerInfo {
  id : string;
  headerOffset : Z;
  dataOffset : Z;
  dataSize : Z;
  metadataLength : Z
}.

Definition MAGIC : list byte := [x53; x48; x41; x43].

Fixpoint arrayEquals (a b : list byte) : bool :=
  match a, b with
  | [], [] => true
  | x :: a', y :: b' => Byte.eqb x y && arrayEquals a' b'
  | _, _ => false
  end.

Definition readHeader (buf : ArrayBuffer) : result Header :=
  let* magic := Uint8Array_view buf 0 4 in
  if negb (arrayEquals magic MAGIC) then Err InvalidMagic else
  let* v := getUint16 buf 4 in
  let* o := getUint16 buf 6 in
  let* nc := getUint16 buf 8 in
  let* sr := getUint32 buf 10 in
  let* bd := getUint32 buf 14 in
  let* ns := getUint32 buf 18 in
  let* nl := getUint16 buf 22 in
  let* nz := getUint16 buf 24 in
  if negb (v =? 1) then Err (UnsupportedVersion v) else
  Ok (mkHeader v o nc sr bd ns nl nz).

Definition bytesPerSample (h : Header) : Z :=
  if bit_depth h =? 16 then 2 else 4.

Definition audioDataSize (h : Header) : Z :=
  n_channels h * n_samples h * bytesPerSample h.

Section Decode.

(** The platform's [TextDecoder().decode], [JSON.parse] and the IEEE decoding
    behind [getFloat32] and [Float32Array] are taken as given. A JavaScript
    string is represented by its UTF-8 bytes, on which replacing an ASCII
    pattern agrees with replacing it on the characters. *)
Variable TextDecoder_decode : list byte -> string.
Variable JSON_parse : string -> option Json.
Variable float32_of_bits : Z -> f32.

(** One iteration of the loop of [buildLayerIndex]: the state is the running
    offset and the index built so far. *)
Definition indexStep (buf : ArrayBuffer) (h : Header)
    (st : Z * list LayerInfo) : result (Z * list LayerInfo) :=
  let '(offset, layerIndex) := st in
  let* idLength := getUint16 buf offset in
  let offset := offset + 2 in
  let* metadataLength := getUint32 buf offset in
  let offset := offset + 4 in
  let* idBytes := Uint8Array_view buf offset idLength in
  let layerId := TextDecoder_decode idBytes in
  let offset := offset + idLength in
  let offset := offset + metadataLength in
  let entry := mkLayerInfo layerId (offset - metadataLength - idLength - 6)
                           offset (audioDataSize h) metadataLength in
  Ok (offset + audioDataSize h, layerIndex ++ [entry]).

Fixpoint indexLoop (n : nat) (buf : ArrayBuffer) (h : Header)
    (st : Z * list LayerInfo) : result (Z * list LayerInfo) :=
  match n with
  | O => Ok st
  | S n' => let* st' := indexStep buf h st in indexLoop n' buf h st'
  end.

Definition buildLayerIndex (buf : ArrayBuffer) (h : Header)
    : result (list LayerInfo) :=
  let* st := indexLoop (Z.to_nat (n_layers h)) buf h (26, []) in Ok (snd st).

(** The chain of replacements of the fallback metadata parser. *)
Definition pythonToJson (metadataStr : string) : string :=
  replaceAll "None" "null"
    (replaceAll "False" "false"
      (replaceAll "True" "true"
        (replaceAll ")" "]"
          (replaceAll "(" "["
            (replaceAll "'" dquote metadataStr))))).

Definition defaultMetadata : Json :=
  JObject [("position"%string, JArray [JNumber 0; JNumber 0; JNumber 0]);
           ("gain"%string, JNumber 1)].

(** The two nested [try] blocks of [readLayerOptimized]. *)
Definition parseMetadata (metadataStr : string) : Json :=
  match JSON_parse metadataStr with
  | Some metadata => metadata
  | None =>
      match JSON_parse (pythonToJson metadataStr) with
      | Some metadata => metadata
      | None => defaultMetadata
      end
  end.

Definition sample16 (value : Z) : f32 := Some (IZR value / 32767)%R.

(** The loop nest over channels and samples; [body ch s] is one iteration. *)
Definition channelLoops {A : Type} (numChannels numSamples : nat)
    (body : nat -> nat -> result A) : result (list (list A)) :=
  mapR (fun ch => mapR (fun s => body ch s) (seq 0 numSamples))
       (seq 0 numChannels).

(** The branch for an odd offset: two byte reads per sample. *)
Definition readAudio16_bytewise (buf : ArrayBuffer) (offset : Z)
    (numChannels numSamples : nat) : result (list (list f32)) :=
  channelLoops numChannels numSamples (fun ch s =>
    let idx := (Z.of_nat ch * Z.of_nat numSamples + Z.of_nat s) * 2 in
    let* low := getUint8 buf (offset + idx) in
    let* high := getInt8 buf (offset + idx + 1) in
    let value := shl8_or high low in
    Ok (sample16 value)).

(** The branch for an even offset: one [Int16Array] over the payload. The
    counter [idx] of the source is the number of samples visited so far,
    [ch * numSamples + s]. *)
Definition readAudio16_view (buf : ArrayBuffer) (offset : Z)
    (numChannels numSamples : nat) : result (list (list f32)) :=
  let totalSamples := Z.of_nat numChannels * Z.of_nat numSamples in
  let* int16Data := Int16Array_view buf offset totalSamples in
  channelLoops numChannels numSamples (fun ch s =>
    let idx := (ch * numSamples + s)%nat in
    Ok (sample16 (nth idx int16Data 0))).

Definition readAudio32_bytewise (buf : ArrayBuffer) (offset : Z)
    (numChannels numSamples : nat) : result (list (list f32)) :=
  channelLoops numChannels numSamples (fun ch s =>
    let idx := Z.of_nat ch * Z.of_nat numSamples + Z.of_nat s in
    let* bits := getUint32 buf (offset + idx * 4) in
    Ok (float32_of_bits bits)).

(** The branch for an offset that is a multiple of 4: one [Float32Array]
    over the payload, whose constructor checks the offset and the range. *)
Definition readAudio32_view (buf : ArrayBuffer) (offset : Z)
    (numChannels numSamples : nat) : result (list (list f32)) :=
  let totalSamples := Z.of_nat numChannels * Z.of_nat numSamples in
  if (offset mod 4 =? 0) && in_range buf offset (4 * totalSamples)
  then readAudio32_bytewise buf offset numChannels numSamples
  else Err RangeError.

Definition readAudioDataOptimized (buf : ArrayBuffer) (offset : Z)
    (numChannels numSamples : nat) (bitDepth : Z) : result (list (list f32)) :=
  if bitDepth =? 16 then
    if negb (offset mod 2 =? 0)
    then readAudio16_bytewise buf offset numChannels numSamples
    else readAudio16_view buf offset numChannels numSamples
  else
    if negb (offset mod 4 =? 0)
    then readAudio32_bytewise buf offset numChannels numSamples
    else readAudio32_view buf offset numChannels numSamples.

Record LayerData : Type := mkLayerData {
  metadata : Json;
  audioData : list (list f32);
  samplesPerChannel : Z
}.

Definition readLayerOptimized (buf : ArrayBuffer) (h : Header)
    (layerInfo : LayerInfo) : result (string * LayerData) :=
  let offset := headerOffset layerInfo in
  let* idLength := getUint16 buf offset in
  let offset := offset + 2 in
  let offset := offset + 4 in
  let* idBytes := Uint8Array_view buf offset idLength in
  let layerId := TextDecoder_decode idBytes in
  let offset := offset + idLength in
  let* metadataBytes := Uint8Array_view buf offset (metadataLength layerInfo) in
  let metadataStr := TextDecoder_decode metadataBytes in
  let metadata := parseMetadata metadataStr in
  let* audioData := readAudioDataOptimized buf (dataOffset layerInfo)
                      (Z.to_nat (n_channels h)) (Z.to_nat (n_samples h))
                      (bit_depth h) in
  Ok (layerId, mkLayerData metadata audioData (n_samples h)).

(** Every layer is read (the reader has no [await] inside, so each call runs
    to its end); the first rejection is the one [Promise.all] reports. *)
Definition readLayersOptimized (buf : ArrayBuffer) (h : Header)
    (layerIndex : list LayerInfo) : result (list (string * LayerData)) :=
  let* results := mapR (readLayerOptimized buf h) layerIndex in
  Ok (fold_left (fun layers r => mapSet layers (fst r) (snd r)) results []).

Record Decoded : Type := mkDecoded {
  header : Header;
  layers : list (string * LayerData);
  layerNames : list string;
  layerIndex : list LayerInfo
}.

(** [decode]: any error is rethrown with the prefix [SHAC decode error:];
    the result keeps the error that caused it. *)
Definition decode (arrayBuffer : ArrayBuffer) : result Decoded :=
  let* h := readHeader arrayBuffer in
  let* index := buildLayerIndex arrayBuffer h in
  let* ls := readLayersOptimized arrayBuffer h index in
  Ok (mkDecoded h ls (map fst ls) index).

End Decode.

(** *** Spherical harmonics of the decoder *)

Local Open Scope R_scope.

(** Two-dimensional arrays of numbers. *)
Definition get2 (P : list (list R)) (i j : nat) : R :=
  nth j (nth i P []) 0.

Definition set2 (P : list (list R)) (i j : nat) (v : R) : list (list R) :=
  alter (fun row => <[j := v]> row) i P.

(** [factorials = [1]; for i = 1 .. n: factorials[i] = factorials[i-1] * i]. *)
Fixpoint factorialTable (n : nat) : list R :=
  match n with
  | O => [1]
  | S k => let t := factorialTable k in t ++ [nth k t 0 * INR (S k)]
  end.

(** The values [-l, ..., l] of the index [m], in the order of the loop. *)
Definition mRange (l : nat) : list Z :=
  map (fun k : nat => (Z.of_nat k - Z.of_nat l)%Z) (seq 0 (2 * l + 1)).

Definition precomputeNormalizationFactors (maxOrder : nat)
    : gmap nat (gmap Z R) :=
  let factorials := factorialTable (2 * maxOrder + 1) in
  fold_left (fun (factors : gmap nat (gmap Z R)) (l : nat) =>
    <[l := fold_left (fun (row : gmap Z R) (m : Z) =>
             let absM := Z.abs_nat m in
             let norm := sqrt ((2 * INR l + 1) * nth (l - absM) factorials 0 /
                               (4 * PI * nth (l + absM) factorials 0)) in
             <[m := norm]> row) (mRange l) ∅]> factors)
    (seq 0 (maxOrder + 1)) ∅.

(** The table made by the constructor. *)
Definition normalizationFactors : gmap nat (gmap Z R) :=
  precomputeNormalizationFactors 3.

Definition computeAssociatedLegendre (order : nat) (x : R) : list (list R) :=
  let P := replicate (order + 1) (replicate (order + 1) 0) in
  let P := set2 P 0 0 1 in
  let P :=
    if (0 <? order)%nat then
      let somx2 := sqrt ((1 - x) * (1 + x)) in
      fst (fold_left (fun (st : list (list R) * R) (m : nat) =>
             let '(P, fact) := st in
             (set2 P m m (- get2 P (m - 1) (m - 1) * fact * somx2), fact + 2))
           (seq 1 order) (P, 1))
    else P in
  let P :=
    fold_left (fun P (m : nat) =>
      set2 P (m + 1) m (x * (2 * INR m + 1) * get2 P m m))
      (seq 0 order) P in
  fold_left (fun P (m : nat) =>
    fold_left (fun P (l : nat) =>
      set2 P l m (((2 * INR l - 1) * x * get2 P (l - 1) m
                   - (INR l + INR m - 1) * get2 P (l - 2) m) / (INR l - INR m)))
      (seq (m + 2) (order + 1 - (m + 2))) P)
    (seq 0 (order - 1)) P.

Section Harmonics.

(** [Number.prototype.toFixed(3)], the platform's rounding to three decimals,
    is taken as given. A cache key is the text
    [order_azimuth.toFixed(3)_elevation.toFixed(3)]; none of its three parts
    contains the separator, so the key is kept as the triple. *)
Variable toFixed3 : R -> string.

Definition ShKey : Type := nat * string * string.

Definition ShCache : Type := list (ShKey * list R).

(** [SH_CACHE_SIZE = Infinity]. *)
Definition SH_CACHE_SIZE : option nat := None.

Definition cacheFull (shCache : ShCache) : bool :=
  match SH_CACHE_SIZE with
  | None => false
  | Some n => (n <=? length shCache)%nat
  end.

(** One iteration of the inner loop: the coefficient of degree [l] and index
    [m] is stored at [idx], and [idx] moves on. Reading [m] from a missing
    row raises [TypeError]; a row that exists holds every [m] of the loop,
    so the default of the inner lookup is never used. *)
Definition shStep (P : list (list R)) (azimuth : R) (l : nat)
    (st : list R * nat) (m : Z) : result (list R * nat) :=
  let '(coeffs, idx) := st in
  let absM := Z.abs_nat m in
  match normalizationFactors !! l with
  | None => Err TypeError
  | Some row =>
      let norm := default 0 (row !! m) in
      let sh := norm * get2 P l absM in
      let sh :=
        if (0 <? m)%Z then sh * (sqrt 2 * cos (IZR m * azimuth))
        else if (m <? 0)%Z then sh * (sqrt 2 * sin (INR absM * azimuth))
        else sh in
      Ok (<[idx := sh]> coeffs, S idx)
  end.

Fixpoint foldR {A B : Type} (f : A -> B -> result A) (l : list B) (a : A)
    : result A :=
  match l with
  | [] => Ok a
  | b :: l' => let* a' := f a b in foldR f l' a'
  end.

Definition computeSphericalHarmonicsVectorized (shCache : ShCache)
    (order : nat) (azimuth elevation : R) : result (list R * ShCache) :=
  let cacheKey := (order, toFixed3 azimuth, toFixed3 elevation) in
  match mapGet shCache cacheKey with
  | Some coeffs => Ok (coeffs, shCache)
  | None =>
      let numCoeffs := ((order + 1) * (order + 1))%nat in
      let coeffs := replicate numCoeffs 0 in
      let sinEl := sin elevation in
      let P := computeAssociatedLegendre order sinEl in
      let* st := foldR (fun st l => foldR (shStep P azimuth l) (mRange l) st)
                       (seq 0 (order + 1)) (coeffs, O) in
      let shCache :=
        if cacheFull shCache
        then match shCache with
             | [] => shCache
             | (firstKey, _) :: _ => mapDelete shCache firstKey
             end
        else shCache in
      Ok (fst st, mapSet shCache cacheKey (fst st))
  end.

End Harmonics.

(** *** Rotation matrices *)

(** A store into a [Float32Array] outside its length is ignored, as
    [<[i := v]>] on a list is. *)
Definition applyFirstOrderRotation (matrix : list R) (yaw pitch roll : R)
    : list R :=
  let cy := cos yaw in
  let sy := sin yaw in
  let cp := cos pitch in
  let sp := sin pitch in
  let matrix := <[(1*4 + 1)%nat := cy * cp]> matrix in
  let matrix := <[(1*4 + 2)%nat := sy * sp]> matrix in
  let matrix := <[(1*4 + 3)%nat := - sy * cp]> matrix in
  let matrix := <[(2*4 + 1)%nat := - sy]> matrix in
  let matrix := <[(2*4 + 2)%nat := cp]> matrix in
  let matrix := <[(2*4 + 3)%nat := cy]> matrix in
  let matrix := <[(3*4 + 1)%nat := sy * cp]> matrix in
  let matrix := <[(3*4 + 2)%nat := - cy * sp]> matrix in
  let matrix := <[(3*4 + 3)%nat := cy * cp]> matrix in
  matrix.

Definition applySecondOrderRotation (matrix : list R) (yaw pitch roll : R)
    : list R :=
  let cy := cos yaw in
  let cp := cos pitch in
  let c2y := cos (2 * yaw) in
  let base := 4%nat in
  let matrix := <[((base+0)*16 + (base+0))%nat := c2y * cp * cp]> matrix in
  let matrix := <[((base+1)*16 + (base+1))%nat := cy * cp]> matrix in
  let matrix := <[((base+2)*16 + (base+2))%nat := (3 * cp * cp - 1) / 2]> matrix in
  let matrix := <[((base+3)*16 + (base+3))%nat := cy * cp]> matrix in
  let matrix := <[((base+4)*16 + (base+4))%nat := c2y * cp * cp]> matrix in
  matrix.

Definition applyThirdOrderRotation (matrix : list R) (yaw pitch roll : R)
    : list R :=
  let cp := cos pitch in
  let base := 9%Z in
  fold_left (fun matrix (m : Z) =>
    let idx := Z.to_nat (base + m + 3) in
    let cmy := cos (IZR m * yaw) in
    <[(idx*16 + idx)%nat := cmy * cp ^ Z.abs_nat m]> matrix)
    (mRange 3) matrix.

Definition computeRotationMatrix (order : nat) (yaw pitch roll : R) : list R :=
  let size := ((order + 1) * (order + 1))%nat in
  let matrix := replicate (size * size) 0 in
  let matrix :=
    fold_left (fun matrix (i : nat) => <[(i * size + i)%nat := 1]> matrix)
              (seq 0 size) matrix in
  let matrix :=
    if (1 <=? order)%nat then applyFirstOrderRotation matrix yaw pitch roll
    else matrix in
  let matrix :=
    if (2 <=? order)%nat then applySecondOrderRotation matrix yaw pitch roll
    else matrix in
  let matrix :=
    if (3 <=? order)%nat then applyThirdOrderRotation matrix yaw pitch roll
    else matrix in
  matrix.

End SHACDecoder.

(** ** The sample-buffer pool *)

Module AudioBufferPool.

(** A [Float32Array] object is known by its identity, a position in the
    store of all the arrays allocated so far; the store maps it to its
    contents. The pool and the set of arrays in use hold identities, so an
    array reached from both is one object. *)
Definition Ref : Type := nat.

Record Stats : Type := mkStats {
  created : nat;
  reused : nat;
  currentPoolSize : nat
}.

Record Pool : Type := mkPool {
  store : list (list f32);
  pool : list Ref;
  inUse : gset Ref;
  stats : Stats
}.

(** The state made by the constructor. *)
Definition empty : Pool := mkPool [] [] ∅ (mkStats 0 0 0).

(** [new Float32Array(size)]. *)
Definition zeros (size : nat) : list f32 := replicate size (Some 0%R).

Definition bufferLength (p : Pool) (r : Ref) : option nat :=
  length <$> store p !! r.

(** The search loop of [acquire]: the first candidate of the right length
    that is not in use. *)
Fixpoint findFree (p : Pool) (size : nat) (candidates : list Ref)
    : option Ref :=
  match candidates with
  | [] => None
  | candidate :: rest =>
      if bool_decide (bufferLength p candidate = Some size)
         && bool_decide (candidate ∉ inUse p)
      then Some candidate
      else findFree p size rest
  end.

Definition acquire (p : Pool) (size : nat) : Ref * Pool :=
  match findFree p size (pool p) with
  | Some buffer =>
      let st := stats p in
      (buffer,
       mkPool (store p) (pool p) ({[buffer]} ∪ inUse p)
              (mkStats (created st) (S (reused st)) (currentPoolSize st)))
  | None =>
      let buffer := length (store p) in
      let pool' := pool p ++ [buffer] in
      let st := stats p in
      (buffer,
       mkPool (store p ++ [zeros size]) pool' ({[buffer]} ∪ inUse p)
              (mkStats (S (created st)) (reused st) (length pool')))
  end.

(** [buffer.fill(0)]. *)
Definition fill0 (p : Pool) (buffer : Ref) : list (list f32) :=
  alter (fun contents => zeros (length contents)) buffer (store p).

Definition release (p : Pool) (buffer : Ref) : Pool :=
  if bool_decide (buffer ∈ inUse p)
  then mkPool (fill0 p buffer) (pool p) (inUse p ∖ {[buffer]}) (stats p)
  else p.

Definition releaseAll (p : Pool) (buffers : list Ref) : Pool :=
  fold_left release buffers p.

(** What the code around the pool does with an array: it stores a value
    into one ([buffer[i] = v]), and it may allocate arrays of its own. *)
Definition write (p : Pool) (buffer : Ref) (i : nat) (v : f32) : Pool :=
  mkPool (alter (fun contents => <[i := v]> contents) buffer (store p))
         (pool p) (inUse p) (stats p).

Definition allocOutside (p : Pool) (size : nat) : Ref * Pool :=
  (length (store p),
   mkPool (store p ++ [zeros size]) (pool p) (inUse p) (stats p)).

(** The calls a program can make, and the states they lead to. A program
    writes only into arrays it holds: arrays it has acquired and not yet
    released, and arrays that never belonged to the pool. *)
Inductive Call : Type :=
  | CallAcquire (size : nat)
  | CallRelease (buffer : Ref)
  | CallWrite (buffer : Ref) (i : nat) (v : f32)
  | CallAlloc (size : nat).

Definition allowed (p : Pool) (c : Call) : bool :=
  match c with
  | CallWrite buffer _ _ =>
      bool_decide (buffer ∈ inUse p) || bool_decide (buffer ∉ pool p)
  | _ => true
  end.

Definition step (p : Pool) (c : Call) : Pool :=
  match c with
  | CallAcquire size => snd (acquire p size)
  | CallRelease buffer => release p buffer
  | CallWrite buffer i v => write p buffer i v
  | CallAlloc size => snd (allocOutside p size)
  end.

Fixpoint run (p : Pool) (calls : list Call) : option Pool :=
  match calls with
  | [] => Some p
  | c :: rest => if allowed p c then run (step p c) rest else None
  end.

Definition reachable (p : Pool) : Prop :=
  exists calls, run empty calls = Some p.

(** [getStats]: the counters, and the share of the calls of [acquire] that
    reused an array. Before the first call the quotient is [0 / 0], NaN. *)
Definition getStats (p : Pool) : Stats * f32 :=
  let st := stats p in
  (st,
   if (created st + reused st =? 0)%nat then None
   else Some (INR (reused st) / INR (created st + reused st))%R).

End AudioBufferPool.

(** ** Movement presets *)

Module MovementPresets.

Local Open Scope R_scope.

(** An object [{x, y, z}], and an array of three numbers. The positions of
    the audio sources are taken to be arrays of three numbers. *)
Record Vec3 : Type := mkVec3 { vx : R; vy : R; vz : R }.

Record Point : Type := mkPoint { p0 : R; p1 : R; p2 : R }.

Record Boundaries : Type := mkBoundaries {
  radius : R;
  floor : R;
  ceiling : R;
  stage_barrier : R
}.

(** The speeds of a preset: a speed that a preset does not give is
    [undefined], here [None]. The field [damping] is never read. *)
Record Movement : Type := mkMovement {
  horizontal_speed : option R;
  vertical_speed : option R;
  forward_speed : option R;
  backward_speed : option R;
  left_right_speed : option R;
  up_speed : option R;
  down_speed : option R;
  approach_boost : option R;
  retreat_penalty : option R
}.

(** The values the field [constraints] takes in the presets. *)
Inductive Constraints : Type :=
  | explorer_freedom
  | venue_with_source_barriers
  | directional_bias
  | soft_boundaries
  | elastic_return.

Record SourceBarriers : Type := mkSourceBarriers {
  enabled : bool;
  barrier_radius : R
}.

Record Preset : Type := mkPreset {
  boundaries : Boundaries;
  movement : Movement;
  constraints : Constraints;
  home_position : Point;
  pull_strength : R;
  comfort_zone : option R;
  max_pull : option R;
  source_barriers : option SourceBarriers
}.

(** [initializePresets]. *)
Definition explorer : Preset :=
  mkPreset (mkBoundaries 30 (-10) 10 0)
           (mkMovement (Some 1.2) (Some 0.8) None None None None None None
                       None)
           explorer_freedom (mkPoint 0 0 (-3)) 0 None None None.

Definition venue : Preset :=
  mkPreset (mkBoundaries 30 (-10) 10 0)
           (mkMovement (Some 1.0) (Some 0.4) None None None None None None
                       None)
           venue_with_source_barriers (mkPoint 0 0 (-8)) 0 None None
           (Some (mkSourceBarriers true 0.8)).

Definition asymmetric : Preset :=
  mkPreset (mkBoundaries 30 (-10) 10 1)
           (mkMovement None None (Some 1.4) (Some 0.6) (Some 1.1) (Some 0.7)
                       (Some 1.0) (Some 1.6) (Some 0.7))
           directional_bias (mkPoint 0 0 (-2)) 0 None None None.

Definition stadium : Preset :=
  mkPreset (mkBoundaries 30 (-10) 10 3)
           (mkMovement (Some 1.5) (Some 0.6) None None None None None None
                       None)
           soft_boundaries (mkPoint 0 2 (-15)) 0 None None None.

Definition elastic : Preset :=
  mkPreset (mkBoundaries 30 (-10) 10 0.5)
           (mkMovement (Some 1.1) (Some 0.6) None None None None None None
                       None)
           elastic_return (mkPoint 0 1 (-1)) 0.25 (Some 6) (Some 0.6) None.

(** [value || fallback] on a number that may be missing, and the test of
    such a number in a condition: 0 counts as missing. *)
Definition orElse (value : option R) (fallback : R) : R :=
  match value with
  | Some v => if Req_dec_T v 0 then fallback else v
  | None => fallback
  end.

Definition truthy (value : option R) : bool :=
  match value with
  | Some v => if Req_dec_T v 0 then false else true
  | None => false
  end.

(** [minDistance] starts as [Infinity], here [None]; the first source is
    nearer than that, so the initial value of [nearestSource] is replaced in
    the first iteration. *)
Definition findNearestSource (position : Vec3) (audioSources : list Point)
    : Point :=
  match audioSources with
  | [] => mkPoint 0 0 0
  | first :: _ =>
      fst (fold_left (fun (st : Point * option R) (sourcePos : Point) =>
             let '(nearestSource, minDistance) := st in
             let distance :=
               sqrt ((vx position - p0 sourcePos) ^ 2
                     + (vz position - p2 sourcePos) ^ 2) in
             let nearer :=
               match minDistance with
               | None => true
               | Some m => if Rlt_dec distance m then true else false
               end in
             if nearer then (sourcePos, Some distance)
             else (nearestSource, minDistance))
           audioSources (first, None))
  end.

Definition isMovingTowardSources (inputVector currentPosition : Vec3)
    (audioSources : list Point) : bool :=
  match audioSources with
  | [] => false
  | _ =>
      let nearestSource := findNearestSource currentPosition audioSources in
      let dx := p0 nearestSource - vx currentPosition in
      let dz := p2 nearestSource - vz currentPosition in
      let length := sqrt (dx * dx + dz * dz) in
      if Req_dec_T length 0 then false else
      let dx := dx / length in
      let dz := dz / length in
      let dotProduct := vx inputVector * dx + vz inputVector * dz in
      if Rlt_dec 0 dotProduct then true else false
  end.

Definition applyAsymmetricMovement (preset : Preset)
    (inputVector currentPosition : Vec3) (audioSources : list Point) : Vec3 :=
  let movement := movement preset in
  let x := vx inputVector in
  let y := vy inputVector in
  let z := vz inputVector in
  let z :=
    if Rlt_dec 0 z then z * orElse (forward_speed movement) 1
    else if Rlt_dec z 0 then z * orElse (backward_speed movement) 1
    else z in
  let x :=
    if Req_dec_T x 0 then x else x * orElse (left_right_speed movement) 1 in
  let y :=
    if Rlt_dec 0 y then y * orElse (up_speed movement) 1
    else if Rlt_dec y 0 then y * orElse (down_speed movement) 1
    else y in
  match audioSources with
  | [] => mkVec3 x y z
  | _ =>
      let isApproaching :=
        isMovingTowardSources inputVector currentPosition audioSources in
      if isApproaching && truthy (approach_boost movement) then
        mkVec3 (x * orElse (approach_boost movement) 0) y
               (z * orElse (approach_boost movement) 0)
      else if negb isApproaching && truthy (retreat_penalty movement) then
        mkVec3 (x * orElse (retreat_penalty movement) 0) y
               (z * orElse (retreat_penalty movement) 0)
      else mkVec3 x y z
  end.

(** [applyExplorerBoundaries]: the radius around the vertical axis, then
    floor and ceiling. *)
Definition applyExplorerBoundaries (position : Vec3)
    (boundaries : Boundaries) : Vec3 :=
  let x := vx position in
  let z := vz position in
  let distance := sqrt (x * x + z * z) in
  let '(x, z) :=
    if Rlt_dec (radius boundaries) distance then
      let scale := radius boundaries / distance in
      (x * scale, z * scale)
    else (x, z) in
  let y := Rmax (floor boundaries) (Rmin (ceiling boundaries) (vy position)) in
  mkVec3 x y z.

Definition applySoftBoundaries (position : Vec3) (boundaries : Boundaries)
    : Vec3 :=
  let x := vx position in
  let z := vz position in
  let distance := sqrt (x * x + z * z) in
  let '(x, z) :=
    if Rlt_dec (radius boundaries) distance then
      let scale := radius boundaries / distance in
      (x * scale, z * scale)
    else (x, z) in
  let y := Rmax (floor boundaries) (Rmin (ceiling boundaries) (vy position)) in
  let '(x, z) :=
    if Rlt_dec 0 (stage_barrier boundaries) then
      let originDistance := sqrt (x * x + z * z) in
      if Rlt_dec originDistance (stage_barrier boundaries) then
        let scale := stage_barrier boundaries / Rmax originDistance 0.1 in
        (x * scale, z * scale)
      else (x, z)
    else (x, z) in
  mkVec3 x y z.

Definition applyElasticConstraints (preset : Preset)
    (position currentPosition : Vec3) (boundaries : Boundaries)
    (audioSources : list Point) : Vec3 :=
  let constrained := applySoftBoundaries position boundaries in
  if Rlt_dec 0 (pull_strength preset) then
    let pullTarget :=
      match audioSources with
      | [] => home_position preset
      | _ => findNearestSource constrained audioSources
      end in
    let distanceToTarget :=
      sqrt ((vx constrained - p0 pullTarget) ^ 2
            + (vz constrained - p2 pullTarget) ^ 2) in
    let comfortZone := orElse (comfort_zone preset) 5 in
    if Rlt_dec comfortZone distanceToTarget then
      let pullForce :=
        Rmin ((distanceToTarget - comfortZone) * pull_strength preset)
             (orElse (max_pull preset) 1) in
      let pullDirectionX := (p0 pullTarget - vx constrained) / distanceToTarget in
      let pullDirectionZ := (p2 pullTarget - vz constrained) / distanceToTarget in
      mkVec3 (vx constrained + pullDirectionX * pullForce)
             (vy constrained)
             (vz constrained + pullDirectionZ * pullForce)
    else constrained
  else constrained.

(** One iteration of the loop over the sources of [applyVenueConstraints]. *)
Definition pushAway (barrierRadius : R) (constrained : Vec3)
    (sourcePos : Point) : Vec3 :=
  let distanceToSource :=
    sqrt ((vx constrained - p0 sourcePos) ^ 2
          + (vz constrained - p2 sourcePos) ^ 2) in
  if Rlt_dec distanceToSource barrierRadius then
    let pushDirectionX := vx constrained - p0 sourcePos in
    let pushDirectionZ := vz constrained - p2 sourcePos in
    let pushLength :=
      sqrt (pushDirectionX * pushDirectionX
            + pushDirectionZ * pushDirectionZ) in
    if Rlt_dec 0 pushLength then
      let pushDirectionX := pushDirectionX / pushLength in
      let pushDirectionZ := pushDirectionZ / pushLength in
      mkVec3 (p0 sourcePos + pushDirectionX * barrierRadius)
             (vy constrained)
             (p2 sourcePos + pushDirectionZ * barrierRadius)
    else constrained
  else constrained.

Definition applyVenueConstraints (preset : Preset)
    (position currentPosition : Vec3) (boundaries : Boundaries)
    (audioSources : list Point) : Vec3 :=
  let constrained := applySoftBoundaries position boundaries in
  match source_barriers preset, audioSources with
  | Some barriers, _ :: _ =>
      if enabled barriers then
        let barrierRadius :=
          if Req_dec_T (barrier_radius barriers) 0 then 2.5
          else barrier_radius barriers in
        fold_left (pushAway barrierRadius) audioSources constrained
      else constrained
  | _, _ => constrained
  end.

Definition applyConstraints (preset : Preset)
    (newPosition currentPosition : Vec3) (audioSources : list Point) : Vec3 :=
  let boundaries := boundaries preset in
  match constraints preset with
  | explorer_freedom => applyExplorerBoundaries newPosition boundaries
  | soft_boundaries => applySoftBoundaries newPosition boundaries
  | elastic_return =>
      applyElasticConstraints preset newPosition currentPosition boundaries
        audioSources
  | directional_bias => applySoftBoundaries newPosition boundaries
  | venue_with_source_barriers =>
      applyVenueConstraints preset newPosition currentPosition boundaries
        audioSources
  end.

(** [processMovement]; [currentPreset] is [None] for [null]. *)
Definition processMovement (currentPreset : option Preset)
    (inputVector currentPosition : Vec3) (audioSources : list Point) : Vec3 :=
  match currentPreset with
  | None => inputVector
  | Some preset =>
      let x := vx inputVector in
      let y := vy inputVector in
      let z := vz inputVector in
      let '(x, z) :=
        match horizontal_speed (movement preset) with
        | Some speed => (x * speed, z * speed)
        | None => (x, z)
        end in
      let y :=
        match vertical_speed (movement preset) with
        | Some speed => y * speed
        | None => y
        end in
      let processedVector := mkVec3 x y z in
      let processedVector :=
        match constraints preset with
        | directional_bias =>
            applyAsymmetricMovement preset processedVector currentPosition
              audioSources
        | _ => processedVector
        end in
      let newPosition :=
        mkVec3 (vx currentPosition + vx processedVector)
               (vy currentPosition + vy processedVector)
               (vz currentPosition + vz processedVector) in
      let constrainedPosition :=
        applyConstraints preset newPosition currentPosition audioSources in
      mkVec3 (vx constrainedPosition - vx currentPosition)
             (vy constrainedPosition - vy currentPosition)
             (vz constrainedPosition - vz currentPosition)
  end.

Definition resetToHome (currentPreset : option Preset) : Vec3 :=
  match currentPreset with
  | None => mkVec3 0 0 0
  | Some preset =>
      let home := home_position preset in
      mkVec3 (p0 home) (p1 home) (p2 home)
  end.

End MovementPresets.

(** ** The renderer *)

Module SpatialAudioEngine.

Import AudioBufferPool.

Local Open Scope R_scope.

(** Arithmetic on array elements: NaN absorbs. *)
Definition fmul (a b : f32) : f32 :=
  match a, b with
  | Some x, Some y => Some (x * y)
  | _, _ => None
  end.

Definition fadd (a b : f32) : f32 :=
  match a, b with
  | Some x, Some y => Some (x + y)
  | _, _ => None
  end.

(** [a[i]] read as a number: an index outside the array gives [undefined],
    which arithmetic turns into NaN. *)
Definition elem (a : list f32) (i : nat) : f32 := mjoin (a !! i).

(** [target.set(source)] on typed arrays. *)
Definition typedSet (target source : list f32) : result (list f32) :=
  if (length target <? length source)%nat then Err RangeError
  else Ok (source ++ drop (length source) target).

(** [Math.atan2(y, x)] and [Math.pow(b, y)] for a base that is not
    negative. *)
Definition Math_atan2 (y x : R) : R :=
  if Rlt_dec 0 x then atan (y / x)
  else if Rlt_dec x 0 then
    (if Rle_dec 0 y then atan (y / x) + PI else atan (y / x) - PI)
  else if Rlt_dec 0 y then PI / 2
  else if Rlt_dec y 0 then - (PI / 2)
  else 0.

Definition Math_pow (b y : R) : R :=
  if Req_dec_T y 0 then 1
  else if Rlt_dec 0 b then Rpower b y
  else 0.

Record Speaker : Type := mkSpeaker {
  azimuth : R;
  elevation : R;
  gain : R
}.

#[local] Instance Speaker_inhabited : Inhabited Speaker :=
  populate (mkSpeaker 0 0 0).

Definition getCubeSpeakers : list Speaker :=
  [ mkSpeaker 0 0 0.125;
    mkSpeaker (PI / 2) 0 0.125;
    mkSpeaker PI 0 0.125;
    mkSpeaker (- PI / 2) 0 0.125;
    mkSpeaker 0 (PI / 4) 0.125;
    mkSpeaker (PI / 2) (PI / 4) 0.125;
    mkSpeaker PI (PI / 4) 0.125;
    mkSpeaker (- PI / 2) (PI / 4) 0.125 ].

Definition getDodecahedralSpeakers : list Speaker :=
  map (fun i : nat =>
         mkSpeaker (INR i * 2 * PI / 12)
                   (if (i mod 2 =? 0)%nat then PI / 6 else - PI / 6)
                   (1 / 12))
      (seq 0 12).

Definition getIcosahedralSpeakers : list Speaker :=
  let phi := (1 + sqrt 5) / 2 in
  let vertices : list (R * R * R) :=
    [ (0, 1, phi); (0, -1, phi); (0, 1, - phi); (0, -1, - phi);
      (1, phi, 0); (-1, phi, 0); (1, - phi, 0); (-1, - phi, 0);
      (phi, 0, 1); (phi, 0, -1); (- phi, 0, 1); (- phi, 0, -1);
      (phi/2, phi/2, phi/2); (- phi/2, phi/2, phi/2);
      (phi/2, - phi/2, phi/2); (- phi/2, - phi/2, phi/2);
      (phi/2, phi/2, - phi/2); (- phi/2, phi/2, - phi/2);
      (phi/2, - phi/2, - phi/2); (- phi/2, - phi/2, - phi/2) ] in
  map (fun pos : R * R * R =>
         let '(x, y, z) := pos in
         let norm := sqrt (x*x + y*y + z*z) in
         mkSpeaker (Math_atan2 x z) (asin (y / norm))
                   (1 / INR (length vertices)))
      vertices.

(** [order] is [Math.sqrt(audioData.length) - 1], a real number. *)
Definition orderOf (numChannels : nat) : R := sqrt (INR numChannels) - 1.

Definition getVirtualSpeakerConfig (order : R) : list Speaker :=
  if Rle_dec 3 order then getIcosahedralSpeakers
  else if Rle_dec 2 order then getDodecahedralSpeakers
  else getCubeSpeakers.

Definition getPinnaResponse (elevation : R) : R :=
  let elevationNorm := elevation / (PI / 2) in
  if Rlt_dec 0 elevation then 1 + 0.2 * elevationNorm
  else 1 + 0.1 * Rabs elevationNorm.

Record HRTF : Type := mkHRTF {
  left : R;
  right : R;
  itd : R;
  hrtfElevation : R
}.

Definition getHRTF (azimuth elevation : R) : HRTF :=
  let headRadius := 0.0875 in
  let soundSpeed := 343 in
  let itd := (headRadius / soundSpeed) * (azimuth + sin azimuth) in
  let pinnaGain := getPinnaResponse elevation in
  let distance := 1 in
  let airAbsorption := exp (- 0.0001 * distance) in
  let headShadowLeft :=
    if Rlt_dec 0 azimuth then 1 - 0.3 * sin azimuth else 1 in
  let headShadowRight :=
    if Rlt_dec azimuth 0 then 1 + 0.3 * sin azimuth else 1 in
  let torsoReflection := 1 + 0.1 * cos elevation in
  let leftGain := (0.5 + 0.5 * cos (azimuth + PI / 2)) *
                  pinnaGain * headShadowLeft * torsoReflection * airAbsorption in
  let rightGain := (0.5 + 0.5 * cos (azimuth - PI / 2)) *
                   pinnaGain * headShadowRight * torsoReflection * airAbsorption in
  mkHRTF (Rmax 0.01 leftGain) (Rmax 0.01 rightGain) itd elevation.

Definition factorial (n : nat) : R :=
  if (n <=? 1)%nat then 1
  else fold_left (fun result (i : nat) => result * INR i) (seq 2 (n - 1)) 1.

(** [associatedLegendre(l, m, x)]; the two recursive calls of the source are
    on the diagonal [l = m] and on [l = m + 1]. *)
Definition associatedLegendre_diag (l : nat) (x : R) : R :=
  let result := (-1) ^ l in
  let result :=
    fold_left (fun result (i : nat) => result * (2 * INR i - 1)) (seq 1 l)
              result in
  result * Math_pow (1 - x * x) (INR l / 2).

Definition associatedLegendre_next (m : nat) (x : R) : R :=
  x * (2 * INR m + 1) * associatedLegendre_diag m x.

Definition associatedLegendre (l m : nat) (x : R) : R :=
  if (l =? m)%nat then associatedLegendre_diag l x
  else if (l =? m + 1)%nat then associatedLegendre_next m x
  else
    let Pmm := associatedLegendre_diag m x in
    let Pm1m := associatedLegendre_next m x in
    snd (fold_left (fun (st : R * R) (ll : nat) =>
           let '(Plm_prev, Plm_curr) := st in
           let Plm_next :=
             ((2 * INR ll - 1) * x * Plm_curr
              - (INR ll + INR m - 1) * Plm_prev) / (INR ll - INR m) in
           (Plm_curr, Plm_next))
         (seq (m + 2) (l + 1 - (m + 2))) (Pmm, Pm1m)).

Definition computeHighOrderHarmonic (l : nat) (m : Z) (azimuth elevation : R)
    : R :=
  let cosTheta := cos elevation in
  let absM := Z.abs_nat m in
  let Plm := associatedLegendre l absM cosTheta in
  let norm := sqrt ((2 * INR l + 1) * factorial (l - absM) /
                    (4 * PI * factorial (l + absM))) in
  if (m =? 0)%Z then norm * Plm
  else if (0 <? m)%Z then norm * Plm * cos (IZR m * azimuth)
  else norm * Plm * sin (INR absM * azimuth).

Definition realSphericalHarmonic (l : nat) (m : Z) (azimuth elevation : R)
    : R :=
  let cosElevation := cos elevation in
  let sinElevation := sin elevation in
  let cosAzimuth := cos azimuth in
  let sinAzimuth := sin azimuth in
  let cosEl2 := cosElevation * cosElevation in
  let sinEl2 := sinElevation * sinElevation in
  let sinEl3 := sinEl2 * sinElevation in
  match l with
  | 0%nat => 1
  | 1%nat =>
      match m with
      | (-1)%Z => sqrt (3 / (4 * PI)) * sinElevation * sinAzimuth
      | 0%Z => sqrt (3 / (4 * PI)) * cosElevation
      | 1%Z => sqrt (3 / (4 * PI)) * sinElevation * cosAzimuth
      | _ => 0
      end
  | 2%nat =>
      match m with
      | (-2)%Z => sqrt (15 / (16 * PI)) * sinEl2 * sin (2 * azimuth)
      | (-1)%Z => sqrt (15 / (4 * PI)) * sinElevation * cosElevation * sinAzimuth
      | 0%Z => sqrt (5 / (16 * PI)) * (3 * cosEl2 - 1)
      | 1%Z => sqrt (15 / (4 * PI)) * sinElevation * cosElevation * cosAzimuth
      | 2%Z => sqrt (15 / (16 * PI)) * sinEl2 * cos (2 * azimuth)
      | _ => 0
      end
  | 3%nat =>
      match m with
      | (-3)%Z => sqrt (35 / (32 * PI)) * sinEl3 * sin (3 * azimuth)
      | (-2)%Z => sqrt (105 / (16 * PI)) * sinEl2 * cosElevation * sin (2 * azimuth)
      | (-1)%Z => sqrt (21 / (32 * PI)) * sinElevation * (5 * cosEl2 - 1) * sinAzimuth
      | 0%Z => sqrt (7 / (16 * PI)) * cosElevation * (5 * cosEl2 - 3)
      | 1%Z => sqrt (21 / (32 * PI)) * sinElevation * (5 * cosEl2 - 1) * cosAzimuth
      | 2%Z => sqrt (105 / (16 * PI)) * sinEl2 * cosElevation * cos (2 * azimuth)
      | 3%Z => sqrt (35 / (32 * PI)) * sinEl3 * cos (3 * azimuth)
      | _ => 0
      end
  | _ => computeHighOrderHarmonic l m azimuth elevation
  end.

(** [coeffs = new Array(numChannels)]: every slot is empty ([None]) until it
    is stored into. For an integer [l], the loop test [l <= order] with
    [order = Math.sqrt(numChannels) - 1] holds exactly when
    [l < Nat.sqrt numChannels], so the outer loop runs over
    [0 .. Nat.sqrt numChannels - 1]; no store falls outside the array. *)
Definition computeSphericalHarmonics (azimuth elevation : R)
    (numChannels : nat) : list (option R) :=
  let coeffs := replicate numChannels None in
  fst (fold_left (fun (st : list (option R) * nat) (l : nat) =>
         fold_left (fun (st : list (option R) * nat) (m : Z) =>
           let '(coeffs, idx) := st in
           (<[idx := Some (realSphericalHarmonic l m azimuth elevation)]> coeffs,
            S idx))
           (SHACDecoder.mRange l) st)
       (seq 0 (Nat.sqrt numChannels)) (coeffs, O)).

(** The inner loops of [decodeToVirtualSpeakers]: one output sample. *)
Definition decodeSample (audioData : list (list f32))
    (shCoeffs : list (option R)) (gain : R) (sample : nat) : f32 :=
  let sum :=
    fold_left (fun (sum : f32) (ch : nat) =>
      fadd sum (fmul (elem (audioData !!! ch) sample) (mjoin (shCoeffs !! ch))))
      (seq 0 (length audioData)) (Some 0) in
  fmul sum (Some gain).

Definition decodeToVirtualSpeakers (p : Pool) (audioData : list (list f32))
    (speakers : list Speaker) (numSamples : nat) : list Ref * Pool :=
  fold_left (fun (st : list Ref * Pool) (speaker : Speaker) =>
    let '(outputs, p) := st in
    let '(output, p) := acquire p numSamples in
    let shCoeffs := computeSphericalHarmonics (azimuth speaker)
                      (elevation speaker) (length audioData) in
    let p :=
      fold_left (fun p (sample : nat) =>
        write p output sample
              (decodeSample audioData shCoeffs (gain speaker) sample))
        (seq 0 numSamples) p in
    (outputs ++ [output], p))
    speakers ([], p).

Definition applySpatialHRTF (p : Pool) (speakerOutputs : list Ref)
    (speakers : list Speaker) (numSamples : nat)
    : list f32 * list f32 * Pool :=
  let left0 := zeros numSamples in
  let right0 := zeros numSamples in
  let '(l, r) :=
    fold_left (fun (st : list f32 * list f32) (spkIdx : nat) =>
      let '(l, r) := st in
      let speaker := speakers !!! spkIdx in
      let output := default [] (speakerOutputs !! spkIdx ≫= (store p !!.)) in
      let hrtf := getHRTF (azimuth speaker) (elevation speaker) in
      fold_left (fun (st : list f32 * list f32) (i : nat) =>
        let '(l, r) := st in
        (<[i := fadd (elem l i) (fmul (elem output i) (Some (left hrtf)))]> l,
         <[i := fadd (elem r i) (fmul (elem output i) (Some (right hrtf)))]> r))
        (seq 0 numSamples) (l, r))
      (seq 0 (length speakers)) (left0, right0) in
  (l, r, releaseAll p speakerOutputs).

Definition decodeBinauralHRTF (p : Pool) (audioData : list (list f32))
    (numSamples : nat) (order : R) : list f32 * list f32 * Pool :=
  let speakers := getVirtualSpeakerConfig order in
  let '(speakerOutputs, p) :=
    decodeToVirtualSpeakers p audioData speakers numSamples in
  applySpatialHRTF p speakerOutputs speakers numSamples.

(** [createAudioBuffer]: the result is the pair of channels of the stereo
    [AudioBuffer], with the state of the shared pool. The audio context is
    taken to exist and to accept the sample rate. *)
Definition createAudioBuffer (p : Pool) (audioData : list (list f32))
    : result (list f32 * list f32 * Pool) :=
  match audioData with
  | [] => Err InvalidAudioData
  | channel0 :: _ =>
      let numSamples := length channel0 in
      if (numSamples =? 0)%nat then Err NoSamples else
      let left0 := zeros numSamples in
      let right0 := zeros numSamples in
      let order := orderOf (length audioData) in
      if (4 <=? length audioData)%nat then
        Ok (decodeBinauralHRTF p audioData numSamples order)
      else if (2 <=? length audioData)%nat then
        let* l := typedSet left0 (audioData !!! 0%nat) in
        let* r := typedSet right0 (audioData !!! 1%nat) in
        Ok (l, r, p)
      else
        let* l := typedSet left0 (audioData !!! 0%nat) in
        let* r := typedSet right0 (audioData !!! 0%nat) in
        Ok (l, r, p)
  end.

(** *** The listener *)

Record Rotation : Type := mkRotation {
  rotationAzimuth : R;
  rotationElevation : R;
  rotationRoll : R
}.

(** What the listener of the audio context was given last: its position,
    its forward vector and its up vector. The modern and the legacy interface
    are given the same numbers. *)
Record AudioListener : Type := mkAudioListener {
  listenerXYZ : MovementPresets.Vec3;
  forwardXYZ : MovementPresets.Vec3;
  upXYZ : MovementPresets.Vec3
}.

(** The part of the engine the listener functions use. [movementPresets] is
    [None] for [null], and else holds the current preset of the presets
    object. The audio context is taken to exist. *)
Record Engine : Type := mkEngine {
  listenerPosition : MovementPresets.Vec3;
  listenerRotation : Rotation;
  listener : AudioListener;
  movementPresets : option (option MovementPresets.Preset);
  audioSources : list MovementPresets.Point
}.

Definition moveSpeed : R := 0.17.

Definition rotateSpeed : R := 1.7.

Definition updateListenerPosition (e : Engine) (x y z : R) : Engine :=
  mkEngine (MovementPresets.mkVec3 x y z) (listenerRotation e)
    (mkAudioListener (MovementPresets.mkVec3 (- x) y z)
       (forwardXYZ (listener e)) (upXYZ (listener e)))
    (movementPresets e) (audioSources e).

Definition updateListenerOrientation (e : Engine) : Engine :=
  let azimuthRad := rotationAzimuth (listenerRotation e) * PI / 180 in
  let elevationRad := rotationElevation (listenerRotation e) * PI / 180 in
  let rollRad := rotationRoll (listenerRotation e) * PI / 180 in
  let forwardX := sin azimuthRad * cos elevationRad in
  let forwardY := sin elevationRad in
  let forwardZ := cos azimuthRad * cos elevationRad in
  let baseUpX := - sin azimuthRad * sin elevationRad * cos rollRad
                 - cos azimuthRad * sin rollRad in
  let baseUpY := cos elevationRad * cos rollRad in
  let baseUpZ := - cos azimuthRad * sin elevationRad * cos rollRad
                 + sin azimuthRad * sin rollRad in
  let upLength :=
    sqrt (baseUpX * baseUpX + baseUpY * baseUpY + baseUpZ * baseUpZ) in
  let upX := if Rlt_dec 0 upLength then baseUpX / upLength else 0 in
  let upY := if Rlt_dec 0 upLength then baseUpY / upLength else 1 in
  let upZ := if Rlt_dec 0 upLength then baseUpZ / upLength else 0 in
  mkEngine (listenerPosition e) (listenerRotation e)
    (mkAudioListener (listenerXYZ (listener e))
       (MovementPresets.mkVec3 (- forwardX) forwardY forwardZ)
       (MovementPresets.mkVec3 upX upY upZ))
    (movementPresets e) (audioSources e).

Definition updateListenerRotation (e : Engine) (azimuth elevation roll : R)
    : Engine :=
  updateListenerOrientation
    (mkEngine (listenerPosition e) (mkRotation azimuth elevation roll)
       (listener e) (movementPresets e) (audioSources e)).

(** The movement after the presets, when there are presets. *)
Definition processed (e : Engine) (rawMovement : MovementPresets.Vec3)
    : MovementPresets.Vec3 :=
  match movementPresets e with
  | None => rawMovement
  | Some currentPreset =>
      MovementPresets.processMovement currentPreset rawMovement
        (listenerPosition e) (audioSources e)
  end.

Definition moveListener (e : Engine) (dx dy dz : R) : Engine :=
  let azimuthRad := rotationAzimuth (listenerRotation e) * PI / 180 in
  let worldDx := dx * cos azimuthRad - dz * sin azimuthRad in
  let worldDz := dx * sin azimuthRad + dz * cos azimuthRad in
  let rawMovement :=
    MovementPresets.mkVec3 (worldDx * moveSpeed) (dy * moveSpeed)
      (worldDz * moveSpeed) in
  let processedMovement := processed e rawMovement in
  updateListenerPosition e
    (MovementPresets.vx (listenerPosition e)
     + MovementPresets.vx processedMovement)
    (MovementPresets.vy (listenerPosition e)
     + MovementPresets.vy processedMovement)
    (MovementPresets.vz (listenerPosition e)
     + MovementPresets.vz processedMovement).

(** The two callers of [updateListenerRotation] with two arguments leave
    [roll] to its default, 0. *)
Definition rotateListener (e : Engine) (dAzimuth dElevation : R) : Engine :=
  updateListenerRotation e
    (rotationAzimuth (listenerRotation e) + dAzimuth * rotateSpeed)
    (rotationElevation (listenerRotation e) + dElevation * rotateSpeed)
    0.

Definition setListenerDirection (e : Engine) (azimuth elevation : R)
    : Engine :=
  updateListenerRotation e azimuth elevation 0.

Definition moveListenerAbsolute (e : Engine) (dx dy dz : R) : Engine :=
  let rawMovement :=
    MovementPresets.mkVec3 (dx * moveSpeed) (dy * moveSpeed)
      (dz * moveSpeed) in
  let processedMovement := processed e rawMovement in
  updateListenerPosition e
    (MovementPresets.vx (listenerPosition e)
     + MovementPresets.vx processedMovement)
    (MovementPresets.vy (listenerPosition e)
     + MovementPresets.vy processedMovement)
    (MovementPresets.vz (listenerPosition e)
     + MovementPresets.vz processedMovement).

Definition setListenerPosition (e : Engine) (x y z : R) : Engine :=
  match movementPresets e with
  | None => updateListenerPosition e x y z
  | Some currentPreset =>
      let movementVector :=
        MovementPresets.mkVec3
          (x - MovementPresets.vx (listenerPosition e))
          (y - MovementPresets.vy (listenerPosition e))
          (z - MovementPresets.vz (listenerPosition e)) in
      let processedMovement :=
        MovementPresets.processMovement currentPreset movementVector
          (listenerPosition e) (audioSources e) in
      updateListenerPosition e
        (MovementPresets.vx (listenerPosition e)
         + MovementPresets.vx processedMovement)
        (MovementPresets.vy (listenerPosition e)
         + MovementPresets.vy processedMovement)
        (MovementPresets.vz (listenerPosition e)
         + MovementPresets.vz processedMovement)
  end.

Definition resetListener (e : Engine) : Engine :=
  let e :=
    match movementPresets e with
    | Some currentPreset =>
        let homePosition := MovementPresets.resetToHome currentPreset in
        updateListenerPosition e (MovementPresets.vx homePosition)
          (MovementPresets.vy homePosition) (MovementPresets.vz homePosition)
    | None => updateListenerPosition e 0 0 0
    end in
  updateListenerRotation e 0 0 0.

End SpatialAudioEngine.

(** ** The decoder: rotating a sound field *)

Module Rotation.

Import SpatialAudioEngine.

Local Open Scope R_scope.

(** [Math.round]: the nearest integer, a half going up. *)
Definition Math_round (x : R) : R := IZR (Int_part (x + / 2)).

(** A cache key is the text [order_yaw_pitch_roll] of the order and the
    three rounded angles. Two numbers have the same text exactly when they
    are equal, so the key is kept as the four numbers. *)
#[export] Instance R_eq_dec : EqDecision R := Req_dec_T.

Definition RotationKey : Type := (nat * R * R * R)%type.

Definition RotationCache : Type := list (RotationKey * list R).

Definition getCachedRotationMatrix (rotationCache : RotationCache)
    (order : nat) (yaw pitch roll : R) : list R * RotationCache :=
  let yawRounded := Math_round (yaw * 573) / 573 in
  let pitchRounded := Math_round (pitch * 573) / 573 in
  let rollRounded := Math_round (roll * 573) / 573 in
  let cacheKey := (order, yawRounded, pitchRounded, rollRounded) in
  match mapGet rotationCache cacheKey with
  | Some matrix => (matrix, rotationCache)
  | None =>
      let matrix := SHACDecoder.computeRotationMatrix order yaw pitch roll in
      (matrix, mapSet rotationCache cacheKey matrix)
  end.

(** [rotateAmbisonics], for the channel counts of an ambisonic signal, the
    squares [(order + 1)²]: there [Math.sqrt(audioData.length) - 1] is the
    order. Other counts give a fractional order in the source and are not
    covered. With no channel at all, reading [audioData[0].length] throws a
    [TypeError]. A channel shorter than channel 0 reads as [undefined], and
    the sum becomes NaN. *)
Definition rotateAmbisonics (rotationCache : RotationCache)
    (audioData : list (list f32)) (yaw pitch roll : R)
    : result (list (list f32) * RotationCache) :=
  let n := length audioData in
  let order := (Nat.sqrt n - 1)%nat in
  let '(rotMatrix, rotationCache) :=
    getCachedRotationMatrix rotationCache order yaw pitch roll in
  match audioData with
  | [] => Err TypeError
  | channel0 :: _ =>
      let numSamples := length channel0 in
      let rotatedData := replicate n (AudioBufferPool.zeros numSamples) in
      let rotatedData :=
        fold_left (fun rotatedData (s : nat) =>
          fold_left (fun rotatedData (i : nat) =>
            let sum :=
              fold_left (fun (sum : f32) (j : nat) =>
                fadd sum (fmul (rotMatrix !! (i * n + j)%nat)
                               (elem (audioData !!! j) s)))
                (seq 0 n) (Some 0) in
            alter (fun row => <[s := sum]> row) i rotatedData)
            (seq 0 n) rotatedData)
          (seq 0 numSamples) rotatedData in
      Ok (rotatedData, rotationCache)
  end.

End Rotation.

(** * Reference definitions

    What the properties below compare the code with. *)

Module Spec.

Local Open Scope R_scope.

(** The signed 16-bit integer whose little-endian bytes are [lo], [hi]. *)
Definition signedLE16 (lo hi : byte) : Z :=
  let u := (u8 lo + 256 * u8 hi)%Z in
  if (u <? 32768)%Z then u else (u - 65536)%Z.

(** The sample of channel [ch] at position [s] of a channel-major 16-bit
    payload. *)
Definition sample16At (payload : list byte) (numSamples ch s : nat) : f32 :=
  let i := (2 * (ch * numSamples + s))%nat in
  Some (IZR (signedLE16 (nth i payload x00) (nth (S i) payload x00)) / 32767).

Definition decode16 (payload : list byte) (numChannels numSamples : nat)
    : list (list f32) :=
  map (fun ch => map (fun s => sample16At payload numSamples ch s)
                     (seq 0 numSamples))
      (seq 0 numChannels).

(** [normalization l m = sqrt ((2l+1) (l-|m|)! / (4 PI (l+|m|)!))]. *)
Definition normalization (l : nat) (m : Z) : R :=
  sqrt (INR (2 * l + 1) * INR (fact (l - Z.abs_nat m))
        / (4 * PI * INR (fact (l + Z.abs_nat m)))).

(** [(2m - 1)!!]. *)
Fixpoint oddDoubleFactorial (m : nat) : R :=
  match m with
  | O => 1
  | S k => oddDoubleFactorial k * (2 * INR (S k) - 1)
  end.

(** The associated Legendre function by the three-term recurrence: the seed
    [P(m,m) = (-1)^m (2m-1)!! (1 - x²)^(m/2)], then
    [P(m+1,m) = x (2m+1) P(m,m)], then the climb
    [(l-m) P(l,m) = (2l-1) x P(l-1,m) - (l+m-1) P(l-2,m)].
    [legendreClimb m k x] is the pair [(P(m+k,m), P(m+k+1,m))]. *)
Definition legendreSeed (m : nat) (x : R) : R :=
  (-1) ^ m * oddDoubleFactorial m * sqrt (1 - x * x) ^ m.

Fixpoint legendreClimb (m k : nat) (x : R) : R * R :=
  match k with
  | O => (legendreSeed m x, x * (2 * INR m + 1) * legendreSeed m x)
  | S k' =>
      let '(p0, p1) := legendreClimb m k' x in
      let l := (m + k' + 2)%nat in
      (p1, ((2 * INR l - 1) * x * p1 - (INR l + INR m - 1) * p0)
           / (INR l - INR m))
  end.

Definition associatedLegendre (l m : nat) (x : R) : R :=
  fst (legendreClimb m (l - m) x).

Definition azimuthFactor (m : Z) (azimuth : R) : R :=
  if (m =? 0)%Z then 1
  else if (0 <? m)%Z then sqrt 2 * cos (IZR m * azimuth)
  else sqrt 2 * sin (IZR (Z.abs m) * azimuth).

(** The basis coefficient of degree [l] and index [m]. *)
Definition harmonic (l : nat) (m : Z) (azimuth elevation : R) : R :=
  normalization l m
  * associatedLegendre l (Z.abs_nat m) (sin elevation)
  * azimuthFactor m azimuth.

(** The position of the coefficient of degree [l] and index [m]. *)
Definition coefficientIndex (l : nat) (m : Z) : nat :=
  Z.to_nat (Z.of_nat (l * l + l) + m).

(** The identity matrix of a given size, row after row. *)
Definition identityMatrix (size : nat) : list R :=
  flat_map (fun i : nat =>
              map (fun j : nat => if (i =? j)%nat then 1 else 0) (seq 0 size))
           (seq 0 size).

End Spec.

(** ** Predicates used by the proofs *)

(** A result that is a value or a [RangeError]. *)
Definition rangeOrOk {A : Type} (r : result A) : Prop :=
  match r with
  | Ok _ => True
  | Err e => e = RangeError
  end.

(** What the index pass establishes for an entry: its offsets follow from
    the id length stored at its header offset. Neither the metadata range
    nor the audio range has been compared with the length of the buffer. *)
Definition entryOk (buf : ArrayBuffer) (h : SHACDecoder.Header)
    (e : SHACDecoder.LayerInfo) : Prop :=
  exists idLength : Z,
    getUint16 buf (SHACDecoder.headerOffset e) = Ok idLength
    /\ (0 <= idLength)%Z
    /\ (SHACDecoder.headerOffset e + 6 + idLength <= byteLength buf)%Z
    /\ (0 <= SHACDecoder.metadataLength e)%Z
    /\ SHACDecoder.dataOffset e
       = (SHACDecoder.headerOffset e + 6 + idLength
          + SHACDecoder.metadataLength e)%Z
    /\ SHACDecoder.dataSize e = SHACDecoder.audioDataSize h.

(** The invariant of the pool: its arrays exist, the arrays in use belong to
    it, and every array of the pool that is not in use holds zeros only. *)
Record poolInv (p : AudioBufferPool.Pool) : Prop := mkPoolInv {
  inv_valid : forall r, r ∈ AudioBufferPool.pool p -> (r < length (AudioBufferPool.store p))%nat;
  inv_inUse : forall r, r ∈ AudioBufferPool.inUse p -> r ∈ AudioBufferPool.pool p;
  inv_zero : forall r, r ∈ AudioBufferPool.pool p -> r ∉ AudioBufferPool.inUse p ->
             exists n, AudioBufferPool.store p !! r = Some (AudioBufferPool.zeros n)
}.

(** A free array of the pool that fits a request. *)
Definition fits (p : AudioBufferPool.Pool) (size : nat)
    (r : AudioBufferPool.Ref) : Prop :=
  r ∈ AudioBufferPool.pool p
  /\ AudioBufferPool.bufferLength p r = Some size
  /\ r ∉ AudioBufferPool.inUse p.

(** An array after [vals] were stored one after the other from position
    [i] on. *)
Definition writeFrom {A : Type} (c : list A) (i : nat) (vals : list A)
    : list A :=
  take i c ++ vals ++ drop (i + length vals) c.

(** The coefficients [g l m] of the degrees [l] below [k], in the order of
    the loops. *)
Definition upTo {A : Type} (g : nat -> Z -> A) (k : nat) : list A :=
  flat_map (fun l => map (g l) (SHACDecoder.mRange l)) (seq 0 k).

(** The coefficient the decoder stores for degree [l] and index [m]: the
    normalization, the entry of its Legendre table and the azimuth term. *)
Definition stored (order : nat) (azimuth elevation : R) (l : nat) (m : Z)
    : R :=
  (Spec.normalization l m
   * SHACDecoder.get2
       (SHACDecoder.computeAssociatedLegendre order (sin elevation))
       l (Z.abs_nat m)
   * Spec.azimuthFactor m azimuth)%R.

(** ** The layout of the container, written out *)

(** The byte with value [z mod 256]. *)
Definition byteOfZ (z : Z) : byte :=
  default x00 (Byte.of_N (Z.to_N (z mod 256))).

(** The little-endian bytes of a 16-bit and of a 32-bit unsigned integer. *)
Definition le16 (z : Z) : list byte := [byteOfZ z; byteOfZ (z / 256)].

Definition le32 (z : Z) : list byte :=
  [byteOfZ z; byteOfZ (z / 256); byteOfZ (z / 65536); byteOfZ (z / 16777216)].

(** The 26 bytes of a header. *)
Definition encodeHeader (h : SHACDecoder.Header) : list byte :=
  SHACDecoder.MAGIC
  ++ le16 (SHACDecoder.version h) ++ le16 (SHACDecoder.order h)
  ++ le16 (SHACDecoder.n_channels h) ++ le32 (SHACDecoder.sample_rate h)
  ++ le32 (SHACDecoder.bit_depth h) ++ le32 (SHACDecoder.n_samples h)
  ++ le16 (SHACDecoder.n_layers h) ++ le16 (SHACDecoder.normalization h).

(** The fields of a header fit their widths. *)
Definition headerInRange (h : SHACDecoder.Header) : Prop :=
  (0 <= SHACDecoder.version h < 65536
   /\ 0 <= SHACDecoder.order h < 65536
   /\ 0 <= SHACDecoder.n_channels h < 65536
   /\ 0 <= SHACDecoder.sample_rate h < 4294967296
   /\ 0 <= SHACDecoder.bit_depth h < 4294967296
   /\ 0 <= SHACDecoder.n_samples h < 4294967296
   /\ 0 <= SHACDecoder.n_layers h < 65536
   /\ 0 <= SHACDecoder.normalization h < 65536)%Z.

(** The records of an index follow one another: each one starts where the
    audio of the one before ends, the first one at [start]. *)
Fixpoint contiguous (start : Z) (index : list SHACDecoder.LayerInfo) : Prop :=
  match index with
  | [] => True
  | e :: rest =>
      SHACDecoder.headerOffset e = start
      /\ contiguous (SHACDecoder.dataOffset e + SHACDecoder.dataSize e)%Z rest
  end.

(** Where the last record of an index ends. *)
Fixpoint indexEnd (start : Z) (index : list SHACDecoder.LayerInfo) : Z :=
  match index with
  | [] => start
  | e :: rest =>
      indexEnd (SHACDecoder.dataOffset e + SHACDecoder.dataSize e)%Z rest
  end.

(** The 32-bit word stored little-endian at position [i] of a payload. *)
Definition wordAt (payload : list byte) (i : nat) : Z :=
  (u8 (nth i payload x00) + 256 * u8 (nth (i + 1) payload x00)
   + 65536 * u8 (nth (i + 2) payload x00)
   + 16777216 * u8 (nth (i + 3) payload x00))%Z.

(** A channel-major payload of 32-bit floats, decoded. *)
Definition decode32 (float32_of_bits : Z -> f32) (payload : list byte)
    (numChannels numSamples : nat) : list (list f32) :=
  map (fun ch => map (fun s =>
                        float32_of_bits
                          (wordAt payload (4 * (ch * numSamples + s))))
                     (seq 0 numSamples))
      (seq 0 numChannels).

(** A layer as the container holds it: the bytes of its id, the bytes of
    its metadata text and the bytes of its audio. Its record is the two
    lengths, 16 and 32 bits little-endian, followed by the three. *)
Record LayerRecord : Type := mkLayerRecord {
  recordId : list byte;
  recordMetadata : list byte;
  recordAudio : list byte
}.

Definition encodeLayer (r : LayerRecord) : list byte :=
  le16 (Z.of_nat (length (recordId r)))
  ++ le32 (Z.of_nat (length (recordMetadata r)))
  ++ recordId r ++ recordMetadata r ++ recordAudio r.

Definition encodeFile (h : SHACDecoder.Header) (records : list LayerRecord)
    : list byte :=
  encodeHeader h ++ flat_map encodeLayer records.

(** The lengths of a record fit their fields, and its audio has the size
    the header declares. *)
Definition recordFits (h : SHACDecoder.Header) (r : LayerRecord) : Prop :=
  (Z.of_nat (length (recordId r)) < 65536)%Z
  /\ (Z.of_nat (length (recordMetadata r)) < 4294967296)%Z
  /\ length (recordAudio r) = Z.to_nat (SHACDecoder.audioDataSize h).

(** The index entries of records that start at [off]. *)
Fixpoint entriesFrom (TextDecoder_decode : list byte -> string)
    (h : SHACDecoder.Header) (off : nat) (records : list LayerRecord)
    : list SHACDecoder.LayerInfo :=
  match records with
  | [] => []
  | r :: rest =>
      SHACDecoder.mkLayerInfo (TextDecoder_decode (recordId r))
        (Z.of_nat off)
        (Z.of_nat off + 6 + Z.of_nat (length (recordId r))
         + Z.of_nat (length (recordMetadata r)))
        (SHACDecoder.audioDataSize h)
        (Z.of_nat (length (recordMetadata r)))
      :: entriesFrom TextDecoder_decode h (off + length (encodeLayer r)) rest
  end.

(** What a record holds: its name, its metadata and its samples. *)
Definition decodedLayer (TextDecoder_decode : list byte -> string)
    (JSON_parse : string -> option Json) (float32_of_bits : Z -> f32)
    (h : SHACDecoder.Header) (r : LayerRecord)
    : string * SHACDecoder.LayerData :=
  (TextDecoder_decode (recordId r),
   SHACDecoder.mkLayerData
     (SHACDecoder.parseMetadata JSON_parse
        (TextDecoder_decode (recordMetadata r)))
     (if (SHACDecoder.bit_depth h =? 16)%Z
      then Spec.decode16 (recordAudio r)
             (Z.to_nat (SHACDecoder.n_channels h))
             (Z.to_nat (SHACDecoder.n_samples h))
      else decode32 float32_of_bits (recordAudio r)
             (Z.to_nat (SHACDecoder.n_channels h))
             (Z.to_nat (SHACDecoder.n_samples h)))
     (SHACDecoder.n_samples h)).

(** A sample that is a number from [-32768/32767] to 1. *)
Definition inSampleRange (s : f32) : Prop :=
  exists v : R, s = Some v /\ (- 32768 / 32767 <= v <= 1)%R.

(** A layer has the shape the header declares. *)
Definition shaped (h : SHACDecoder.Header) (data : SHACDecoder.LayerData)
    : Prop :=
  length (SHACDecoder.audioData data) = Z.to_nat (SHACDecoder.n_channels h)
  /\ Forall (fun channel =>
               length channel = Z.to_nat (SHACDecoder.n_samples h))
            (SHACDecoder.audioData data)
  /\ SHACDecoder.samplesPerChannel data = SHACDecoder.n_samples h.

(** The state of the loop over the speakers after [k] of them, started in
    the pool [p0]: the outputs acquired so far are in use on top of the arrays
    that were in use before, which have kept their contents, and the pool has
    grown by at most [k] arrays. *)
Definition renderInv (p0 : AudioBufferPool.Pool) (k : nat)
    (st : list AudioBufferPool.Ref * AudioBufferPool.Pool) : Prop :=
  poolInv (snd st)
  /\ AudioBufferPool.inUse (snd st)
     = AudioBufferPool.inUse p0 ∪ list_to_set (fst st)
  /\ (forall o, o ∈ fst st -> o ∉ AudioBufferPool.inUse p0)
  /\ (forall r, r ∈ AudioBufferPool.inUse p0 ->
        AudioBufferPool.store (snd st) !! r = AudioBufferPool.store p0 !! r)
  /\ (length (AudioBufferPool.pool p0)
      <= length (AudioBufferPool.pool (snd st))
      <= length (AudioBufferPool.pool p0) + k)%nat.

(** The distance of a position from the vertical axis, and from a point,
    both measured in the horizontal plane. *)
Definition axisDistance (v : MovementPresets.Vec3) : R :=
  sqrt (MovementPresets.vx v * MovementPresets.vx v
        + MovementPresets.vz v * MovementPresets.vz v).

Definition planeDistance (v : MovementPresets.Vec3)
    (q : MovementPresets.Point) : R :=
  sqrt ((MovementPresets.vx v - MovementPresets.p0 q) ^ 2
        + (MovementPresets.vz v - MovementPresets.p2 q) ^ 2).

(** A position after a movement. *)
Definition moved (position movement : MovementPresets.Vec3)
    : MovementPresets.Vec3 :=
  MovementPresets.mkVec3
    (MovementPresets.vx position + MovementPresets.vx movement)
    (MovementPresets.vy position + MovementPresets.vy movement)
    (MovementPresets.vz position + MovementPresets.vz movement).

(** A position inside the cylinder of a preset. *)
Definition insideBoundaries (b : MovementPresets.Boundaries)
    (v : MovementPresets.Vec3) : Prop :=
  (axisDistance v <= MovementPresets.radius b
   /\ MovementPresets.floor b <= MovementPresets.vy v
      <= MovementPresets.ceiling b)%R.

(** The number of calls of [acquire] in a sequence of calls. *)
Fixpoint acquireCalls (calls : list AudioBufferPool.Call) : nat :=
  match calls with
  | [] => 0
  | AudioBufferPool.CallAcquire _ :: rest => S (acquireCalls rest)
  | _ :: rest => acquireCalls rest
  end.

(** An engine at the origin, looking along Z, with the preset Explorer and
    no sources; and the same engine without movement presets. *)
Definition exampleEngine : SpatialAudioEngine.Engine :=
  SpatialAudioEngine.mkEngine (MovementPresets.mkVec3 0 0 0)
    (SpatialAudioEngine.mkRotation 0 0 0)
    (SpatialAudioEngine.mkAudioListener (MovementPresets.mkVec3 0 0 0)
       (MovementPresets.mkVec3 0 0 1) (MovementPresets.mkVec3 0 1 0))
    (Some (Some MovementPresets.explorer)) [].

Definition freeEngine : SpatialAudioEngine.Engine :=
  SpatialAudioEngine.mkEngine (MovementPresets.mkVec3 0 0 0)
    (SpatialAudioEngine.mkRotation 0 0 0)
    (SpatialAudioEngine.mkAudioListener (MovementPresets.mkVec3 0 0 0)
       (MovementPresets.mkVec3 0 0 1) (MovementPresets.mkVec3 0 1 0))
    None [].

(** What one virtual speaker plays at a sample, and what an ear hears at a
    sample: the speakers one after the other, each weighted by the gain the
    HRTF of its direction has for that ear. *)
Definition speakerSample (audioData : list (list f32))
    (speaker : SpatialAudioEngine.Speaker) (sample : nat) : f32 :=
  SpatialAudioEngine.decodeSample audioData
    (SpatialAudioEngine.computeSphericalHarmonics
       (SpatialAudioEngine.azimuth speaker)
       (SpatialAudioEngine.elevation speaker) (length audioData))
    (SpatialAudioEngine.gain speaker) sample.

Definition binauralSample (ear : SpatialAudioEngine.HRTF -> R)
    (audioData : list (list f32))
    (speakers : list SpatialAudioEngine.Speaker) (sample : nat) : f32 :=
  fold_left (fun (sum : f32) (speaker : SpatialAudioEngine.Speaker) =>
               SpatialAudioEngine.fadd sum
                 (SpatialAudioEngine.fmul
                    (speakerSample audioData speaker sample)
                    (Some (ear (SpatialAudioEngine.getHRTF
                                  (SpatialAudioEngine.azimuth speaker)
                                  (SpatialAudioEngine.elevation speaker))))))
            speakers (Some 0%R).

(** The arrays of the speakers done so far are in use and hold what the
    speakers play. *)
Definition speakersDone (audioData : list (list f32)) (numSamples : nat)
    (q : AudioBufferPool.Pool) (done : list SpatialAudioEngine.Speaker)
    (outputs : list AudioBufferPool.Ref) : Prop :=
  Forall2 (fun speaker o =>
             o ∈ AudioBufferPool.inUse q
             /\ AudioBufferPool.store q !! o
                = Some (map (speakerSample audioData speaker)
                            (seq 0 numSamples)))
          done outputs.

(** A sample of a rotated channel: row [i] of the matrix times the samples
    of the channels at [s]. *)
Definition rotatedSample (rotMatrix : list R) (audioData : list (list f32))
    (i s : nat) : f32 :=
  fold_left (fun (sum : f32) (j : nat) =>
               SpatialAudioEngine.fadd sum
                 (SpatialAudioEngine.fmul
                    (rotMatrix !! (i * length audioData + j)%nat)
                    (SpatialAudioEngine.elem (audioData !!! j) s)))
            (seq 0 (length audioData)) (Some 0%R).

(** A cache that holds nothing but matrices [computeRotationMatrix] made
    for the order of their key. *)
Definition validCache (rotationCache : Rotation.RotationCache) : Prop :=
  Forall (fun entry : Rotation.RotationKey * list R =>
            exists yaw pitch roll,
              snd entry
              = SHACDecoder.computeRotationMatrix (fst (fst (fst (fst entry))))
                  yaw pitch roll)
         rotationCache.

(** Four channels of one sample each. *)
Definition fourChannels : list (list f32) :=
  [[Some 1%R]; [Some 0%R]; [Some 0%R]; [Some 0%R]].

(** ** Example data *)

(** A stand-in for the platform's text decoder: one character per byte. *)
Definition exampleDecode (bs : list byte) : string := string_of_list_byte bs.

(** A stand-in for [JSON.parse] that accepts only the text [null]. *)
Definition exampleParse (s : string) : option Json :=
  if String.eqb s "null" then Some JNull else None.

(** A stand-in for [toFixed(3)]: the text it gives for 0, the only number
    the examples apply it to. *)
Definition exampleToFixed3 (x : R) : string := "0.000".

(** A stand-in for the IEEE decoding of 32-bit floats. *)
Definition exampleFloat (bits : Z) : f32 := None.

(** A file of 32 bytes: a header declaring version 1, order 0, one channel,
    48000 Hz, 16 bits, one sample per channel and one layer, then one layer
    record with an empty id and empty metadata, and no audio bytes. *)
Definition truncatedFile : list byte :=
  [ x53; x48; x41; x43;  x01; x00;  x00; x00;  x01; x00;
    x80; xbb; x00; x00;  x10; x00; x00; x00;  x01; x00; x00; x00;
    x01; x00;  x00; x00;
    x00; x00;  x00; x00; x00; x00 ].

(** A pool after one array of two samples was acquired, written to and
    released. *)
Definition exampleCalls : list AudioBufferPool.Call :=
  [ AudioBufferPool.CallAcquire 2;
    AudioBufferPool.CallWrite 0 0 (Some 1%R);
    AudioBufferPool.CallRelease 0 ]%nat.

Definition examplePool : AudioBufferPool.Pool :=
  default AudioBufferPool.empty
          (AudioBufferPool.run AudioBufferPool.empty exampleCalls).

(** A file of 39 bytes with one layer named [a] whose metadata text is
    [oops] and whose audio is one 16-bit sample, 16384. *)
Definition fallbackFile : list byte :=
  [ x53; x48; x41; x43;  x01; x00;  x00; x00;  x01; x00;
    x80; xbb; x00; x00;  x10; x00; x00; x00;  x01; x00; x00; x00;
    x01; x00;  x00; x00;
    x01; x00;  x04; x00; x00; x00;
    x61;
    x6f; x6f; x70; x73;
    x00; x40 ].

Definition fallbackEntry : SHACDecoder.LayerInfo :=
  SHACDecoder.mkLayerInfo "a"%string 26 37 2 4.

Definition truncatedHeader : SHACDecoder.Header :=
  SHACDecoder.mkHeader 1 0 1 48000 16 1 1 0.

Definition truncatedEntry : SHACDecoder.LayerInfo :=
  SHACDecoder.mkLayerInfo ""%string 26 32 2 0.

(** What [fallbackFile] decodes to. *)
Definition fallbackLayer : SHACDecoder.LayerData :=
  SHACDecoder.mkLayerData SHACDecoder.defaultMetadata
    [[Some (16384 / 32767)%R]] 1.

Definition fallbackDecoded : SHACDecoder.Decoded :=
  SHACDecoder.mkDecoded truncatedHeader [("a"%string, fallbackLayer)]
    ["a"%string] [fallbackEntry].

(** * Properties *)

(** ** Results *)

Lemma mapR_ok {A B : Type} (f : A -> result B) (g : A -> B) (l : list A) :
  (forall a, In a l -> f a = Ok (g a)) -> mapR f l = Ok (map g l).
Proof.
  induction l as [|a l IH]; intros H; simpl.
  - reflexivity.
  - rewrite (H a) by (left; reflexivity). simpl.
    rewrite IH by (intros b Hb; apply H; right; exact Hb).
    reflexivity.
Qed.

(** ** Bytes *)

Lemma u8_range (b : byte) : (0 <= u8 b < 256)%Z.
Proof.
  unfold u8. pose proof (Byte.to_N_bounded b) as H. lia.
Qed.

Lemma byteAt_app (pre rest : list byte) (i : nat) :
  byteAt (pre ++ rest) (Z.of_nat (length pre) + Z.of_nat i)
  = u8 (nth i rest x00).
Proof.
  unfold byteAt. f_equal.
  replace (Z.to_nat (Z.of_nat (length pre) + Z.of_nat i))
    with (length pre + i)%nat by lia.
  rewrite app_nth2_plus. reflexivity.
Qed.

Lemma nth_app_left (l post : list byte) (i : nat) :
  (i < length l)%nat -> nth i (l ++ post) x00 = nth i l x00.
Proof.
  intros H. apply app_nth1. exact H.
Qed.

Lemma in_range_app (pre payload post : list byte) (i w : Z) :
  (0 <= i)%Z -> (i + w <= Z.of_nat (length payload))%Z ->
  in_range (pre ++ payload ++ post) (Z.of_nat (length pre) + i) w = true.
Proof.
  intros Hi Hw. unfold in_range, byteLength.
  rewrite !length_app.
  apply andb_true_iff. split; [apply Z.leb_le | apply Z.leb_le]; lia.
Qed.

(** [(high << 8) | low] is [256 * high + low] when [low] is a byte. *)
Lemma shl8_or_add (high low : Z) :
  (0 <= low < 256)%Z -> shl8_or high low = (256 * high + low)%Z.
Proof.
  intros Hlow. unfold shl8_or.
  rewrite Z.shiftl_mul_pow2 by lia.
  change (2 ^ 8)%Z with 256%Z.
  assert (Hland : Z.land (high * 256) low = 0%Z).
  { apply Z.bits_inj'. intros n Hn.
    rewrite Z.land_spec, Z.bits_0.
    destruct (Z.lt_ge_cases n 8) as [Hlt | Hge].
    - change 256%Z with (2 ^ 8)%Z.
      rewrite Z.mul_pow2_bits_low by lia. reflexivity.
    - assert (Z.testbit low n = false) as ->.
      { destruct (Z.eq_dec low 0) as [-> | Hne].
        - apply Z.bits_0.
        - apply Z.bits_above_log2; [lia |].
          assert (Z.log2 low < 8)%Z by (apply Z.log2_lt_pow2; lia).
          lia. }
      apply andb_false_r. }
  rewrite <- Z.lxor_lor by exact Hland.
  rewrite <- Z.add_nocarry_lxor by exact Hland.
  lia.
Qed.

(** The byte-wise assembly of a sample gives the signed little-endian
    value. *)
Lemma bytewise_value (lo hi : byte) :
  shl8_or (let b := u8 hi in if (128 <=? b)%Z then b - 256 else b)%Z (u8 lo)
  = Spec.signedLE16 lo hi.
Proof.
  pose proof (u8_range lo) as Hlo. pose proof (u8_range hi) as Hhi.
  rewrite shl8_or_add by exact Hlo.
  unfold Spec.signedLE16. cbv zeta.
  destruct (Z.leb_spec 128 (u8 hi)); destruct (Z.ltb_spec (u8 lo + 256 * u8 hi) 32768); lia.
Qed.

Lemma view_value (lo hi : byte) :
  int16_le (u8 lo) (u8 hi) = Spec.signedLE16 lo hi.
Proof.
  pose proof (u8_range lo) as Hlo. pose proof (u8_range hi) as Hhi.
  unfold int16_le, Spec.signedLE16. cbv zeta.
  destruct (Z.leb_spec 32768 (u8 lo + 256 * u8 hi)); destruct (Z.ltb_spec (u8 lo + 256 * u8 hi) 32768); lia.
Qed.

(** ** Reading a 16-bit payload *)

Section Payload.

Variables pre payload post : list byte.

Lemma byteAt_payload (i : nat) :
  (i < length payload)%nat ->
  byteAt (pre ++ payload ++ post) (Z.of_nat (length pre) + Z.of_nat i)
  = u8 (nth i payload x00).
Proof.
  intros Hi. rewrite byteAt_app, nth_app_left by exact Hi. reflexivity.
Qed.

Lemma getUint8_payload (i : nat) :
  (i < length payload)%nat ->
  getUint8 (pre ++ payload ++ post) (Z.of_nat (length pre) + Z.of_nat i)
  = Ok (u8 (nth i payload x00)).
Proof.
  intros Hi. unfold getUint8.
  rewrite in_range_app by lia. rewrite byteAt_payload by exact Hi.
  reflexivity.
Qed.

Lemma getInt8_payload (i : nat) :
  (i < length payload)%nat ->
  getInt8 (pre ++ payload ++ post) (Z.of_nat (length pre) + Z.of_nat i)
  = Ok (let b := u8 (nth i payload x00) in
        if (128 <=? b)%Z then b - 256 else b)%Z.
Proof.
  intros Hi. unfold getInt8.
  rewrite in_range_app by lia. rewrite byteAt_payload by exact Hi.
  reflexivity.
Qed.

Lemma Int16Array_payload (total : nat) :
  length payload = (2 * total)%nat ->
  (Z.of_nat (length pre) mod 2 = 0)%Z ->
  Int16Array_view (pre ++ payload ++ post) (Z.of_nat (length pre))
                  (Z.of_nat total)
  = Ok (map (fun i : nat =>
               Spec.signedLE16 (nth (2 * i) payload x00)
                               (nth (S (2 * i)) payload x00))
            (seq 0 total)).
Proof.
  intros Hlen Heven. unfold Int16Array_view.
  rewrite Heven. change (0 =? 0)%Z with true. cbn [andb].
  replace (Z.of_nat (length pre)) with (Z.of_nat (length pre) + 0)%Z at 1 by lia.
  rewrite in_range_app by lia.
  rewrite Nat2Z.id. f_equal.
  apply map_ext_in. intros i Hi. apply in_seq in Hi.
  replace (Z.of_nat (length pre) + 2 * Z.of_nat i)%Z
    with (Z.of_nat (length pre) + Z.of_nat (2 * i))%Z by lia.
  replace (Z.of_nat (length pre) + Z.of_nat (2 * i) + 1)%Z
    with (Z.of_nat (length pre) + Z.of_nat (S (2 * i)))%Z by lia.
  rewrite !byteAt_payload by lia.
  apply view_value.
Qed.

End Payload.

Section ReadAudio16.

Variables pre payload post : list byte.
Variables numChannels numSamples : nat.
Hypothesis payload_length :
  length payload = (2 * (numChannels * numSamples))%nat.

Lemma sample_index (ch s : nat) :
  (ch < numChannels)%nat -> (s < numSamples)%nat ->
  (ch * numSamples + s < numChannels * numSamples)%nat.
Proof. intros Hch Hs. nia. Qed.

Lemma readAudio16_bytewise_spec :
  SHACDecoder.readAudio16_bytewise (pre ++ payload ++ post)
    (Z.of_nat (length pre)) numChannels numSamples
  = Ok (Spec.decode16 payload numChannels numSamples).
Proof.
  unfold SHACDecoder.readAudio16_bytewise, SHACDecoder.channelLoops,
    Spec.decode16.
  apply mapR_ok. intros ch Hch. apply in_seq in Hch.
  apply mapR_ok. intros s Hs. apply in_seq in Hs.
  pose proof (sample_index ch s ltac:(lia) ltac:(lia)) as Hidx.
  cbv zeta.
  replace (Z.of_nat (length pre)
           + (Z.of_nat ch * Z.of_nat numSamples + Z.of_nat s) * 2)%Z
    with (Z.of_nat (length pre) + Z.of_nat (2 * (ch * numSamples + s)))%Z
    by lia.
  rewrite getUint8_payload by lia. cbn [rbind].
  replace (Z.of_nat (length pre) + Z.of_nat (2 * (ch * numSamples + s)) + 1)%Z
    with (Z.of_nat (length pre) + Z.of_nat (S (2 * (ch * numSamples + s))))%Z
    by lia.
  rewrite getInt8_payload by lia. cbn [rbind].
  rewrite bytewise_value. reflexivity.
Qed.

Lemma readAudio16_view_spec :
  (Z.of_nat (length pre) mod 2 = 0)%Z ->
  SHACDecoder.readAudio16_view (pre ++ payload ++ post)
    (Z.of_nat (length pre)) numChannels numSamples
  = Ok (Spec.decode16 payload numChannels numSamples).
Proof.
  intros Heven. unfold SHACDecoder.readAudio16_view. cbv zeta.
  rewrite <- Nat2Z.inj_mul.
  rewrite Int16Array_payload by (exact payload_length || exact Heven).
  cbn [rbind].
  unfold SHACDecoder.channelLoops, Spec.decode16.
  apply mapR_ok. intros ch Hch. apply in_seq in Hch.
  apply mapR_ok. intros s Hs. apply in_seq in Hs.
  pose proof (sample_index ch s ltac:(lia) ltac:(lia)) as Hidx.
  unfold Spec.sample16At. cbv zeta. do 2 f_equal.
  rewrite (nth_indep _ 0%Z (Spec.signedLE16 (nth (2 * 0) payload x00)
                                           (nth (S (2 * 0)) payload x00)))
    by (rewrite length_map, length_seq; exact Hidx).
  rewrite (map_nth (fun i : nat =>
             Spec.signedLE16 (nth (2 * i) payload x00)
                             (nth (S (2 * i)) payload x00))).
  rewrite seq_nth by exact Hidx. reflexivity.
Qed.

End ReadAudio16.



(** ** Errors of the reads *)

Lemma rbind_rangeOrOk {A B : Type} (r : result A) (k : A -> result B) :
  rangeOrOk r -> (forall a, rangeOrOk (k a)) -> rangeOrOk (rbind r k).
Proof.
  destruct r as [a | e]; simpl; intros Hr Hk; [apply Hk | exact Hr].
Qed.

Lemma mapR_rangeOrOk {A B : Type} (f : A -> result B) (l : list A) :
  (forall a, In a l -> rangeOrOk (f a)) -> rangeOrOk (mapR f l).
Proof.
  induction l as [|a l IH]; intros H; simpl; [exact I |].
  apply rbind_rangeOrOk; [apply H; left; reflexivity |].
  intros b. apply rbind_rangeOrOk; [|intros; exact I].
  apply IH. intros c Hc. apply H. right. exact Hc.
Qed.

Lemma mapR_fails {A B : Type} (f : A -> result B) (l : list A) (a : A) :
  (forall c, In c l -> rangeOrOk (f c)) ->
  In a l -> f a = Err RangeError -> mapR f l = Err RangeError.
Proof.
  induction l as [|c l IH]; intros Hall Hin Hfa; [destruct Hin |].
  simpl. destruct (f c) as [b | e] eqn:Hfc.
  - destruct Hin as [-> | Hin]; [congruence |].
    cbn [rbind]. rewrite IH; [reflexivity | | exact Hin | exact Hfa].
    intros d Hd. apply Hall. right. exact Hd.
  - pose proof (Hall c (or_introl eq_refl)) as Hc. rewrite Hfc in Hc.
    simpl in Hc. subst e. reflexivity.
Qed.

Lemma rangeOrOk_Err {A : Type} (r : result A) (e : JsError) :
  rangeOrOk r -> r = Err e -> e = RangeError.
Proof. intros H ->. exact H. Qed.

Lemma getUint8_rangeOrOk buf off : rangeOrOk (getUint8 buf off).
Proof. unfold getUint8. destruct (in_range buf off 1); simpl; auto. Qed.

Lemma getInt8_rangeOrOk buf off : rangeOrOk (getInt8 buf off).
Proof. unfold getInt8. destruct (in_range buf off 1); simpl; auto. Qed.

Lemma getUint16_rangeOrOk buf off : rangeOrOk (getUint16 buf off).
Proof. unfold getUint16. destruct (in_range buf off 2); simpl; auto. Qed.

Lemma getUint32_rangeOrOk buf off : rangeOrOk (getUint32 buf off).
Proof. unfold getUint32. destruct (in_range buf off 4); simpl; auto. Qed.

Lemma Uint8Array_view_rangeOrOk buf off len :
  rangeOrOk (Uint8Array_view buf off len).
Proof. unfold Uint8Array_view. destruct (in_range buf off len); simpl; auto. Qed.

Lemma Int16Array_view_rangeOrOk buf off count :
  rangeOrOk (Int16Array_view buf off count).
Proof.
  unfold Int16Array_view.
  destruct ((off mod 2 =? 0) && in_range buf off (2 * count)); simpl; auto.
Qed.

Create HintDb reads.

#[local] Hint Resolve getUint8_rangeOrOk getInt8_rangeOrOk getUint16_rangeOrOk
  getUint32_rangeOrOk Uint8Array_view_rangeOrOk Int16Array_view_rangeOrOk
  : reads.

Lemma in_range_false (buf : ArrayBuffer) (off w : Z) :
  (byteLength buf < off + w)%Z -> in_range buf off w = false.
Proof.
  intros H. unfold in_range. apply andb_false_iff. right.
  apply Z.leb_gt. exact H.
Qed.

Lemma in_range_true (buf : ArrayBuffer) (off w : Z) :
  in_range buf off w = true -> (0 <= off /\ off + w <= byteLength buf)%Z.
Proof.
  unfold in_range. intros H. apply andb_true_iff in H as [H1 H2].
  apply Z.leb_le in H1. apply Z.leb_le in H2. split; assumption.
Qed.

Lemma getUint16_nonneg buf off v : getUint16 buf off = Ok v -> (0 <= v)%Z.
Proof.
  unfold getUint16, byteAt. destruct (in_range buf off 2); [|discriminate].
  intros [= <-].
  pose proof (u8_range (nth (Z.to_nat off) buf x00)).
  pose proof (u8_range (nth (Z.to_nat (off + 1)) buf x00)). lia.
Qed.

Lemma getUint32_nonneg buf off v : getUint32 buf off = Ok v -> (0 <= v)%Z.
Proof.
  unfold getUint32, byteAt. destruct (in_range buf off 4); [|discriminate].
  intros [= <-].
  pose proof (u8_range (nth (Z.to_nat off) buf x00)).
  pose proof (u8_range (nth (Z.to_nat (off + 1)) buf x00)).
  pose proof (u8_range (nth (Z.to_nat (off + 2)) buf x00)).
  pose proof (u8_range (nth (Z.to_nat (off + 3)) buf x00)). lia.
Qed.

(** Unfolds one successful step of a chain of reads. *)
Ltac bind_ok H :=
  match type of H with
  | rbind ?r _ = Ok _ =>
      let E := fresh "E" in
      destruct r eqn:E; cbn [rbind] in H; [| discriminate H]
  | (if ?c then Err _ else _) = Ok _ =>
      let E := fresh "E" in
      destruct c eqn:E; [discriminate H |]
  end.

(** ** Truncated buffers *)

Section Truncated.

Variable TextDecoder_decode : list byte -> string.
Variable JSON_parse : string -> option Json.
Variable float32_of_bits : Z -> f32.

Lemma channelLoops_rangeOrOk {A : Type} (nc ns : nat)
    (body : nat -> nat -> result A) :
  (forall ch s, rangeOrOk (body ch s)) ->
  rangeOrOk (SHACDecoder.channelLoops nc ns body).
Proof.
  intros H. unfold SHACDecoder.channelLoops.
  apply mapR_rangeOrOk. intros ch _. apply mapR_rangeOrOk. intros s _.
  apply H.
Qed.

(** If the last iteration of the loop nest fails, the loop nest fails. *)
Lemma channelLoops_fails {A : Type} (nc ns : nat)
    (body : nat -> nat -> result A) :
  (forall ch s, rangeOrOk (body ch s)) ->
  (0 < nc)%nat -> (0 < ns)%nat ->
  body (nc - 1)%nat (ns - 1)%nat = Err RangeError ->
  SHACDecoder.channelLoops nc ns body = Err RangeError.
Proof.
  intros Hall Hnc Hns Hlast. unfold SHACDecoder.channelLoops.
  apply (mapR_fails _ _ (nc - 1)%nat).
  - intros ch _. apply mapR_rangeOrOk. intros s _. apply Hall.
  - apply in_seq. lia.
  - apply (mapR_fails _ _ (ns - 1)%nat).
    + intros s _. apply Hall.
    + apply in_seq. lia.
    + exact Hlast.
Qed.

Lemma readAudioDataOptimized_rangeOrOk buf off nc ns bd :
  rangeOrOk (SHACDecoder.readAudioDataOptimized float32_of_bits buf off nc ns bd).
Proof.
  unfold SHACDecoder.readAudioDataOptimized, SHACDecoder.readAudio16_bytewise,
    SHACDecoder.readAudio16_view, SHACDecoder.readAudio32_view,
    SHACDecoder.readAudio32_bytewise.
  repeat match goal with |- context [if ?c then _ else _] => destruct c end;
    simpl; auto;
    repeat first
      [ apply channelLoops_rangeOrOk; intros ch s
      | apply rbind_rangeOrOk; [auto with reads | intros ?]
      | exact I ].
Qed.

(** A payload that runs past the end of the buffer is not read: the reader
    raises [RangeError]. *)
Lemma readAudioDataOptimized_truncated buf off (nc ns : nat) bd :
  (off <= byteLength buf)%Z ->
  (byteLength buf
   < off + Z.of_nat nc * Z.of_nat ns * (if bd =? 16 then 2 else 4))%Z ->
  SHACDecoder.readAudioDataOptimized float32_of_bits buf off nc ns bd
  = Err RangeError.
Proof.
  intros Hoff Hlen.
  assert (Hpos : (0 < nc /\ 0 < ns)%nat).
  { destruct nc, ns; try lia; destruct (bd =? 16)%Z; lia. }
  destruct Hpos as [Hnc Hns].
  assert (Hlast : (Z.of_nat (nc - 1) * Z.of_nat ns + Z.of_nat (ns - 1)
                   = Z.of_nat nc * Z.of_nat ns - 1)%Z) by nia.
  unfold SHACDecoder.readAudioDataOptimized.
  destruct (bd =? 16)%Z.
  - destruct (negb (off mod 2 =? 0)%Z).
    + unfold SHACDecoder.readAudio16_bytewise.
      apply channelLoops_fails; try assumption.
      * intros ch s. cbv zeta.
        apply rbind_rangeOrOk; [auto with reads | intros low].
        apply rbind_rangeOrOk; [auto with reads | intros high]. exact I.
      * cbv zeta. rewrite Hlast.
        assert (getInt8 buf (off + (Z.of_nat nc * Z.of_nat ns - 1) * 2 + 1)
                = Err RangeError) as ->.
        { unfold getInt8. rewrite in_range_false by lia. reflexivity. }
        pose proof (getUint8_rangeOrOk buf
                      (off + (Z.of_nat nc * Z.of_nat ns - 1) * 2)) as Hlow.
        destruct (getUint8 _ _) as [low | e]; simpl in *; congruence.
    + unfold SHACDecoder.readAudio16_view, Int16Array_view. cbv zeta.
      rewrite in_range_false by lia. rewrite andb_false_r. reflexivity.
  - destruct (negb (off mod 4 =? 0)%Z).
    + unfold SHACDecoder.readAudio32_bytewise.
      apply channelLoops_fails; try assumption.
      * intros ch s. cbv zeta.
        apply rbind_rangeOrOk; [auto with reads | intros bits]. exact I.
      * cbv zeta. rewrite Hlast.
        unfold getUint32. rewrite in_range_false by lia. reflexivity.
    + unfold SHACDecoder.readAudio32_view. cbv zeta.
      rewrite in_range_false by lia. rewrite andb_false_r. reflexivity.
Qed.

Lemma readHeader_nonneg buf h :
  SHACDecoder.readHeader buf = Ok h ->
  (0 <= SHACDecoder.n_channels h /\ 0 <= SHACDecoder.n_samples h
   /\ 0 <= SHACDecoder.n_layers h)%Z.
Proof.
  unfold SHACDecoder.readHeader. intros H.
  repeat bind_ok H. injection H as <-. simpl.
  repeat split;
    eauto using getUint16_nonneg, getUint32_nonneg.
Qed.

Lemma indexStep_inv buf h off index off' index' :
  SHACDecoder.indexStep TextDecoder_decode buf h (off, index)
  = Ok (off', index') ->
  Forall (entryOk buf h) index -> Forall (entryOk buf h) index'.
Proof.
  unfold SHACDecoder.indexStep. intros H Hall.
  repeat bind_ok H. injection H as <- <-.
  apply Forall_app. split; [exact Hall |].
  constructor; [| constructor].
  rename a into idLength, a0 into metadataLength, a1 into idBytes.
  exists idLength. simpl.
  replace (off + 2 + 4 + idLength + metadataLength - metadataLength
           - idLength - 6)%Z with off by lia.
  unfold Uint8Array_view in E1.
  destruct (in_range buf (off + 2 + 4) idLength) eqn:Hr; [| discriminate].
  apply in_range_true in Hr.
  repeat split; eauto using getUint16_nonneg, getUint32_nonneg; lia.
Qed.

Lemma indexStep_rangeOrOk buf h st :
  rangeOrOk (SHACDecoder.indexStep TextDecoder_decode buf h st).
Proof.
  unfold SHACDecoder.indexStep. destruct st as [off index].
  repeat (apply rbind_rangeOrOk; [auto with reads | intros ?]). exact I.
Qed.

Lemma indexLoop_inv n buf h st st' :
  SHACDecoder.indexLoop TextDecoder_decode n buf h st = Ok st' ->
  Forall (entryOk buf h) (snd st) -> Forall (entryOk buf h) (snd st').
Proof.
  revert st. induction n as [|n IH]; intros st H Hall; simpl in H.
  - injection H as <-. exact Hall.
  - bind_ok H. apply (IH a); [exact H |].
    destruct st as [off index], a as [off1 index1].
    eapply indexStep_inv; eauto.
Qed.

Lemma indexLoop_rangeOrOk n buf h st :
  rangeOrOk (SHACDecoder.indexLoop TextDecoder_decode n buf h st).
Proof.
  revert st. induction n as [|n IH]; intros st; simpl; [exact I |].
  apply rbind_rangeOrOk; [apply indexStep_rangeOrOk | apply IH].
Qed.

Lemma buildLayerIndex_rangeOrOk buf h :
  rangeOrOk (SHACDecoder.buildLayerIndex TextDecoder_decode buf h).
Proof.
  unfold SHACDecoder.buildLayerIndex.
  apply rbind_rangeOrOk; [apply indexLoop_rangeOrOk | intros; exact I].
Qed.

Lemma buildLayerIndex_inv buf h index :
  SHACDecoder.buildLayerIndex TextDecoder_decode buf h = Ok index ->
  Forall (entryOk buf h) index.
Proof.
  unfold SHACDecoder.buildLayerIndex. intros H. bind_ok H.
  injection H as <-.
  apply (indexLoop_inv _ _ _ _ _ E). constructor.
Qed.

Lemma readLayerOptimized_rangeOrOk buf h e :
  rangeOrOk (SHACDecoder.readLayerOptimized TextDecoder_decode JSON_parse
               float32_of_bits buf h e).
Proof.
  unfold SHACDecoder.readLayerOptimized.
  repeat (apply rbind_rangeOrOk;
          [auto using readAudioDataOptimized_rangeOrOk with reads | intros ?]).
  exact I.
Qed.

(** An entry whose audio range runs past the end of the buffer makes the
    layer reader raise [RangeError]. *)
Lemma readLayerOptimized_truncated buf h e :
  (0 <= SHACDecoder.n_channels h)%Z -> (0 <= SHACDecoder.n_samples h)%Z ->
  entryOk buf h e ->
  (byteLength buf < SHACDecoder.dataOffset e + SHACDecoder.dataSize e)%Z ->
  SHACDecoder.readLayerOptimized TextDecoder_decode JSON_parse float32_of_bits
    buf h e = Err RangeError.
Proof.
  intros Hnc Hns (idLength & Hid & Hid0 & Hidend & Hmeta & Hdata & Hsize) Hlen.
  unfold SHACDecoder.readLayerOptimized. rewrite Hid. cbn [rbind].
  pose proof (Uint8Array_view_rangeOrOk buf
                (SHACDecoder.headerOffset e + 2 + 4) idLength) as H1.
  destruct (Uint8Array_view buf (SHACDecoder.headerOffset e + 2 + 4) idLength)
    as [idBytes | err]; [| simpl in *; congruence].
  cbn [rbind].
  unfold Uint8Array_view at 1.
  destruct (in_range buf (SHACDecoder.headerOffset e + 2 + 4 + idLength)
              (SHACDecoder.metadataLength e)) eqn:Hr; [| reflexivity].
  apply in_range_true in Hr. cbn [rbind].
  rewrite readAudioDataOptimized_truncated; [reflexivity | lia |].
  rewrite !Z2Nat.id by assumption.
  rewrite Hsize in Hlen. unfold SHACDecoder.audioDataSize,
    SHACDecoder.bytesPerSample in Hlen. exact Hlen.
Qed.

(** C2, as the code has it. The index pass reads only inside the buffer and
    its only failure is the [RangeError] of a read of a layer record header
    or id that would pass the end of the buffer. It does not compare the
    audio range of a layer with the length of the buffer: an index holding
    an entry whose [dataOffset + dataSize] exceeds that length is returned,
    and it is the layer reader that then fails with [RangeError], so that
    [decode] fails. *)
Theorem truncated_buffer_fails_in_layer_reader
    (buf : ArrayBuffer) (h : SHACDecoder.Header) :
  SHACDecoder.readHeader buf = Ok h ->
  (forall e,
     SHACDecoder.buildLayerIndex TextDecoder_decode buf h = Err e ->
     e = RangeError)
  /\ (forall index entry,
        SHACDecoder.buildLayerIndex TextDecoder_decode buf h = Ok index ->
        In entry index ->
        (byteLength buf
         < SHACDecoder.dataOffset entry + SHACDecoder.dataSize entry)%Z ->
        SHACDecoder.decode TextDecoder_decode JSON_parse float32_of_bits buf
        = Err RangeError).
Proof.
  intros Hh. split.
  - intros e He. exact (rangeOrOk_Err _ _ (buildLayerIndex_rangeOrOk buf h) He).
  - intros index entry Hindex Hin Hlen.
    destruct (readHeader_nonneg buf h Hh) as (Hnc & Hns & _).
    pose proof (buildLayerIndex_inv buf h index Hindex) as Hall.
    unfold SHACDecoder.decode. rewrite Hh. cbn [rbind].
    rewrite Hindex. cbn [rbind].
    unfold SHACDecoder.readLayersOptimized.
    rewrite (mapR_fails _ index entry); [reflexivity | | exact Hin |].
    + intros c _. apply readLayerOptimized_rangeOrOk.
    + apply readLayerOptimized_truncated; try assumption.
      rewrite Forall_forall in Hall. apply Hall.
      apply list_elem_of_In. exact Hin.
Qed.

End Truncated.

(** C2, as stated, fails: on a 32-byte file whose only layer has no audio
    bytes, the index pass returns an entry whose data range ends at byte 34. *)
Lemma index_pass_accepts_truncated_buffer :
  SHACDecoder.readHeader truncatedFile = Ok truncatedHeader
  /\ SHACDecoder.buildLayerIndex exampleDecode truncatedFile truncatedHeader
     = Ok [truncatedEntry]
  /\ (byteLength truncatedFile
      < SHACDecoder.dataOffset truncatedEntry
        + SHACDecoder.dataSize truncatedEntry)%Z.
Proof.
  split; [reflexivity | split; reflexivity].
Qed.

Lemma truncated_buffer_fails_in_layer_reader_witness :
  SHACDecoder.readHeader truncatedFile = Ok truncatedHeader
  /\ SHACDecoder.decode exampleDecode exampleParse exampleFloat truncatedFile
     = Err RangeError.
Proof.
  split; [reflexivity |].
  apply (proj2 (truncated_buffer_fails_in_layer_reader exampleDecode
                  exampleParse exampleFloat truncatedFile truncatedHeader
                  eq_refl) [truncatedEntry] truncatedEntry).
  - reflexivity.
  - left. reflexivity.
  - reflexivity.
Defined.

(** ** Rotation matrices at zero angles *)

(** Evaluates the list structure of a term and leaves the real numbers
    as they are. *)
Ltac eval_lists :=
  cbv -[Rplus Rmult Rminus Ropp Rdiv Rinv Rlt Rle sqrt PI cos sin atan asin
        exp INR IZR pow Rmax Rabs Rpower].

Lemma rotation_order0_identity (yaw pitch roll : R) :
  SHACDecoder.computeRotationMatrix 0 yaw pitch roll = Spec.identityMatrix 1.
Proof. reflexivity. Qed.

(** C3 at order 1: for yaw = pitch = roll = 0 the entry of row 2, column 3
    (the term [Z -> X], set to [cos yaw]) is 1, where the identity matrix
    has 0; the other entries are those of the identity. *)
Theorem rotation_order1_at_zero :
  SHACDecoder.computeRotationMatrix 1 0 0 0
  = <[(2 * 4 + 3)%nat := 1%R]> (Spec.identityMatrix 4)
  /\ SHACDecoder.computeRotationMatrix 1 0 0 0 <> Spec.identityMatrix 4.
Proof.
  assert (H : SHACDecoder.computeRotationMatrix 1 0 0 0
              = <[(2 * 4 + 3)%nat := 1%R]> (Spec.identityMatrix 4)).
  { eval_lists. rewrite cos_0, sin_0.
    repeat (f_equal; try lra). }
  split; [exact H |].
  rewrite H. intros Heq.
  apply (f_equal (fun l => nth 11 l 0%R)) in Heq.
  revert Heq. eval_lists. lra.
Qed.

(** At orders 2 and 3 the first-order block is stored with the row length
    of an order-1 matrix, so it lands in other rows: row 0 gets a 1 in
    column 5. *)
Lemma rotation_order2_at_zero :
  nth (0 * 9 + 5) (SHACDecoder.computeRotationMatrix 2 0 0 0) 0%R = 1%R.
Proof.
  eval_lists. rewrite cos_0. lra.
Qed.

Lemma rotation_order3_at_zero :
  nth (0 * 16 + 5) (SHACDecoder.computeRotationMatrix 3 0 0 0) 0%R = 1%R.
Proof.
  eval_lists. rewrite cos_0. lra.
Qed.

(** ** Rendering a layer: the checks and the copy branches *)

Section Render.

Import AudioBufferPool SpatialAudioEngine.

Lemma fold_left_invariant {A B : Type} (P : A -> Prop) (f : A -> B -> A)
    (l : list B) (a : A) :
  P a -> (forall a b, P a -> P (f a b)) -> P (fold_left f l a).
Proof.
  intros Ha Hf. revert a Ha.
  induction l as [|b l IH]; intros a Ha; simpl; [exact Ha |].
  apply IH. apply Hf. exact Ha.
Qed.

Lemma length_zeros (n : nat) : length (zeros n) = n.
Proof. apply length_replicate. Qed.

Lemma typedSet_same_length (source : list f32) (n : nat) :
  length source = n -> typedSet (zeros n) source = Ok source.
Proof.
  intros H. unfold typedSet. rewrite length_zeros.
  assert ((n <? length source)%nat = false) as -> by (apply Nat.ltb_ge; lia).
  rewrite drop_ge by (rewrite length_zeros; lia).
  rewrite app_nil_r. reflexivity.
Qed.

Lemma applySpatialHRTF_lengths p outputs speakers numSamples l r p' :
  applySpatialHRTF p outputs speakers numSamples = (l, r, p') ->
  length l = numSamples /\ length r = numSamples.
Proof.
  unfold applySpatialHRTF. cbv zeta.
  match goal with
  | |- context [fold_left ?f ?xs ?a] =>
      assert (Hinv : (fun st : list f32 * list f32 =>
                        length (fst st) = numSamples
                        /\ length (snd st) = numSamples)
                       (fold_left f xs a))
  end.
  { apply fold_left_invariant.
    - simpl. rewrite !length_zeros. split; reflexivity.
    - intros [l0 r0] spkIdx Hst.
      apply fold_left_invariant; [exact Hst |].
      intros [l1 r1] i [Hl Hr]. simpl in *.
      rewrite !length_insert. split; assumption. }
  destruct (fold_left _ _ _) as [l0 r0]. intros [= <- <- <-]. exact Hinv.
Qed.






End Render.


(** ** The buffer pool *)

Section PoolInvariant.

Import AudioBufferPool.

Lemma findFree_Some p size candidates r :
  findFree p size candidates = Some r ->
  r ∈ candidates /\ bufferLength p r = Some size /\ r ∉ inUse p.
Proof.
  induction candidates as [|c rest IH]; simpl; [discriminate |].
  destruct (bool_decide (bufferLength p c = Some size)) eqn:Hlen;
    destruct (bool_decide (c ∉ inUse p)) eqn:Hfree; simpl.
  - intros [= <-].
    apply bool_decide_eq_true in Hlen. apply bool_decide_eq_true in Hfree.
    split; [left | split; assumption].
  - intros H. destruct (IH H) as (? & ? & ?). split; [right |]; auto.
  - intros H. destruct (IH H) as (? & ? & ?). split; [right |]; auto.
  - intros H. destruct (IH H) as (? & ? & ?). split; [right |]; auto.
Qed.

Lemma findFree_None p size candidates :
  findFree p size candidates = None ->
  forall r, r ∈ candidates ->
    ~ (bufferLength p r = Some size /\ r ∉ inUse p).
Proof.
  induction candidates as [|c rest IH]; simpl; intros H r Hr.
  - inversion Hr.
  - destruct (bool_decide (bufferLength p c = Some size)) eqn:Hlen;
      destruct (bool_decide (c ∉ inUse p)) eqn:Hfree; simpl in H;
      try discriminate;
      apply elem_of_cons in Hr as [-> | Hr]; try (apply IH; assumption);
      intros [H1 H2];
      try (apply bool_decide_eq_false in Hlen; contradiction);
      try (apply bool_decide_eq_false in Hfree; contradiction).
Qed.

(** The candidate found is the first one that fits. *)
Lemma findFree_exists p size candidates r :
  r ∈ candidates -> bufferLength p r = Some size -> r ∉ inUse p ->
  exists r', findFree p size candidates = Some r'.
Proof.
  intros Hin Hlen Hfree.
  destruct (findFree p size candidates) as [r' |] eqn:H; [eauto |].
  exfalso. apply (findFree_None _ _ _ H r Hin). split; assumption.
Qed.

Lemma poolInv_empty : poolInv empty.
Proof.
  split; simpl; intros r H; solve [inversion H | set_solver].
Qed.

Lemma poolInv_acquire p size : poolInv p -> poolInv (snd (acquire p size)).
Proof.
  intros [Hvalid HinUse Hzero]. unfold acquire.
  destruct (findFree p size (pool p)) as [b |] eqn:Hfind; simpl.
  - apply findFree_Some in Hfind as (Hb & _ & _).
    split; simpl.
    + exact Hvalid.
    + intros r Hr. apply elem_of_union in Hr as [Hr | Hr]; [| auto].
      apply elem_of_singleton in Hr. subst r. exact Hb.
    + intros r Hr Hfree. apply Hzero; [exact Hr |].
      intros Hin. apply Hfree. apply elem_of_union. right. exact Hin.
  - split; simpl.
    + intros r Hr. rewrite length_app. simpl.
      apply elem_of_app in Hr as [Hr | Hr].
      * specialize (Hvalid r Hr). lia.
      * apply list_elem_of_singleton in Hr. subst r. lia.
    + intros r Hr. apply elem_of_app.
      apply elem_of_union in Hr as [Hr | Hr].
      * apply elem_of_singleton in Hr. subst r. right. constructor.
      * left. auto.
    + intros r Hr Hfree. apply elem_of_app in Hr as [Hr | Hr].
      * destruct (Hzero r Hr) as [n Hn].
        { intros Hin. apply Hfree. apply elem_of_union. right. exact Hin. }
        exists n. rewrite lookup_app_l by (apply Hvalid; exact Hr). exact Hn.
      * apply list_elem_of_singleton in Hr. subst r.
        exfalso. apply Hfree. apply elem_of_union. left.
        apply elem_of_singleton. reflexivity.
Qed.

Lemma poolInv_release p buffer : poolInv p -> poolInv (release p buffer).
Proof.
  intros [Hvalid HinUse Hzero]. unfold release.
  destruct (bool_decide (buffer ∈ inUse p)) eqn:Hb; [| split; assumption].
  apply bool_decide_eq_true in Hb.
  split; simpl; unfold fill0.
  - intros r Hr. rewrite length_alter. auto.
  - intros r Hr. apply elem_of_difference in Hr as [Hr _]. auto.
  - intros r Hr Hfree. destruct (decide (r = buffer)) as [-> | Hne].
    + destruct (store p !! buffer) as [contents |] eqn:Hc.
      * exists (length contents).
        rewrite list_lookup_alter_eq. unfold Ref in *. rewrite Hc.
        reflexivity.
      * apply lookup_ge_None in Hc. specialize (Hvalid buffer Hr). lia.
    + rewrite list_lookup_alter_ne by auto.
      apply Hzero; [exact Hr |].
      intros Hin. apply Hfree. apply elem_of_difference. split; [exact Hin |].
      intros Hs. apply elem_of_singleton in Hs. contradiction.
Qed.

Lemma poolInv_step p c :
  allowed p c = true -> poolInv p -> poolInv (step p c).
Proof.
  intros Hallowed Hinv. destruct c as [size | buffer | buffer i v | size];
    simpl.
  - apply poolInv_acquire. exact Hinv.
  - apply poolInv_release. exact Hinv.
  - destruct Hinv as [Hvalid HinUse Hzero]. simpl in Hallowed.
    split; simpl.
    + intros r Hr. rewrite length_alter. auto.
    + exact HinUse.
    + intros r Hr Hfree.
      assert (r <> buffer) as Hne.
      { intros ->. apply orb_true_iff in Hallowed as [H | H];
          apply bool_decide_eq_true in H; contradiction. }
      rewrite list_lookup_alter_ne by auto. auto.
  - destruct Hinv as [Hvalid HinUse Hzero].
    split; simpl.
    + intros r Hr. rewrite length_app. simpl. specialize (Hvalid r Hr). lia.
    + exact HinUse.
    + intros r Hr Hfree. destruct (Hzero r Hr Hfree) as [n Hn].
      exists n. rewrite lookup_app_l by auto. exact Hn.
Qed.

Lemma poolInv_run calls : forall p p',
  poolInv p -> run p calls = Some p' -> poolInv p'.
Proof.
  induction calls as [|c rest IH]; intros p p' Hinv Hrun; simpl in Hrun.
  - injection Hrun as <-. exact Hinv.
  - destruct (allowed p c) eqn:Ha; [| discriminate].
    apply (IH (step p c)); [apply poolInv_step; assumption | exact Hrun].
Qed.

Lemma poolInv_reachable p : reachable p -> poolInv p.
Proof.
  intros [calls Hrun]. exact (poolInv_run calls empty p poolInv_empty Hrun).
Qed.

End PoolInvariant.

Section PoolContract.

Import AudioBufferPool.

Lemma release_zero_fills (p : Pool) (b : Ref) :
  poolInv p -> b ∈ inUse p ->
  (b ∉ inUse (release p b))
  /\ (exists contents,
        store p !! b = Some contents
        /\ store (release p b) !! b = Some (zeros (length contents))).
Proof.
  intros [Hvalid HinUse Hzero] Hb.
  unfold release. rewrite bool_decide_eq_true_2 by exact Hb. simpl. split.
  - apply not_elem_of_difference. right. apply elem_of_singleton. reflexivity.
  - specialize (Hvalid b (HinUse b Hb)).
    destruct (store p !! b) as [contents |] eqn:Hc.
    + exists contents. split; [reflexivity |].
      unfold fill0. rewrite list_lookup_alter_eq. unfold Ref in *.
      rewrite Hc. reflexivity.
    + apply lookup_ge_None in Hc. lia.
Qed.


Lemma examplePool_reachable : reachable examplePool.
Proof. exists exampleCalls. reflexivity. Qed.

End PoolContract.


(** ** Metadata *)

(** The replacements turn a Python literal into JSON text. *)
Lemma pythonToJson_example :
  SHACDecoder.pythonToJson "{'pos': (1, 2), 'on': True, 'x': None}"
  = ("{" ++ dquote ++ "pos" ++ dquote ++ ": [1, 2], "
         ++ dquote ++ "on" ++ dquote ++ ": true, "
         ++ dquote ++ "x" ++ dquote ++ ": null}")%string.
Proof. reflexivity. Qed.

Section Metadata.

Variable TextDecoder_decode : list byte -> string.
Variable float32_of_bits : Z -> f32.

Lemma mapR_succeeds {A B C : Type} (f : A -> result B) (g : A -> result C)
    (l : list A) :
  (forall a b, f a = Ok b -> exists c, g a = Ok c) ->
  forall bs, mapR f l = Ok bs -> exists cs, mapR g l = Ok cs.
Proof.
  intros Hfg. induction l as [|a l IH]; intros bs H; simpl in *.
  - exists []. reflexivity.
  - bind_ok H. bind_ok H.
    destruct (Hfg a a0 E) as [c Hc]. destruct (IH a1 eq_refl) as [cs Hcs].
    exists (c :: cs). rewrite Hc. cbn [rbind]. rewrite Hcs. reflexivity.
Qed.

(** Whether a layer is read does not depend on what the parser does. *)
Lemma readLayerOptimized_succeeds (parse parse' : string -> option Json)
    buf h layerInfo r :
  SHACDecoder.readLayerOptimized TextDecoder_decode parse' float32_of_bits
    buf h layerInfo = Ok r ->
  exists r',
    SHACDecoder.readLayerOptimized TextDecoder_decode parse float32_of_bits
      buf h layerInfo = Ok r'.
Proof.
  unfold SHACDecoder.readLayerOptimized. cbv zeta. intros H.
  repeat (bind_ok H; cbn [rbind]). eauto.
Qed.


End Metadata.


(** ** The analytic HRTF *)

Section HRTFBounds.

Import SpatialAudioEngine.
Local Open Scope R_scope.

Lemma product_bound (a b A B : R) :
  0 <= a <= A -> 0 <= b <= B -> 0 <= a * b <= A * B.
Proof.
  intros [Ha0 HaA] [Hb0 HbB]. split.
  - apply Rmult_le_pos; assumption.
  - apply Rmult_le_compat; assumption.
Qed.

Lemma base_gain_bound (x : R) : 0 <= 0.5 + 0.5 * cos x <= 1.
Proof. pose proof (COS_bound x). lra. Qed.

Lemma headShadowLeft_bound (azimuth : R) :
  0 <= (if Rlt_dec 0 azimuth then 1 - 0.3 * sin azimuth else 1) <= 1.3.
Proof.
  pose proof (SIN_bound azimuth). destruct (Rlt_dec 0 azimuth); lra.
Qed.

Lemma headShadowRight_bound (azimuth : R) :
  0 <= (if Rlt_dec azimuth 0 then 1 + 0.3 * sin azimuth else 1) <= 1.3.
Proof.
  pose proof (SIN_bound azimuth). destruct (Rlt_dec azimuth 0); lra.
Qed.

Lemma torso_bound (elevation : R) :
  0.9 <= 1 + 0.1 * cos elevation <= 1.1.
Proof. pose proof (COS_bound elevation). lra. Qed.

Lemma airAbsorption_bound : 0.9999 <= exp (- 0.0001 * 1) <= 1.
Proof.
  split.
  - pose proof (exp_ineq1_le (- 0.0001 * 1)). lra.
  - apply Rle_trans with (exp 0).
    + left. apply exp_increasing. lra.
    + rewrite exp_0. lra.
Qed.

Lemma elevationNorm_bound (elevation : R) :
  - (PI / 2) <= elevation <= PI / 2 -> -1 <= elevation / (PI / 2) <= 1.
Proof.
  intros [Hlo Hhi]. pose proof PI_RGT_0 as Hpi.
  assert (Hpos : 0 < PI / 2) by lra.
  split.
  - apply (Rmult_le_reg_r (PI / 2)); [exact Hpos |].
    unfold Rdiv at 2. rewrite Rmult_assoc, Rinv_l by lra. lra.
  - apply (Rmult_le_reg_r (PI / 2)); [exact Hpos |].
    unfold Rdiv at 1. rewrite Rmult_assoc, Rinv_l by lra. lra.
Qed.

Lemma pinna_bound (elevation : R) :
  - (PI / 2) <= elevation <= PI / 2 ->
  0 <= getPinnaResponse elevation <= 1.2.
Proof.
  intros Hel. pose proof (elevationNorm_bound elevation Hel) as Hn.
  unfold getPinnaResponse. cbv zeta.
  destruct (Rlt_dec 0 elevation).
  - lra.
  - pose proof (Rabs_pos (elevation / (PI / 2))).
    assert (Rabs (elevation / (PI / 2)) <= 1) by (apply Rabs_le; lra).
    lra.
Qed.


(** The left gain towards azimuth -PI/2 grows with the elevation. *)
Lemma left_gain_grows (K : R) :
  0 < K -> 0.17 * K <= left (getHRTF (- (PI / 2)) (K * (PI / 2))).
Proof.
  intros HK. pose proof PI_RGT_0 as Hpi.
  unfold getHRTF. cbv zeta. simpl left.
  apply Rle_trans with (2 := Rmax_r _ _).
  replace (- (PI / 2) + PI / 2) with 0 by lra. rewrite cos_0.
  destruct (Rlt_dec 0 (- (PI / 2))) as [Hneg | _]; [lra |].
  unfold getPinnaResponse. cbv zeta.
  destruct (Rlt_dec 0 (K * (PI / 2))) as [_ | Hn];
    [| exfalso; apply Hn; apply Rmult_lt_0_compat; lra].
  replace (K * (PI / 2) / (PI / 2)) with K by (field; lra).
  pose proof (torso_bound (K * (PI / 2))) as Htorso.
  pose proof airAbsorption_bound as Hair.
  set (t := 1 + 0.1 * cos (K * (PI / 2))) in *.
  set (a := exp (- 0.0001 * 1)) in *.
  assert (H1 : 0.9 * (1 + 0.2 * K) <= (1 + 0.2 * K) * t) by nra.
  assert (H2 : 0.9999 * ((1 + 0.2 * K) * t) <= (1 + 0.2 * K) * t * a) by nra.
  nra.
Qed.



End HRTFBounds.

(** ** Loops that fill an array *)

Section Fill.

Context {A B : Type}.

Lemma writeFrom_cons (c : list A) (i : nat) (x : A) (vals : list A) :
  (i < length c)%nat ->
  writeFrom (<[i := x]> c) (S i) vals = writeFrom c i (x :: vals).
Proof.
  intros Hi. unfold writeFrom.
  rewrite (take_S_r _ _ x) by (apply list_lookup_insert_eq; exact Hi).
  rewrite take_insert_ge by lia.
  rewrite drop_insert_lt by lia.
  rewrite <- app_assoc. simpl.
  replace (i + S (length vals))%nat with (S (i + length vals)) by lia.
  reflexivity.
Qed.

Lemma writeFrom_nil (c : list A) (i : nat) : writeFrom c i [] = c.
Proof.
  unfold writeFrom. simpl. rewrite Nat.add_0_r. apply take_drop.
Qed.

Lemma writeFrom_all (c vals : list A) :
  length vals = length c -> writeFrom c 0 vals = vals.
Proof.
  intros H. unfold writeFrom. rewrite take_0. simpl.
  rewrite drop_ge by lia. apply app_nil_r.
Qed.

Lemma length_writeFrom (c : list A) (i : nat) (vals : list A) :
  (i + length vals <= length c)%nat -> length (writeFrom c i vals) = length c.
Proof.
  intros H. unfold writeFrom.
  rewrite !length_app, length_take_le, length_drop by lia. lia.
Qed.

Lemma writeFrom_writeFrom (c : list A) (i : nat) (v1 v2 : list A) :
  (i + length v1 <= length c)%nat ->
  writeFrom (writeFrom c i v1) (i + length v1) v2 = writeFrom c i (v1 ++ v2).
Proof.
  revert c i. induction v1 as [|x v1 IH]; intros c i H; simpl in *.
  - rewrite writeFrom_nil, Nat.add_0_r. reflexivity.
  - rewrite <- !writeFrom_cons by lia.
    replace (i + S (length v1))%nat with (S i + length v1)%nat by lia.
    apply IH. rewrite length_insert. lia.
Qed.

(** A loop whose iterations store [g b] at the running position. *)
Lemma fold_left_write (g : B -> A) (bs : list B) (c : list A) (i : nat) :
  (i + length bs <= length c)%nat ->
  fold_left (fun (st : list A * nat) (b : B) =>
               let '(c, i) := st in (<[i := g b]> c, S i)) bs (c, i)
  = (writeFrom c i (map g bs), (i + length bs)%nat).
Proof.
  revert c i. induction bs as [|b bs IH]; intros c i H; simpl in *.
  - rewrite writeFrom_nil, Nat.add_0_r. reflexivity.
  - rewrite IH by (rewrite length_insert; lia).
    rewrite writeFrom_cons by lia. f_equal. lia.
Qed.

Lemma foldR_write (step : list A * nat -> B -> result (list A * nat))
    (g : B -> A) (bs : list B) :
  (forall c i b, In b bs -> step (c, i) b = Ok (<[i := g b]> c, S i)) ->
  forall (c : list A) (i : nat),
    (i + length bs <= length c)%nat ->
    SHACDecoder.foldR step bs (c, i)
    = Ok (writeFrom c i (map g bs), (i + length bs)%nat).
Proof.
  induction bs as [|b bs IH]; intros Hstep c i H; simpl in *.
  - rewrite writeFrom_nil, Nat.add_0_r. reflexivity.
  - rewrite Hstep by (left; reflexivity). cbn [rbind].
    rewrite IH; [| intros; apply Hstep; right; assumption
                 | rewrite length_insert; lia].
    rewrite writeFrom_cons by lia. do 2 f_equal. lia.
Qed.

End Fill.

Section Nested.

Context {A B : Type}.
Variable ms : nat -> list B.

Lemma nested_fold_write (g : nat -> B -> A) (ls : list nat) :
  forall (c : list A) (i : nat),
    (i + length (flat_map (fun l => map (g l) (ms l)) ls) <= length c)%nat ->
    fold_left (fun (st : list A * nat) (l : nat) =>
                 fold_left (fun (st : list A * nat) (b : B) =>
                              let '(c, i) := st in (<[i := g l b]> c, S i))
                           (ms l) st)
              ls (c, i)
    = (writeFrom c i (flat_map (fun l => map (g l) (ms l)) ls),
       (i + length (flat_map (fun l => map (g l) (ms l)) ls))%nat).
Proof.
  induction ls as [|l ls IH]; intros c i H; simpl in *.
  - rewrite writeFrom_nil, Nat.add_0_r. reflexivity.
  - rewrite length_app, length_map in H.
    rewrite (fold_left_write (g l)) by lia.
    rewrite IH by (rewrite length_writeFrom; rewrite ?length_map; lia).
    rewrite <- (length_map (g l) (ms l)) at 1.
    rewrite writeFrom_writeFrom by (rewrite length_map; lia).
    rewrite length_app, length_map. f_equal. lia.
Qed.

Lemma nested_foldR_write
    (step : nat -> list A * nat -> B -> result (list A * nat))
    (g : nat -> B -> A) (ls : list nat) :
  (forall l c i b, In l ls -> In b (ms l) ->
                   step l (c, i) b = Ok (<[i := g l b]> c, S i)) ->
  forall (c : list A) (i : nat),
    (i + length (flat_map (fun l => map (g l) (ms l)) ls) <= length c)%nat ->
    SHACDecoder.foldR (fun st l => SHACDecoder.foldR (step l) (ms l) st)
                      ls (c, i)
    = Ok (writeFrom c i (flat_map (fun l => map (g l) (ms l)) ls),
          (i + length (flat_map (fun l => map (g l) (ms l)) ls))%nat).
Proof.
  induction ls as [|l ls IH]; intros Hstep c i H; simpl in *.
  - rewrite writeFrom_nil, Nat.add_0_r. reflexivity.
  - rewrite length_app, length_map in H.
    rewrite (foldR_write (step l) (g l));
      [| intros; apply Hstep; [left; reflexivity | assumption] | lia].
    cbn [rbind].
    rewrite IH;
      [| intros; apply Hstep; [right |]; assumption
       | rewrite length_writeFrom; rewrite ?length_map; lia].
    rewrite <- (length_map (g l) (ms l)) at 1.
    rewrite writeFrom_writeFrom by (rewrite length_map; lia).
    rewrite length_app, length_map. do 2 f_equal. lia.
Qed.

End Nested.

(** ** The order of the coefficients *)

Lemma length_mRange (l : nat) :
  length (SHACDecoder.mRange l) = (2 * l + 1)%nat.
Proof. unfold SHACDecoder.mRange. rewrite length_map, length_seq. reflexivity. Qed.

Lemma In_mRange (l : nat) (m : Z) :
  In m (SHACDecoder.mRange l) <-> (- Z.of_nat l <= m <= Z.of_nat l)%Z.
Proof.
  unfold SHACDecoder.mRange. rewrite in_map_iff. split.
  - intros (k & <- & Hk). apply in_seq in Hk. lia.
  - intros H. exists (Z.to_nat (m + Z.of_nat l)). split; [lia |].
    apply in_seq. lia.
Qed.

Lemma nth_mRange (l : nat) (m : Z) :
  (- Z.of_nat l <= m <= Z.of_nat l)%Z ->
  nth (Z.to_nat (Z.of_nat l + m)) (SHACDecoder.mRange l) 0%Z = m.
Proof.
  intros H. unfold SHACDecoder.mRange.
  rewrite (nth_indep _ 0%Z ((fun k : nat => Z.of_nat k - Z.of_nat l)%Z O))
    by (rewrite length_map, length_seq; lia).
  rewrite (map_nth (fun k : nat => (Z.of_nat k - Z.of_nat l)%Z)).
  rewrite seq_nth by lia. lia.
Qed.

Section Order.

Context {A : Type}.
Variable g : nat -> Z -> A.

Lemma upTo_S (k : nat) :
  upTo g (S k) = upTo g k ++ map (g k) (SHACDecoder.mRange k).
Proof.
  unfold upTo. rewrite seq_S, flat_map_app. simpl.
  rewrite app_nil_r. reflexivity.
Qed.

Lemma length_upTo (k : nat) : length (upTo g k) = (k * k)%nat.
Proof.
  induction k as [|k IH]; [reflexivity |].
  rewrite upTo_S, length_app, length_map, length_mRange, IH. lia.
Qed.

Lemma nth_upTo (k l : nat) (m : Z) (d : A) :
  (l < k)%nat -> (- Z.of_nat l <= m <= Z.of_nat l)%Z ->
  nth (Spec.coefficientIndex l m) (upTo g k) d = g l m.
Proof.
  intros Hl Hm. unfold Spec.coefficientIndex.
  induction k as [|k IH]; [lia |].
  rewrite upTo_S.
  destruct (Nat.eq_dec l k) as [-> | Hne].
  - rewrite app_nth2 by (rewrite length_upTo; nia).
    rewrite length_upTo.
    replace (Z.to_nat (Z.of_nat (k * k + k) + m) - k * k)%nat
      with (Z.to_nat (Z.of_nat k + m)) by nia.
    rewrite (nth_indep _ d (g k 0%Z))
      by (rewrite length_map, length_mRange; lia).
    rewrite (map_nth (g k)), nth_mRange by exact Hm. reflexivity.
  - rewrite app_nth1 by (rewrite length_upTo; nia).
    apply IH. lia.
Qed.

End Order.

(** ** The normalization table *)

Section Normalization.

Import SHACDecoder.
Local Open Scope R_scope.

Lemma length_factorialTable (n : nat) : length (factorialTable n) = S n.
Proof.
  induction n as [|n IH]; [reflexivity |].
  simpl. rewrite length_app, IH. simpl. lia.
Qed.

Lemma nth_factorialTable (n i : nat) :
  (i <= n)%nat -> nth i (factorialTable n) 0 = INR (fact i).
Proof.
  revert i. induction n as [|n IH]; intros i Hi.
  - replace i with O by lia. simpl. reflexivity.
  - cbn [factorialTable]. cbv zeta.
    destruct (Nat.eq_dec i (S n)) as [-> | Hne].
    + rewrite app_nth2 by (rewrite length_factorialTable; lia).
      rewrite length_factorialTable, Nat.sub_diag. cbn [nth].
      rewrite IH by lia.
      change (fact (S n)) with (S n * fact n)%nat.
      rewrite mult_INR. ring.
    + rewrite app_nth1 by (rewrite length_factorialTable; lia).
      apply IH. lia.
Qed.

(** A loop that inserts [f k] at every key [k] of a list. *)
Lemma fold_insert_lookup {K V : Type} `{Countable K} (f : K -> V)
    (ks : list K) (acc : gmap K V) (k : K) :
  In k ks ->
  fold_left (fun (acc : gmap K V) (k : K) => <[k := f k]> acc) ks acc !! k
  = Some (f k).
Proof.
  revert acc. induction ks as [|a ks IH]; intros acc Hin; [destruct Hin |].
  simpl. destruct (decide (k ∈ ks)) as [Hks | Hks];
    rewrite list_elem_of_In in Hks.
  - apply IH. exact Hks.
  - destruct Hin as [-> | Hin]; [| contradiction].
    clear IH. revert acc. induction ks as [|b ks IH]; intros acc; simpl.
    + apply lookup_insert_eq.
    + rewrite insert_insert_ne by (intros ->; apply Hks; left; reflexivity).
      apply IH. intros Hin. apply Hks. right. exact Hin.
Qed.

Lemma normalizationFactors_lookup (maxOrder l : nat) (m : Z) :
  (l <= maxOrder)%nat -> (- Z.of_nat l <= m <= Z.of_nat l)%Z ->
  exists row,
    precomputeNormalizationFactors maxOrder !! l = Some row
    /\ row !! m = Some (Spec.normalization l m).
Proof.
  intros Hl Hm. unfold precomputeNormalizationFactors. cbv zeta.
  eexists. split.
  - apply (fold_insert_lookup
             (fun l : nat =>
                fold_left (fun (row : gmap Z R) (m : Z) =>
                  <[m := sqrt ((2 * INR l + 1)
                               * nth (l - Z.abs_nat m)
                                     (factorialTable (2 * maxOrder + 1)) 0
                               / (4 * PI
                                  * nth (l + Z.abs_nat m)
                                        (factorialTable (2 * maxOrder + 1)) 0))]>
                  row) (mRange l) ∅)).
    apply in_seq. lia.
  - rewrite (fold_insert_lookup
               (fun m : Z =>
                  sqrt ((2 * INR l + 1)
                        * nth (l - Z.abs_nat m)
                              (factorialTable (2 * maxOrder + 1)) 0
                        / (4 * PI
                           * nth (l + Z.abs_nat m)
                                 (factorialTable (2 * maxOrder + 1)) 0))))
      by (apply In_mRange; exact Hm).
    rewrite !nth_factorialTable by lia.
    unfold Spec.normalization. do 3 f_equal.
    rewrite plus_INR, mult_INR. simpl. ring.
Qed.

End Normalization.

(** ** The Legendre table of the decoder *)

Section Legendre.

Import SHACDecoder.
Local Open Scope R_scope.

Lemma somx2_eq (x : R) : sqrt ((1 - x) * (1 + x)) = sqrt (1 - x * x).
Proof. f_equal. ring. Qed.

(** Evaluates everything but the operations on real numbers. *)
Ltac eval_reals :=
  cbv -[Rplus Rmult Rminus Ropp Rdiv Rinv Rlt Rle sqrt PI cos sin atan asin
        exp IZR pow Rmax Rabs Rpower].

(** Splits on the value of a number that is at most 3. *)
Ltac upto3 n :=
  let H := fresh in
  assert (H : (n = 0 \/ n = 1 \/ n = 2 \/ n = 3)%nat) by lia;
  destruct H as [-> | [-> | [-> | ->]]].

(** For the orders the decoder supports, the table holds the values of the
    recurrence. *)
Lemma computeAssociatedLegendre_spec (order l m : nat) (x : R) :
  (order <= 3)%nat -> (l <= order)%nat -> (m <= l)%nat ->
  get2 (computeAssociatedLegendre order x) l m = Spec.associatedLegendre l m x.
Proof.
  intros Ho Hl Hm.
  upto3 order; upto3 l; try lia; upto3 m; try lia.
  all: eval_reals; rewrite ?somx2_eq.
  all: field.
Qed.

End Legendre.

(** ** The basis of the decoder *)

Section DecoderBasis.

Import SHACDecoder.
Local Open Scope R_scope.

Variable toFixed3 : R -> string.

Lemma shStep_spec (order : nat) (azimuth elevation : R) (l : nat)
    (coeffs : list R) (idx : nat) (m : Z) :
  (l <= 3)%nat -> (- Z.of_nat l <= m <= Z.of_nat l)%Z ->
  shStep (computeAssociatedLegendre order (sin elevation)) azimuth l
         (coeffs, idx) m
  = Ok (<[idx := stored order azimuth elevation l m]> coeffs, S idx).
Proof.
  intros Hl Hm. unfold shStep, normalizationFactors.
  destruct (normalizationFactors_lookup 3 l m Hl Hm) as (row & Hrow & Hnorm).
  rewrite Hrow, Hnorm. cbv [from_option Datatypes.id]. do 3 f_equal.
  unfold stored, Spec.azimuthFactor.
  destruct (Z.ltb_spec 0 m) as [Hpos | Hnonpos].
  - assert ((m =? 0)%Z = false) as -> by (apply Z.eqb_neq; lia).
    cbv iota. ring.
  - destruct (Z.ltb_spec m 0) as [Hneg | Hzero].
    + assert ((m =? 0)%Z = false) as -> by (apply Z.eqb_neq; lia).
      rewrite INR_IZR_INZ, Zabs2Nat.id_abs. cbv iota. ring.
    + assert ((m =? 0)%Z = true) as -> by (apply Z.eqb_eq; lia).
      cbv iota. ring.
Qed.

(** On a cache miss, for an order up to 3, the decoder returns the
    coefficients of all degrees up to the order and caches them. *)
Lemma computeSphericalHarmonicsVectorized_miss (shCache : ShCache)
    (order : nat) (azimuth elevation : R) :
  (order <= 3)%nat ->
  mapGet shCache (order, toFixed3 azimuth, toFixed3 elevation) = None ->
  computeSphericalHarmonicsVectorized toFixed3 shCache order azimuth elevation
  = Ok (upTo (stored order azimuth elevation) (order + 1),
        mapSet shCache (order, toFixed3 azimuth, toFixed3 elevation)
               (upTo (stored order azimuth elevation) (order + 1))).
Proof.
  intros Ho Hmiss. unfold computeSphericalHarmonicsVectorized. cbv zeta.
  rewrite Hmiss.
  rewrite (nested_foldR_write mRange
             (shStep (computeAssociatedLegendre order (sin elevation)) azimuth)
             (stored order azimuth elevation)).
  - cbn [rbind fst]. change (cacheFull shCache) with false. cbv iota.
    fold (upTo (stored order azimuth elevation) (order + 1)).
    rewrite writeFrom_all
      by (rewrite length_upTo, length_replicate; reflexivity).
    reflexivity.
  - intros l c i m Hin Hm. apply in_seq in Hin. apply In_mRange in Hm.
    apply shStep_spec; [lia | exact Hm].
  - fold (upTo (stored order azimuth elevation) (order + 1)).
    rewrite length_upTo, length_replicate. lia.
Qed.

End DecoderBasis.

(** ** The basis: what the decoder and the renderer compute *)

Section Basis.

Import SHACDecoder.
Local Open Scope R_scope.

Lemma sqrt_inv_4PI_not_1 : sqrt (1 / (4 * PI)) <> 1.
Proof.
  pose proof PI2_1 as Hpi. intros H.
  assert (Hpos : 0 <= 1 / (4 * PI)).
  { apply Rlt_le. apply Rdiv_lt_0_compat; lra. }
  pose proof (sqrt_sqrt _ Hpos) as Hsq. rewrite H in Hsq.
  assert (Hx : 1 / (4 * PI) * (4 * PI) = 1) by (field; lra).
  rewrite <- Hsq in Hx. lra.
Qed.

Lemma stored_spec (order l : nat) (m : Z) (azimuth elevation : R) :
  (order <= 3)%nat -> (l <= order)%nat ->
  (- Z.of_nat l <= m <= Z.of_nat l)%Z ->
  stored order azimuth elevation l m = Spec.harmonic l m azimuth elevation.
Proof.
  intros Ho Hl Hm. unfold stored, Spec.harmonic.
  rewrite computeAssociatedLegendre_spec by lia. reflexivity.
Qed.

Lemma harmonic_first (azimuth elevation : R) :
  Spec.harmonic 0 0 azimuth elevation = sqrt (1 / (4 * PI)).
Proof.
  unfold Spec.harmonic, Spec.normalization, Spec.azimuthFactor,
    Spec.associatedLegendre, Spec.legendreSeed.
  simpl. unfold Spec.legendreSeed. simpl.
  replace (1 * 1 / (4 * PI * 1)) with (1 / (4 * PI))
    by (field; apply PI_neq0).
  ring.
Qed.

(** C1 fails as stated: the renderer's coefficient of degree 0 is 1, and
    the formula gives [sqrt (1 / (4 PI))]. *)
Lemma renderer_degree0_differs :
  SpatialAudioEngine.realSphericalHarmonic 0 0 0 0 <> Spec.harmonic 0 0 0 0.
Proof.
  rewrite harmonic_first. simpl. intros H. apply sqrt_inv_4PI_not_1.
  symmetry. exact H.
Qed.

(** On a cache hit the decoder returns the cached coefficients, which were
    computed for the angles that first produced the key. *)
Lemma computeSphericalHarmonicsVectorized_hit (toFixed3 : R -> string)
    (shCache : ShCache) (order : nat) (azimuth elevation : R)
    (coeffs : list R) :
  mapGet shCache (order, toFixed3 azimuth, toFixed3 elevation) = Some coeffs ->
  computeSphericalHarmonicsVectorized toFixed3 shCache order azimuth elevation
  = Ok (coeffs, shCache).
Proof.
  intros Hhit. unfold computeSphericalHarmonicsVectorized. cbv zeta.
  rewrite Hhit. reflexivity.
Qed.

(** C1, as the code has it. For an order up to 3, the orders the table of
    normalization factors covers, and on a cache miss, the coefficient the
    decoder computes for degree [l] and index [m] is
    [normalization l m * P l |m| (sin elevation)] times 1, or
    [sqrt 2 * cos (m * azimuth)], or [sqrt 2 * sin (|m| * azimuth)]. The
    closed form of the renderer is another function: its coefficient of
    degree 0 is 1. *)
Theorem decoder_basis_formula (toFixed3 : R -> string) (shCache : ShCache)
    (order l : nat) (m : Z) (azimuth elevation : R) :
  (order <= 3)%nat -> (l <= order)%nat ->
  (- Z.of_nat l <= m <= Z.of_nat l)%Z ->
  mapGet shCache (order, toFixed3 azimuth, toFixed3 elevation) = None ->
  (exists coeffs shCache',
     computeSphericalHarmonicsVectorized toFixed3 shCache order azimuth
       elevation = Ok (coeffs, shCache')
     /\ nth (Spec.coefficientIndex l m) coeffs 0
        = Spec.normalization l m
          * Spec.associatedLegendre l (Z.abs_nat m) (sin elevation)
          * (if (m =? 0)%Z then 1
             else if (0 <? m)%Z then sqrt 2 * cos (IZR m * azimuth)
             else sqrt 2 * sin (IZR (Z.abs m) * azimuth)))
  /\ SpatialAudioEngine.realSphericalHarmonic 0 0 azimuth elevation = 1.
Proof.
  intros Ho Hl Hm Hmiss. split; [| reflexivity].
  eexists. eexists. split.
  - apply computeSphericalHarmonicsVectorized_miss; assumption.
  - rewrite nth_upTo by (lia || exact Hm).
    rewrite stored_spec by assumption. reflexivity.
Qed.

Lemma decoder_basis_formula_witness :
  exists coeffs shCache',
    computeSphericalHarmonicsVectorized exampleToFixed3 [] 1 0 0
    = Ok (coeffs, shCache')
    /\ nth (Spec.coefficientIndex 1 (-1)) coeffs 0
       = Spec.normalization 1 (-1)
         * Spec.associatedLegendre 1 (Z.abs_nat (-1)) (sin 0)
         * (if (-1 =? 0)%Z then 1
            else if (0 <? -1)%Z then sqrt 2 * cos (IZR (-1) * 0)
            else sqrt 2 * sin (IZR (Z.abs (-1)) * 0)).
Proof.
  apply (proj1 (decoder_basis_formula exampleToFixed3 [] 1 1 (-1) 0 0
                  ltac:(lia) ltac:(lia) ltac:(lia) eq_refl)).
Defined.

(** The size of the basis and its first coefficient. *)

Lemma upTo_Some {A : Type} (g : nat -> Z -> A) (k : nat) :
  upTo (fun l m => Some (g l m)) k = map Some (upTo g k).
Proof.
  induction k as [|k IH]; [reflexivity |].
  rewrite !upTo_S, map_app, IH, map_map. reflexivity.
Qed.

Lemma computeSphericalHarmonics_filled (azimuth elevation : R) (order : nat) :
  SpatialAudioEngine.computeSphericalHarmonics azimuth elevation
    ((order + 1) * (order + 1))
  = map Some
        (upTo (fun l m =>
                 SpatialAudioEngine.realSphericalHarmonic l m azimuth elevation)
              (order + 1)).
Proof.
  unfold SpatialAudioEngine.computeSphericalHarmonics. cbv zeta.
  rewrite Nat.sqrt_square.
  rewrite (nested_fold_write mRange
             (fun l m =>
                Some (SpatialAudioEngine.realSphericalHarmonic l m azimuth
                        elevation))).
  - cbn [fst].
    fold (upTo (fun l m =>
                  Some (SpatialAudioEngine.realSphericalHarmonic l m azimuth
                          elevation)) (order + 1)).
    rewrite writeFrom_all
      by (rewrite length_upTo, length_replicate; reflexivity).
    apply upTo_Some.
  - fold (upTo (fun l m =>
                  Some (SpatialAudioEngine.realSphericalHarmonic l m azimuth
                          elevation)) (order + 1)).
    rewrite length_upTo, length_replicate. lia.
Qed.

(** C4 fails as stated: the first coefficient of the decoder's basis is
    [sqrt (1 / (4 PI))], not 1. *)
Lemma decoder_first_coefficient_not_one :
  match computeSphericalHarmonicsVectorized exampleToFixed3 [] 0 0 0 with
  | Ok (coeffs, _) => length coeffs = 1%nat /\ nth 0 coeffs 0 <> 1
  | Err _ => False
  end.
Proof.
  rewrite computeSphericalHarmonicsVectorized_miss by (lia || reflexivity).
  split; [reflexivity |].
  change (nth 0 (upTo (stored 0 0 0) (0 + 1)) 0) with (stored 0 0 0 0 0).
  rewrite stored_spec by lia. rewrite harmonic_first.
  apply sqrt_inv_4PI_not_1.
Qed.

(** C4, as the code has it. For every order the renderer's basis has
    exactly [(order+1)²] coefficients, every slot holding a number, and the
    first is 1. For an order up to 3 and on a cache miss the decoder's basis
    has exactly [(order+1)²] coefficients, and the first is the
    normalization of degree 0, [sqrt (1 / (4 PI))]. *)
Theorem basis_size_and_first (order : nat) (azimuth elevation : R) :
  (exists coeffs,
     SpatialAudioEngine.computeSphericalHarmonics azimuth elevation
       ((order + 1) * (order + 1)) = map Some coeffs
     /\ length coeffs = ((order + 1) * (order + 1))%nat
     /\ nth 0 coeffs 0 = 1)
  /\ (forall (toFixed3 : R -> string) (shCache : ShCache),
        (order <= 3)%nat ->
        mapGet shCache (order, toFixed3 azimuth, toFixed3 elevation) = None ->
        exists coeffs shCache',
          computeSphericalHarmonicsVectorized toFixed3 shCache order azimuth
            elevation = Ok (coeffs, shCache')
          /\ length coeffs = ((order + 1) * (order + 1))%nat
          /\ nth 0 coeffs 0 = sqrt (1 / (4 * PI))).
Proof.
  split.
  - eexists. split; [apply computeSphericalHarmonics_filled |].
    split; [apply length_upTo |].
    change 0%nat with (Spec.coefficientIndex 0 0) at 1.
    rewrite nth_upTo by lia. reflexivity.
  - intros toFixed3 shCache Ho Hmiss.
    eexists. eexists. split;
      [apply computeSphericalHarmonicsVectorized_miss; assumption |].
    split; [apply length_upTo |].
    change 0%nat with (Spec.coefficientIndex 0 0) at 1.
    rewrite nth_upTo by lia.
    rewrite stored_spec by lia. apply harmonic_first.
Qed.

Lemma basis_size_and_first_witness :
  exists coeffs shCache',
    computeSphericalHarmonicsVectorized exampleToFixed3 [] 2 0 0
    = Ok (coeffs, shCache')
    /\ length coeffs = ((2 + 1) * (2 + 1))%nat
    /\ nth 0 coeffs 0 = sqrt (1 / (4 * PI)).
Proof.
  apply (proj2 (basis_size_and_first 2 0 0) exampleToFixed3 []).
  - lia.
  - reflexivity.
Defined.

End Basis.

(** ** Outside the supported range *)

Section Limits.

Import SHACDecoder.
Local Open Scope R_scope.

Lemma foldR_app {A B : Type} (f : A -> B -> result A) (l1 l2 : list B)
    (a : A) :
  foldR f (l1 ++ l2) a = rbind (foldR f l1 a) (foldR f l2).
Proof.
  revert a. induction l1 as [|b l1 IH]; intros a; simpl; [reflexivity |].
  destruct (f a b) as [a' | e]; simpl; [apply IH | reflexivity].
Qed.

Lemma fold_insert_lookup_other {K V : Type} `{Countable K} (f : K -> V)
    (ks : list K) (acc : gmap K V) (k : K) :
  ~ In k ks ->
  fold_left (fun (acc : gmap K V) (k : K) => <[k := f k]> acc) ks acc !! k
  = acc !! k.
Proof.
  revert acc. induction ks as [|a ks IH]; intros acc Hk; simpl; [reflexivity |].
  rewrite IH by (intros Hin; apply Hk; right; exact Hin).
  apply lookup_insert_ne. intros ->. apply Hk. left. reflexivity.
Qed.

Lemma normalizationFactors_degree4 : normalizationFactors !! 4%nat = None.
Proof.
  unfold normalizationFactors, precomputeNormalizationFactors. cbv zeta.
  rewrite (fold_insert_lookup_other
             (fun l : nat =>
                fold_left (fun (row : gmap Z R) (m : Z) =>
                  <[m := sqrt ((2 * INR l + 1)
                               * nth (l - Z.abs_nat m)
                                     (factorialTable (2 * 3 + 1)) 0
                               / (4 * PI
                                  * nth (l + Z.abs_nat m)
                                        (factorialTable (2 * 3 + 1)) 0))]>
                  row) (mRange l) ∅)).
  - apply lookup_empty.
  - intros Hin. apply in_seq in Hin. lia.
Qed.

(** At order 4 the decoder's basis fails: the table of normalization
    factors made by the constructor stops at degree 3. *)
Lemma computeSphericalHarmonicsVectorized_order4 (toFixed3 : R -> string)
    (shCache : ShCache) (azimuth elevation : R) :
  mapGet shCache (4%nat, toFixed3 azimuth, toFixed3 elevation) = None ->
  computeSphericalHarmonicsVectorized toFixed3 shCache 4 azimuth elevation
  = Err TypeError.
Proof.
  intros Hmiss. unfold computeSphericalHarmonicsVectorized. cbv zeta.
  rewrite Hmiss.
  change (seq 0 (4 + 1)) with (seq 0 4 ++ [4%nat]).
  rewrite foldR_app.
  rewrite (nested_foldR_write mRange
             (shStep (computeAssociatedLegendre 4 (sin elevation)) azimuth)
             (stored 4 azimuth elevation)).
  - cbn [rbind foldR].
    change (mRange 4) with ((-4)%Z :: tl (mRange 4)).
    cbn [foldR]. unfold shStep at 1.
    rewrite normalizationFactors_degree4. reflexivity.
  - intros l c i m Hin Hm. apply in_seq in Hin. apply In_mRange in Hm.
    apply shStep_spec; [lia | exact Hm].
  - fold (upTo (stored 4 azimuth elevation) 4).
    rewrite length_upTo, length_replicate. simpl. lia.
Qed.

(** The loop test of the renderer's basis: for an integer [l],
    [l <= Math.sqrt(n) - 1] holds exactly when [l < Nat.sqrt n]. *)
Lemma order_loop_test (n l : nat) :
  INR l <= SpatialAudioEngine.orderOf n <-> (l < Nat.sqrt n)%nat.
Proof.
  unfold SpatialAudioEngine.orderOf.
  assert (Hsq : forall k : nat, sqrt (INR (k * k)) = INR k).
  { intros k. rewrite mult_INR. apply sqrt_square. apply pos_INR. }
  split.
  - intros H. apply Nat.sqrt_le_square.
    apply INR_le.
    assert (Hle : INR (S l) <= sqrt (INR n)) by (rewrite S_INR; lra).
    rewrite <- Hsq in Hle.
    apply sqrt_le_0 in Hle; [exact Hle | apply pos_INR | apply pos_INR].
  - intros H. apply Nat.sqrt_le_square in H.
    apply le_INR in H.
    apply sqrt_le_1_alt in H. rewrite Hsq, S_INR in H. lra.
Qed.

End Limits.

(** The reference recurrence gives the usual associated Legendre functions
    (with the sign [(-1)^m]) at the low degrees. *)
Lemma associatedLegendre_low (x : R) :
  (Spec.associatedLegendre 0 0 x = 1
   /\ Spec.associatedLegendre 1 0 x = x
   /\ Spec.associatedLegendre 1 1 x = - sqrt (1 - x * x)
   /\ Spec.associatedLegendre 2 0 x = (3 * x * x - 1) / 2
   /\ Spec.associatedLegendre 2 1 x = - 3 * x * sqrt (1 - x * x)
   /\ Spec.associatedLegendre 2 2 x = 3 * sqrt (1 - x * x) ^ 2)%R.
Proof.
  unfold Spec.associatedLegendre. simpl.
  unfold Spec.legendreSeed. simpl.
  repeat split; field.
Qed.

(** * Further properties of the decoder *)

(** ** The header *)

Lemma u8_byteOfZ (z : Z) : u8 (byteOfZ z) = (z mod 256)%Z.
Proof.
  unfold byteOfZ, u8.
  pose proof (Z.mod_pos_bound z 256 ltac:(lia)) as Hz.
  destruct (Byte.of_N (Z.to_N (z mod 256))) as [b |] eqn:Hb.
  - apply Byte.to_of_N in Hb. simpl. rewrite Hb. lia.
  - apply Byte.of_N_None_iff in Hb. lia.
Qed.

Lemma arrayEquals_eq (a b : list byte) :
  SHACDecoder.arrayEquals a b = true <-> a = b.
Proof.
  revert b. induction a as [|x a IH]; intros [|y b]; simpl;
    try (split; [discriminate | discriminate]); [tauto |].
  rewrite andb_true_iff, IH. split.
  - intros [Hxy ->]. apply Byte.byte_dec_bl in Hxy. subst. reflexivity.
  - intros [= -> ->]. split; [apply Byte.byte_dec_lb |]; reflexivity.
Qed.

Lemma le16_value (z : Z) :
  (0 <= z < 65536)%Z ->
  (u8 (byteOfZ z) + 256 * u8 (byteOfZ (z / 256)) = z)%Z.
Proof.
  intros Hz. rewrite !u8_byteOfZ.
  rewrite (Z.mod_small (z / 256) 256)
    by (split; [apply Z.div_pos; lia | apply Z.div_lt_upper_bound; lia]).
  pose proof (Z.div_mod z 256 ltac:(lia)). lia.
Qed.

Lemma le32_value (z : Z) :
  (0 <= z < 4294967296)%Z ->
  (u8 (byteOfZ z) + 256 * u8 (byteOfZ (z / 256))
   + 65536 * u8 (byteOfZ (z / 65536))
   + 16777216 * u8 (byteOfZ (z / 16777216)) = z)%Z.
Proof.
  intros Hz. rewrite !u8_byteOfZ.
  rewrite (Z.mod_small (z / 16777216) 256)
    by (split; [apply Z.div_pos; lia | apply Z.div_lt_upper_bound; lia]).
  replace (z / 65536)%Z with (z / 256 / 256)%Z
    by (rewrite Z.div_div by lia; reflexivity).
  replace (z / 16777216)%Z with (z / 256 / 256 / 256)%Z
    by (rewrite !Z.div_div by lia; reflexivity).
  pose proof (Z.div_mod z 256 ltac:(lia)).
  pose proof (Z.div_mod (z / 256) 256 ltac:(lia)).
  pose proof (Z.div_mod (z / 256 / 256) 256 ltac:(lia)).
  lia.
Qed.

(** The header, read from its bytes. *)
Lemma readHeader_layout (h : SHACDecoder.Header) (rest : list byte) :
  headerInRange h ->
  SHACDecoder.readHeader (encodeHeader h ++ rest)
  = if (SHACDecoder.version h =? 1)%Z then Ok h
    else Err (UnsupportedVersion (SHACDecoder.version h)).
Proof.
  intros (Hv & Ho & Hnc & Hsr & Hbd & Hns & Hnl & Hnz).
  destruct h as [v o nc sr bd ns nl nz]. simpl in *.
  unfold SHACDecoder.readHeader, encodeHeader, le16, le32. simpl app.
  unfold Uint8Array_view, getUint16, getUint32, in_range, byteLength.
  cbn [length].
  repeat match goal with
  | |- context [(?a <=? ?b)%Z] =>
      let H := fresh in
      assert (H : (a <=? b)%Z = true) by (apply Z.leb_le; lia);
      rewrite H; clear H
  end.
  unfold byteAt.
  repeat match goal with
  | |- context [Z.to_nat ?z] =>
      let n := eval compute in (Z.to_nat z) in change (Z.to_nat z) with n
  end.
  cbn [andb rbind take drop nth].
  change (SHACDecoder.arrayEquals [x53; x48; x41; x43] SHACDecoder.MAGIC)
    with true.
  cbn [negb rbind].
  rewrite !le32_value by assumption. rewrite !le16_value by assumption.
  destruct (v =? 1)%Z; reflexivity.
Qed.

(** X1. A header written with the layout of the container, fields
    little-endian, is read back field by field when its version is 1, and
    is refused with the version it carries otherwise, whatever follows the
    26 bytes. *)
Theorem readHeader_roundtrip (h : SHACDecoder.Header) (rest : list byte) :
  headerInRange h ->
  SHACDecoder.readHeader (encodeHeader h ++ rest)
  = if (SHACDecoder.version h =? 1)%Z then Ok h
    else Err (UnsupportedVersion (SHACDecoder.version h)).
Proof.
  exact (readHeader_layout h rest).
Qed.

Lemma readHeader_roundtrip_witness :
  headerInRange truncatedHeader
  /\ SHACDecoder.readHeader (encodeHeader truncatedHeader ++ [x00; x00])
     = Ok truncatedHeader.
Proof.
  assert (H : headerInRange truncatedHeader)
    by (unfold headerInRange; simpl; lia).
  split; [exact H |].
  exact (readHeader_roundtrip truncatedHeader [x00; x00] H).
Defined.

(** X2. A buffer is refused for its magic bytes exactly when it has at
    least four bytes and the first four are not [SHAC]; nothing after them
    is looked at. A buffer of fewer than four bytes raises [RangeError]. *)
Theorem readHeader_magic (buf : ArrayBuffer) :
  (SHACDecoder.readHeader buf = Err InvalidMagic
   <-> (4 <= length buf)%nat /\ take 4 buf <> SHACDecoder.MAGIC)
  /\ ((length buf < 4)%nat -> SHACDecoder.readHeader buf = Err RangeError).
Proof.
  unfold SHACDecoder.readHeader, Uint8Array_view.
  change (Z.to_nat 4) with 4%nat. change (Z.to_nat 0) with 0%nat.
  rewrite drop_0.
  destruct (in_range buf 0 4) eqn:Hr.
  - apply in_range_true in Hr. unfold byteLength in Hr.
    cbn [rbind].
    destruct (SHACDecoder.arrayEquals (take 4 buf) SHACDecoder.MAGIC) eqn:Heq.
    + apply arrayEquals_eq in Heq. cbn [negb]. split.
      * split; [| intros [_ Hne]; contradiction].
        intros H. exfalso.
        repeat match type of H with
        | rbind ?r _ = Err _ =>
            let E := fresh "E" in
            let e := fresh "e" in
            destruct r as [? | e] eqn:E; cbn [rbind] in H;
            [| injection H as ->;
               match type of E with
               | getUint16 _ _ = _ =>
                   pose proof (getUint16_rangeOrOk buf) as Hk
               | getUint32 _ _ = _ =>
                   pose proof (getUint32_rangeOrOk buf) as Hk
               end;
               match type of E with
               | ?f _ ?off = _ => specialize (Hk off); rewrite E in Hk
               end; discriminate Hk]
        end.
        destruct (negb (a =? 1)%Z); discriminate H.
      * intros Hlen. lia.
    + cbn [negb]. split.
      * split; [intros _ | reflexivity].
        split; [lia |]. intros Hm. apply arrayEquals_eq in Hm. congruence.
      * intros Hlen. lia.
  - split.
    + split; [discriminate |]. intros [Hlen _]. exfalso.
      unfold in_range, byteLength in Hr.
      apply andb_false_iff in Hr as [Hr | Hr]; apply Z.leb_gt in Hr; lia.
    + reflexivity.
Qed.

(** ** The layer index *)

Section IndexLayout.

Variable TextDecoder_decode : list byte -> string.

Lemma contiguous_snoc (start : Z) (index : list SHACDecoder.LayerInfo)
    (e : SHACDecoder.LayerInfo) :
  contiguous start (index ++ [e])
  <-> contiguous start index
      /\ SHACDecoder.headerOffset e = indexEnd start index.
Proof.
  revert start. induction index as [|a index IH]; intros start; simpl.
  - tauto.
  - rewrite IH. tauto.
Qed.

Lemma indexEnd_snoc (start : Z) (index : list SHACDecoder.LayerInfo)
    (e : SHACDecoder.LayerInfo) :
  indexEnd start (index ++ [e])
  = (SHACDecoder.dataOffset e + SHACDecoder.dataSize e)%Z.
Proof.
  revert start. induction index as [|a index IH]; intros start; simpl;
    [reflexivity | apply IH].
Qed.

Lemma indexStep_layout buf h off index off' index' :
  SHACDecoder.indexStep TextDecoder_decode buf h (off, index)
  = Ok (off', index') ->
  contiguous 26 index /\ off = indexEnd 26 index ->
  (contiguous 26 index' /\ off' = indexEnd 26 index')
  /\ length index' = S (length index).
Proof.
  unfold SHACDecoder.indexStep. intros H [Hc Hoff].
  repeat bind_ok H. injection H as <- <-.
  rewrite contiguous_snoc, indexEnd_snoc, length_app. simpl.
  repeat split; [exact Hc | lia | lia].
Qed.

Lemma indexLoop_layout n buf h st st' :
  SHACDecoder.indexLoop TextDecoder_decode n buf h st = Ok st' ->
  contiguous 26 (snd st) /\ fst st = indexEnd 26 (snd st) ->
  (contiguous 26 (snd st') /\ fst st' = indexEnd 26 (snd st'))
  /\ length (snd st') = (n + length (snd st))%nat.
Proof.
  revert st. induction n as [|n IH]; intros st H Hinv; simpl in H.
  - injection H as <-. split; [exact Hinv | reflexivity].
  - bind_ok H. destruct st as [off index], a as [off1 index1].
    destruct (indexStep_layout _ _ _ _ _ _ E Hinv) as [Hinv1 Hlen1].
    destruct (IH _ H Hinv1) as [Hinv' Hlen'].
    split; [exact Hinv' |]. simpl in *. lia.
Qed.

Lemma buildLayerIndex_length (buf : ArrayBuffer) (h : SHACDecoder.Header)
    (index : list SHACDecoder.LayerInfo) :
  SHACDecoder.buildLayerIndex TextDecoder_decode buf h = Ok index ->
  length index = Z.to_nat (SHACDecoder.n_layers h).
Proof.
  intros H. unfold SHACDecoder.buildLayerIndex in H. bind_ok H.
  injection H as <-.
  destruct (indexLoop_layout _ _ _ _ _ E) as [_ Hlen]; [simpl; auto |].
  simpl in Hlen. lia.
Qed.

(** X3. When the index pass succeeds, the index has one entry per declared
    layer, in file order; the first record starts at byte 26 and every other
    one where the audio of the one before ends; every entry has the audio
    size the header implies, [channels * samples * bytes per sample], and
    its data begins after the six bytes of the record header, the id and
    the metadata. *)
Theorem buildLayerIndex_layout (buf : ArrayBuffer) (h : SHACDecoder.Header)
    (index : list SHACDecoder.LayerInfo) :
  SHACDecoder.buildLayerIndex TextDecoder_decode buf h = Ok index ->
  length index = Z.to_nat (SHACDecoder.n_layers h)
  /\ contiguous 26 index
  /\ Forall (fun e =>
               SHACDecoder.dataSize e
               = (SHACDecoder.n_channels h * SHACDecoder.n_samples h
                  * (if (SHACDecoder.bit_depth h =? 16)%Z then 2 else 4))%Z
               /\ (SHACDecoder.headerOffset e + 6
                   + SHACDecoder.metadataLength e
                   <= SHACDecoder.dataOffset e)%Z
               /\ (0 <= SHACDecoder.metadataLength e)%Z) index.
Proof.
  intros H. pose proof (buildLayerIndex_inv TextDecoder_decode buf h index H)
    as Hall.
  unfold SHACDecoder.buildLayerIndex in H. bind_ok H. injection H as <-.
  destruct (indexLoop_layout _ _ _ _ _ E) as [[Hc _] Hlen];
    [simpl; auto |].
  simpl in Hlen. split; [lia |]. split; [exact Hc |].
  eapply Forall_impl; [exact Hall |].
  intros e (idLength & _ & Hid & _ & Hmeta & Hdata & Hsize).
  unfold SHACDecoder.audioDataSize, SHACDecoder.bytesPerSample in Hsize.
  repeat split; [exact Hsize | lia | exact Hmeta].
Qed.

End IndexLayout.

Lemma buildLayerIndex_layout_witness :
  SHACDecoder.buildLayerIndex exampleDecode fallbackFile truncatedHeader
  = Ok [fallbackEntry]
  /\ length [fallbackEntry] = Z.to_nat (SHACDecoder.n_layers truncatedHeader)
  /\ contiguous 26 [fallbackEntry].
Proof.
  split; [reflexivity |].
  pose proof (buildLayerIndex_layout exampleDecode fallbackFile
                truncatedHeader [fallbackEntry] eq_refl) as H.
  split; [exact (proj1 H) | exact (proj1 (proj2 H))].
Defined.

(** ** Reading the audio of a layer *)

Section ReadAudio.

Variable float32_of_bits : Z -> f32.

Lemma mapR_length {A B : Type} (f : A -> result B) (l : list A)
    (bs : list B) :
  mapR f l = Ok bs -> length bs = length l.
Proof.
  revert bs. induction l as [|a l IH]; intros bs H; simpl in H.
  - injection H as <-. reflexivity.
  - bind_ok H. bind_ok H. injection H as <-. simpl. f_equal. apply IH.
    reflexivity.
Qed.

Lemma mapR_Forall {A B : Type} (f : A -> result B) (P : B -> Prop)
    (l : list A) (bs : list B) :
  (forall a b, f a = Ok b -> P b) -> mapR f l = Ok bs -> Forall P bs.
Proof.
  intros HP. revert bs. induction l as [|a l IH]; intros bs H; simpl in H.
  - injection H as <-. constructor.
  - bind_ok H. bind_ok H. injection H as <-.
    constructor; [eapply HP; eassumption | apply IH; reflexivity].
Qed.

Lemma channelLoops_shape {A : Type} (nc ns : nat)
    (body : nat -> nat -> result A) (a : list (list A)) :
  SHACDecoder.channelLoops nc ns body = Ok a ->
  length a = nc /\ Forall (fun channel => length channel = ns) a.
Proof.
  unfold SHACDecoder.channelLoops. intros H. split.
  - rewrite (mapR_length _ _ _ H). apply length_seq.
  - eapply mapR_Forall; [| exact H].
    intros ch channel Hch. simpl in Hch.
    rewrite (mapR_length _ _ _ Hch). apply length_seq.
Qed.

Lemma readAudioDataOptimized_channels (buf : ArrayBuffer) (offset : Z)
    (numChannels numSamples : nat) (bitDepth : Z)
    (audioData : list (list f32)) :
  SHACDecoder.readAudioDataOptimized float32_of_bits buf offset numChannels
    numSamples bitDepth = Ok audioData ->
  length audioData = numChannels
  /\ Forall (fun channel => length channel = numSamples) audioData.
Proof.
  unfold SHACDecoder.readAudioDataOptimized, SHACDecoder.readAudio16_bytewise,
    SHACDecoder.readAudio16_view, SHACDecoder.readAudio32_view,
    SHACDecoder.readAudio32_bytewise.
  intros H.
  repeat match type of H with
  | (if ?c then _ else _) = _ => destruct c
  end;
    try discriminate H;
    try (bind_ok H);
    eapply channelLoops_shape; exact H.
Qed.

(** X4. Whatever the bit depth and the alignment, audio that is read has
    the shape the caller asked for: [numChannels] channels of [numSamples]
    samples each. *)
Theorem readAudioDataOptimized_shape (buf : ArrayBuffer) (offset : Z)
    (numChannels numSamples : nat) (bitDepth : Z)
    (audioData : list (list f32)) :
  SHACDecoder.readAudioDataOptimized float32_of_bits buf offset numChannels
    numSamples bitDepth = Ok audioData ->
  length audioData = numChannels
  /\ Forall (fun channel => length channel = numSamples) audioData.
Proof.
  exact (readAudioDataOptimized_channels buf offset numChannels numSamples
           bitDepth audioData).
Qed.

Lemma getUint32_payload (pre payload post : list byte) (i : nat) :
  (i + 3 < length payload)%nat ->
  getUint32 (pre ++ payload ++ post) (Z.of_nat (length pre) + Z.of_nat i)
  = Ok (wordAt payload i).
Proof.
  intros Hi. unfold getUint32.
  rewrite in_range_app by lia.
  replace (Z.of_nat (length pre) + Z.of_nat i + 1)%Z
    with (Z.of_nat (length pre) + Z.of_nat (i + 1))%Z by lia.
  replace (Z.of_nat (length pre) + Z.of_nat i + 2)%Z
    with (Z.of_nat (length pre) + Z.of_nat (i + 2))%Z by lia.
  replace (Z.of_nat (length pre) + Z.of_nat i + 3)%Z
    with (Z.of_nat (length pre) + Z.of_nat (i + 3))%Z by lia.
  rewrite !byteAt_payload by lia. reflexivity.
Qed.

Lemma readAudio32_bytewise_spec (pre payload post : list byte)
    (numChannels numSamples : nat) :
  length payload = (4 * (numChannels * numSamples))%nat ->
  SHACDecoder.readAudio32_bytewise float32_of_bits (pre ++ payload ++ post)
    (Z.of_nat (length pre)) numChannels numSamples
  = Ok (decode32 float32_of_bits payload numChannels numSamples).
Proof.
  intros Hlen.
  unfold SHACDecoder.readAudio32_bytewise, SHACDecoder.channelLoops, decode32.
  apply mapR_ok. intros ch Hch. apply in_seq in Hch.
  apply mapR_ok. intros s Hs. apply in_seq in Hs.
  assert (Hidx : (ch * numSamples + s < numChannels * numSamples)%nat)
    by nia.
  cbv zeta.
  replace (Z.of_nat (length pre)
           + (Z.of_nat ch * Z.of_nat numSamples + Z.of_nat s) * 4)%Z
    with (Z.of_nat (length pre) + Z.of_nat (4 * (ch * numSamples + s)))%Z
    by lia.
  rewrite getUint32_payload by lia. reflexivity.
Qed.

(** The bytes of a buffer from [off] on, [size] of them. *)
Lemma buffer_split (buf : list byte) (off size : nat) :
  (off + size <= length buf)%nat ->
  buf = take off buf ++ take size (drop off buf) ++ drop size (drop off buf)
  /\ length (take off buf) = off
  /\ length (take size (drop off buf)) = size.
Proof.
  intros H. rewrite !take_drop.
  rewrite !length_take, length_drop. repeat split; lia.
Qed.

(** Reading the audio of a layer from where it lies. *)
Lemma readAudioDataOptimized_window (pre payload post : list byte)
    (numChannels numSamples : nat) (bitDepth : Z) :
  length payload
  = (numChannels * numSamples * (if (bitDepth =? 16)%Z then 2 else 4))%nat ->
  SHACDecoder.readAudioDataOptimized float32_of_bits (pre ++ payload ++ post)
    (Z.of_nat (length pre)) numChannels numSamples bitDepth
  = Ok (if (bitDepth =? 16)%Z
        then Spec.decode16 payload numChannels numSamples
        else decode32 float32_of_bits payload numChannels numSamples).
Proof.
  intros Hlen. unfold SHACDecoder.readAudioDataOptimized.
  destruct (bitDepth =? 16)%Z.
  - destruct (Z.eqb_spec (Z.of_nat (length pre) mod 2) 0)
      as [Heven | Hodd]; cbn [negb].
    + apply readAudio16_view_spec; [lia | exact Heven].
    + apply readAudio16_bytewise_spec. lia.
  - destruct (Z.eqb_spec (Z.of_nat (length pre) mod 4) 0)
      as [Heven | Hodd]; cbn [negb].
    + unfold SHACDecoder.readAudio32_view. cbv zeta.
      rewrite Heven. change (0 =? 0)%Z with true.
      replace (Z.of_nat (length pre))
        with (Z.of_nat (length pre) + 0)%Z at 1 by lia.
      rewrite in_range_app by lia. cbn [andb].
      apply readAudio32_bytewise_spec. lia.
    + apply readAudio32_bytewise_spec. lia.
Qed.


End ReadAudio.

Lemma readAudioDataOptimized_shape_witness :
  SHACDecoder.readAudioDataOptimized exampleFloat fallbackFile 37 1 1 16
  = Ok [[Some (16384 / 32767)%R]]
  /\ length [[Some (16384 / 32767)%R]] = 1%nat.
Proof.
  split; [reflexivity |].
  exact (proj1 (readAudioDataOptimized_shape exampleFloat fallbackFile 37 1 1
                  16 [[Some (16384 / 32767)%R]] eq_refl)).
Defined.


(** ** The map of layers *)

Section JsMapFacts.

Context {K V : Type} `{EqDecision K}.

Lemma mapGet_mapSet (m : list (K * V)) (k k' : K) (v : V) :
  mapGet (mapSet m k v) k'
  = if bool_decide (k = k') then Some v else mapGet m k'.
Proof.
  induction m as [|[k0 v0] m IH]; simpl.
  - destruct (bool_decide (k = k')); reflexivity.
  - destruct (bool_decide (k0 = k)) eqn:H0; simpl.
    + apply bool_decide_eq_true in H0. subst k0.
      destruct (bool_decide (k = k')); reflexivity.
    + apply bool_decide_eq_false in H0.
      destruct (bool_decide (k0 = k')) eqn:H1.
      * apply bool_decide_eq_true in H1. subst k0.
        rewrite bool_decide_eq_false_2 by auto. reflexivity.
      * exact IH.
Qed.

Lemma mapSet_keys (m : list (K * V)) (k : K) (v : V) :
  map fst (mapSet m k v)
  = if bool_decide (k ∈ map fst m) then map fst m else map fst m ++ [k].
Proof.
  induction m as [|[k0 v0] m IH]; simpl; [reflexivity |].
  destruct (bool_decide (k0 = k)) eqn:H0; simpl.
  - apply bool_decide_eq_true in H0. subst k0.
    rewrite bool_decide_eq_true_2 by (left). reflexivity.
  - apply bool_decide_eq_false in H0. rewrite IH.
    destruct (bool_decide (k ∈ map fst m)) eqn:H1.
    + apply bool_decide_eq_true in H1.
      rewrite bool_decide_eq_true_2 by (right; exact H1). reflexivity.
    + apply bool_decide_eq_false in H1.
      rewrite bool_decide_eq_false_2; [reflexivity |].
      intros Hin. apply elem_of_cons in Hin as [-> | Hin]; auto.
Qed.

Lemma mapSet_NoDup (m : list (K * V)) (k : K) (v : V) :
  NoDup (map fst m) -> NoDup (map fst (mapSet m k v)).
Proof.
  intros Hnd. rewrite mapSet_keys.
  destruct (bool_decide (k ∈ map fst m)) eqn:H1; [exact Hnd |].
  apply bool_decide_eq_false in H1.
  apply NoDup_app. split; [exact Hnd |]. split.
  - intros x Hx Hk. apply list_elem_of_singleton in Hk. subst x. auto.
  - apply NoDup_singleton.
Qed.

Lemma mapSet_length (m : list (K * V)) (k : K) (v : V) :
  (length (mapSet m k v) <= S (length m))%nat.
Proof.
  rewrite <- !(length_map fst), mapSet_keys.
  destruct (bool_decide (k ∈ map fst m)); rewrite ?length_app; simpl; lia.
Qed.

Lemma mapSet_Forall (P : V -> Prop) (m : list (K * V)) (k : K) (v : V) :
  Forall (fun kv => P (snd kv)) m -> P v ->
  Forall (fun kv => P (snd kv)) (mapSet m k v).
Proof.
  intros Hm Hv. induction m as [|[k0 v0] m IH]; simpl.
  - constructor; [exact Hv | constructor].
  - apply Forall_cons in Hm as [H0 Hm].
    destruct (bool_decide (k0 = k)); constructor; auto.
Qed.

(** Storing a list of pairs one after the other: the value kept under a key
    is that of the last pair with the key. *)
Lemma mapGet_fold_mapSet (rs : list (K * V)) (m : list (K * V)) (k : K) :
  mapGet (fold_left (fun m r => mapSet m (fst r) (snd r)) rs m) k
  = match mapGet (rev rs) k with
    | Some v => Some v
    | None => mapGet m k
    end.
Proof.
  revert m. induction rs as [|[k0 v0] rs IH]; intros m; simpl;
    [reflexivity |].
  rewrite IH, mapGet_mapSet.
  assert (Happ : forall (a b : list (K * V)),
            mapGet (a ++ b) k
            = match mapGet a k with Some v => Some v | None => mapGet b k end).
  { intros a b. induction a as [|[ka va] a IHa]; simpl; [reflexivity |].
    destruct (bool_decide (ka = k)); [reflexivity | exact IHa]. }
  rewrite Happ. simpl.
  destruct (mapGet (rev rs) k); [reflexivity |].
  destruct (bool_decide (k0 = k)); reflexivity.
Qed.

Lemma fold_mapSet_facts (P : V -> Prop) (rs : list (K * V))
    (m : list (K * V)) :
  NoDup (map fst m) -> Forall (fun kv => P (snd kv)) m ->
  Forall (fun kv => P (snd kv)) rs ->
  let m' := fold_left (fun m r => mapSet m (fst r) (snd r)) rs m in
  NoDup (map fst m') /\ Forall (fun kv => P (snd kv)) m'
  /\ (length m' <= length m + length rs)%nat.
Proof.
  revert m. induction rs as [|[k0 v0] rs IH]; intros m Hnd Hm Hrs; simpl.
  - repeat split; [exact Hnd | exact Hm | lia].
  - apply Forall_cons in Hrs as [H0 Hrs].
    destruct (IH (mapSet m k0 v0)) as (H1 & H2 & H3);
      [apply mapSet_NoDup; exact Hnd
      | apply mapSet_Forall; assumption
      | exact Hrs |].
    repeat split; [exact H1 | exact H2 |].
    pose proof (mapSet_length m k0 v0). simpl in H3. lia.
Qed.

End JsMapFacts.

(** ** What a successful decode returns *)

Section DecodeResult.

Variable TextDecoder_decode : list byte -> string.
Variable JSON_parse : string -> option Json.
Variable float32_of_bits : Z -> f32.

Lemma readLayerOptimized_shaped buf h layerInfo r :
  SHACDecoder.readLayerOptimized TextDecoder_decode JSON_parse
    float32_of_bits buf h layerInfo = Ok r ->
  shaped h (snd r).
Proof.
  unfold SHACDecoder.readLayerOptimized. intros H.
  repeat bind_ok H. injection H as <-. simpl.
  destruct (readAudioDataOptimized_channels _ _ _ _ _ _ _ E2) as [H1 H2].
  repeat split; assumption.
Qed.

(** X6. A decode that succeeds returns the header that was read, with
    version 1; an index with one entry per declared layer; and a map of
    layers whose names are pairwise different, at most as many as the
    declared layers, each with the declared number of channels and of
    samples per channel. The list of layer names is the list of keys of the
    map. *)
Theorem decode_result (buf : ArrayBuffer) (d : SHACDecoder.Decoded) :
  SHACDecoder.decode TextDecoder_decode JSON_parse float32_of_bits buf = Ok d ->
  SHACDecoder.readHeader buf = Ok (SHACDecoder.header d)
  /\ SHACDecoder.version (SHACDecoder.header d) = 1%Z
  /\ length (SHACDecoder.layerIndex d)
     = Z.to_nat (SHACDecoder.n_layers (SHACDecoder.header d))
  /\ SHACDecoder.layerNames d = map fst (SHACDecoder.layers d)
  /\ NoDup (SHACDecoder.layerNames d)
  /\ (length (SHACDecoder.layers d) <= length (SHACDecoder.layerIndex d))%nat
  /\ Forall (fun layer =>
               length (SHACDecoder.audioData (snd layer))
               = Z.to_nat (SHACDecoder.n_channels (SHACDecoder.header d))
               /\ Forall (fun channel =>
                            length channel
                            = Z.to_nat
                                (SHACDecoder.n_samples (SHACDecoder.header d)))
                         (SHACDecoder.audioData (snd layer))
               /\ SHACDecoder.samplesPerChannel (snd layer)
                  = SHACDecoder.n_samples (SHACDecoder.header d))
            (SHACDecoder.layers d).
Proof.
  unfold SHACDecoder.decode. intros H.
  bind_ok H. rename a into h, E into Hh.
  bind_ok H. rename a into index, E into Hindex.
  bind_ok H. rename a into ls, E into Hls.
  injection H as <-. simpl.
  unfold SHACDecoder.readLayersOptimized in Hls. bind_ok Hls.
  rename a into results, E into Hres. injection Hls as <-.
  pose proof (mapR_length _ _ _ Hres) as Hlen.
  assert (Hshaped : Forall (fun kv => shaped h (snd kv)) results).
  { eapply mapR_Forall; [| exact Hres].
    intros e r Hr. eapply readLayerOptimized_shaped. exact Hr. }
  destruct (fold_mapSet_facts (shaped h) results [] (NoDup_nil_2)
              (Forall_nil_2 _) Hshaped) as (Hnd & Hall & Hle).
  split; [reflexivity |]. split.
  { unfold SHACDecoder.readHeader in Hh. repeat bind_ok Hh.
    injection Hh as <-. simpl.
    match goal with
    | Hv : negb (?v =? 1)%Z = false |- _ =>
        apply negb_false_iff in Hv; apply Z.eqb_eq in Hv; exact Hv
    end. }
  split.
  { exact (buildLayerIndex_length TextDecoder_decode buf h index Hindex). }
  split; [reflexivity |].
  split; [exact Hnd |].
  split; [simpl in Hle; lia |].
  exact Hall.
Qed.

(** X7. Layers are stored under their names in file order: when several
    layers of a file carry one name, the map keeps the data of the last of
    them. *)
Theorem readLayersOptimized_last_wins (buf : ArrayBuffer)
    (h : SHACDecoder.Header) (index : list SHACDecoder.LayerInfo)
    (ls : list (string * SHACDecoder.LayerData)) :
  SHACDecoder.readLayersOptimized TextDecoder_decode JSON_parse
    float32_of_bits buf h index = Ok ls ->
  exists results,
    mapR (SHACDecoder.readLayerOptimized TextDecoder_decode JSON_parse
            float32_of_bits buf h) index = Ok results
    /\ length results = length index
    /\ forall name, mapGet ls name = mapGet (rev results) name.
Proof.
  unfold SHACDecoder.readLayersOptimized. intros H. bind_ok H.
  injection H as <-. exists a. split; [reflexivity |].
  split; [exact (mapR_length _ _ _ E) |].
  intros name. rewrite mapGet_fold_mapSet.
  destruct (mapGet (rev a) name); reflexivity.
Qed.

End DecodeResult.

Lemma decode_result_witness :
  SHACDecoder.decode exampleDecode exampleParse exampleFloat fallbackFile
  = Ok fallbackDecoded
  /\ SHACDecoder.readHeader fallbackFile = Ok truncatedHeader
  /\ NoDup (SHACDecoder.layerNames fallbackDecoded)
  /\ Forall (fun layer => shaped truncatedHeader (snd layer))
            (SHACDecoder.layers fallbackDecoded).
Proof.
  split; [reflexivity |].
  pose proof (decode_result exampleDecode exampleParse exampleFloat
                fallbackFile fallbackDecoded eq_refl)
    as (H1 & _ & _ & _ & H5 & _ & H7).
  split; [exact H1 |]. split; [exact H5 | exact H7].
Defined.

Lemma readLayersOptimized_last_wins_witness :
  exists results,
    mapR (SHACDecoder.readLayerOptimized exampleDecode exampleParse
            exampleFloat fallbackFile truncatedHeader) [fallbackEntry]
    = Ok results
    /\ length results = length [fallbackEntry]
    /\ forall name,
         mapGet [("a"%string, fallbackLayer)] name
         = mapGet (rev results) name.
Proof.
  exact (readLayersOptimized_last_wins exampleDecode exampleParse
           exampleFloat fallbackFile truncatedHeader [fallbackEntry]
           [("a"%string, fallbackLayer)] eq_refl).
Defined.

(** ** The cache of basis coefficients *)

Section HarmonicsCache.

Import SHACDecoder.

Variable toFixed3 : R -> string.

(** X8. The basis is cached under the order and the two angles written with
    three decimals. Once a call has returned, every later call with the same
    order and with angles that have the same three-decimal texts returns the
    coefficients of that first call, whatever the angles themselves are, and
    leaves the cache as it is. A call never removes or replaces an entry of
    the cache, and adds at most one. *)
Theorem basis_cache_memo (shCache shCache' : ShCache) (order : nat)
    (azimuth elevation : R) (coeffs : list R) :
  computeSphericalHarmonicsVectorized toFixed3 shCache order azimuth elevation
  = Ok (coeffs, shCache') ->
  (forall azimuth' elevation',
     toFixed3 azimuth' = toFixed3 azimuth ->
     toFixed3 elevation' = toFixed3 elevation ->
     computeSphericalHarmonicsVectorized toFixed3 shCache' order azimuth'
       elevation' = Ok (coeffs, shCache'))
  /\ (forall key value,
        mapGet shCache key = Some value -> mapGet shCache' key = Some value)
  /\ (length shCache' <= S (length shCache))%nat.
Proof.
  unfold computeSphericalHarmonicsVectorized. cbv zeta.
  destruct (mapGet shCache (order, toFixed3 azimuth, toFixed3 elevation))
    as [cached |] eqn:Hget; intros H.
  - injection H as <- <-. split; [| split; [auto | lia]].
    intros azimuth' elevation' -> ->. rewrite Hget. reflexivity.
  - bind_ok H. change (cacheFull shCache) with false in H. cbv iota in H.
    injection H as <- <-. split; [| split].
    + intros azimuth' elevation' -> ->. rewrite mapGet_mapSet.
      rewrite bool_decide_eq_true_2 by reflexivity. reflexivity.
    + intros key value Hkey. rewrite mapGet_mapSet.
      rewrite bool_decide_eq_false_2; [exact Hkey |].
      intros <-. congruence.
    + apply mapSet_length.
Qed.

End HarmonicsCache.

Lemma basis_cache_memo_witness :
  SHACDecoder.computeSphericalHarmonicsVectorized exampleToFixed3
    (mapSet [] (1%nat, exampleToFixed3 0, exampleToFixed3 0)
            (upTo (stored 1 0 0) (1 + 1)))
    1 0.0004 0
  = Ok (upTo (stored 1 0 0) (1 + 1),
        mapSet [] (1%nat, exampleToFixed3 0, exampleToFixed3 0)
               (upTo (stored 1 0 0) (1 + 1))).
Proof.
  exact (proj1 (basis_cache_memo exampleToFixed3 [] _ 1 0 0 _
                  (computeSphericalHarmonicsVectorized_miss exampleToFixed3
                     [] 1 0 0 ltac:(lia) eq_refl))
               0.0004%R 0%R eq_refl eq_refl).
Defined.

(** * Further properties of the renderer *)

(** ** Rendering and the pool *)

Section RenderPool.

Import AudioBufferPool SpatialAudioEngine.

Lemma fold_left_inv_count {A B : Type} (f : A -> B -> A)
    (I : nat -> A -> Prop) (l : list B) :
  (forall k a b, I k a -> I (S k) (f a b)) ->
  forall k a, I k a -> I (k + length l)%nat (fold_left f l a).
Proof.
  intros Hstep. induction l as [|b l IH]; intros k a Ha; simpl.
  - rewrite Nat.add_0_r. exact Ha.
  - replace (k + S (length l))%nat with (S k + length l)%nat by lia.
    apply IH, Hstep, Ha.
Qed.

Lemma acquire_fresh p size :
  poolInv p ->
  (fst (acquire p size) ∉ inUse p)
  /\ inUse (snd (acquire p size)) = {[fst (acquire p size)]} ∪ inUse p
  /\ (forall r, r ∈ inUse p ->
        store (snd (acquire p size)) !! r = store p !! r)
  /\ (length (pool p) <= length (pool (snd (acquire p size)))
      <= S (length (pool p)))%nat.
Proof.
  intros [Hvalid HinUse Hzero]. unfold acquire.
  destruct (findFree p size (pool p)) as [b |] eqn:Hfind; simpl.
  - apply findFree_Some in Hfind as (_ & _ & Hfree).
    repeat split; auto; lia.
  - repeat split.
    + intros Hin. specialize (Hvalid _ (HinUse _ Hin)). lia.
    + intros r Hr. apply lookup_app_l. apply Hvalid, HinUse, Hr.
    + rewrite length_app. lia.
    + rewrite length_app. simpl. lia.
Qed.

Lemma write_loop (o : Ref) (f : nat -> f32) (samples : list nat) :
  forall p,
  let q := fold_left (fun p s => write p o s (f s)) samples p in
  pool q = pool p /\ inUse q = inUse p
  /\ length (store q) = length (store p)
  /\ (forall r, r <> o -> store q !! r = store p !! r).
Proof.
  induction samples as [|s rest IH]; intros p; simpl.
  - auto.
  - destruct (IH (write p o s (f s))) as (H1 & H2 & H3 & H4).
    simpl in H1, H2, H3, H4.
    split; [exact H1 |]. split; [exact H2 |]. split.
    + rewrite H3. apply length_alter.
    + intros r Hr. rewrite H4 by exact Hr.
      apply list_lookup_alter_ne. auto.
Qed.

Lemma poolInv_write_loop (o : Ref) (f : nat -> f32) (samples : list nat) p :
  poolInv p -> o ∈ inUse p ->
  poolInv (fold_left (fun p s => write p o s (f s)) samples p).
Proof.
  intros [Hvalid HinUse Hzero] Ho.
  destruct (write_loop o f samples p) as (H1 & H2 & H3 & H4).
  split.
  - intros r Hr. rewrite H3. apply Hvalid. rewrite <- H1. exact Hr.
  - intros r Hr. rewrite H1. apply HinUse. rewrite <- H2. exact Hr.
  - intros r Hr Hfree. rewrite H1 in Hr. rewrite H2 in Hfree.
    rewrite H4; [auto |]. intros ->. contradiction.
Qed.

Lemma releaseAll_facts (bs : list Ref) : forall p,
  poolInv p ->
  poolInv (releaseAll p bs)
  /\ inUse (releaseAll p bs) = inUse p ∖ list_to_set bs
  /\ pool (releaseAll p bs) = pool p
  /\ (forall r, r ∉ bs -> store (releaseAll p bs) !! r = store p !! r).
Proof.
  unfold releaseAll.
  induction bs as [|b bs IH]; intros p Hinv; simpl.
  - split; [exact Hinv |]. split; [set_solver | auto].
  - destruct (IH (release p b) (poolInv_release p b Hinv))
      as (H1 & H2 & H3 & H4).
    split; [exact H1 |].
    assert (Hrel : inUse (release p b) = inUse p ∖ {[b]}
                   /\ pool (release p b) = pool p
                   /\ forall r, r <> b ->
                        store (release p b) !! r = store p !! r).
    { unfold release. destruct (bool_decide (b ∈ inUse p)) eqn:Hb; simpl.
      - repeat split. intros r Hr. unfold fill0.
        apply list_lookup_alter_ne. auto.
      - apply bool_decide_eq_false in Hb. repeat split. set_solver. }
    destruct Hrel as (R1 & R2 & R3).
    split; [rewrite H2, R1; set_solver |].
    split; [rewrite H3; exact R2 |].
    intros r Hr. apply not_elem_of_cons in Hr as [Hne Hr].
    rewrite H4 by exact Hr. apply R3. exact Hne.
Qed.

Lemma decodeToVirtualSpeakers_inv p audioData speakers numSamples :
  poolInv p ->
  renderInv p (length speakers)
    (decodeToVirtualSpeakers p audioData speakers numSamples).
Proof.
  intros Hinv. unfold decodeToVirtualSpeakers.
  apply (fold_left_inv_count _ (renderInv p) speakers) with (k := 0%nat).
  - intros k [outputs q] speaker (I1 & I2 & I3 & I4 & I5). simpl in *.
    destruct (acquire q numSamples) as [output q1] eqn:Hacq.
    destruct (acquire_fresh q numSamples I1) as (A1 & A2 & A3 & A4).
    pose proof (poolInv_acquire q numSamples I1) as A5.
    rewrite Hacq in A1, A2, A3, A4, A5. simpl in A1, A2, A3, A4, A5.
    set (f := fun sample =>
                decodeSample audioData
                  (computeSphericalHarmonics (azimuth speaker)
                     (elevation speaker) (length audioData))
                  (gain speaker) sample).
    destruct (write_loop output f (seq 0 numSamples) q1)
      as (W1 & W2 & W3 & W4).
    assert (Hout : output ∈ inUse q1) by (rewrite A2; set_solver).
    pose proof (poolInv_write_loop output f (seq 0 numSamples) q1 A5 Hout)
      as W5.
    unfold renderInv. simpl.
    split; [exact W5 |].
    split; [rewrite W2, A2, I2, list_to_set_app_L; set_solver |].
    split.
    { intros o Ho. apply elem_of_app in Ho as [Ho | Ho]; [auto |].
      apply list_elem_of_singleton in Ho. subst o.
      intros Hin. apply A1. rewrite I2. set_solver. }
    split.
    { intros r Hr. rewrite W4.
      - rewrite A3; [auto |]. rewrite I2. set_solver.
      - intros ->. apply A1. rewrite I2. set_solver. }
    rewrite W1. lia.
  - unfold renderInv. simpl. split; [exact Hinv |].
    split; [set_solver |]. split; [intros o Ho; inversion Ho |].
    split; [auto | lia].
Qed.

Lemma length_speakers (order : R) :
  (length (getVirtualSpeakerConfig order) <= 20)%nat.
Proof.
  unfold getVirtualSpeakerConfig.
  destruct (Rle_dec 3 order); [| destruct (Rle_dec 2 order)]; simpl; lia.
Qed.

(** X9. A render that succeeds returns a left and a right channel with as
    many samples as the first input channel, at least one. It gives back
    every array it took from the pool: the arrays in use after the render
    are those in use before it, and these have kept their contents. Every
    free array of the pool holds zeros again, and the pool has grown by at
    most 20 arrays, one per virtual speaker. *)
Theorem createAudioBuffer_returns_arrays (p p' : Pool)
    (audioData : list (list f32)) (l r : list f32) :
  poolInv p ->
  createAudioBuffer p audioData = Ok (l, r, p') ->
  length l = length (audioData !!! 0%nat)
  /\ length r = length (audioData !!! 0%nat)
  /\ (0 < length l)%nat
  /\ inUse p' = inUse p
  /\ (forall buffer, buffer ∈ inUse p ->
        store p' !! buffer = store p !! buffer)
  /\ poolInv p'
  /\ (length (pool p) <= length (pool p') <= length (pool p) + 20)%nat.
Proof.
  intros Hinv. unfold createAudioBuffer.
  destruct audioData as [|channel0 rest]; [discriminate |].
  change ((channel0 :: rest) !!! 0%nat) with channel0.
  destruct (length channel0 =? 0)%nat eqn:Hn; [discriminate |].
  apply Nat.eqb_neq in Hn.
  assert (Hset : forall source out,
            typedSet (zeros (length channel0)) source = Ok out ->
            length out = length channel0).
  { intros source out. unfold typedSet, zeros.
    rewrite length_replicate.
    destruct (length channel0 <? length source)%nat eqn:Hlt;
      [discriminate |].
    apply Nat.ltb_ge in Hlt. intros [= <-].
    rewrite length_app, length_drop, length_replicate. lia. }
  generalize (channel0 :: rest). intros audioData.
  destruct (4 <=? length audioData)%nat.
  - intros [= H]. unfold decodeBinauralHRTF in H.
    set (speakers := getVirtualSpeakerConfig (orderOf (length audioData)))
      in H.
    pose proof (decodeToVirtualSpeakers_inv p audioData speakers
                  (length channel0) Hinv) as Hdec.
    destruct (decodeToVirtualSpeakers p audioData speakers
                (length channel0)) as [outputs q].
    destruct Hdec as (I1 & I2 & I3 & I4 & I5). simpl in I1, I2, I3, I4, I5.
    destruct (applySpatialHRTF_lengths q outputs speakers
                (length channel0) l r p' H) as [Hl Hr].
    assert (Hp' : p' = releaseAll q outputs).
    { unfold applySpatialHRTF in H.
      destruct (fold_left _ (seq 0 (length speakers)) _) as [lo ro].
      injection H as _ _ <-. reflexivity. }
    destruct (releaseAll_facts outputs q I1) as (R1 & R2 & R3 & R4).
    rewrite <- Hp' in R1, R2, R3, R4.
    pose proof (length_speakers (orderOf (length audioData))) as Hsp.
    fold speakers in Hsp.
    split; [exact Hl |]. split; [exact Hr |]. split; [lia |].
    split; [rewrite R2, I2; set_solver |].
    split.
    { intros buffer Hb. rewrite R4; [auto |].
      intros Hin. exact (I3 _ Hin Hb). }
    split; [exact R1 |]. rewrite R3. lia.
  - destruct (2 <=? length audioData)%nat; cbv zeta; intros H.
    + bind_ok H. bind_ok H. injection H as <- <- <-.
      rewrite (Hset _ _ E), (Hset _ _ E0).
      split; [reflexivity |]. split; [reflexivity |]. split; [lia |].
      split; [reflexivity |]. split; [auto |]. split; [exact Hinv | lia].
    + bind_ok H. injection H as <- <- <-.
      rewrite (Hset _ _ E).
      split; [reflexivity |]. split; [reflexivity |]. split; [lia |].
      split; [reflexivity |]. split; [auto |]. split; [exact Hinv | lia].
Qed.

End RenderPool.

Lemma createAudioBuffer_returns_arrays_witness :
  let '(l, r, p') :=
    SpatialAudioEngine.decodeBinauralHRTF AudioBufferPool.empty fourChannels
      1 (SpatialAudioEngine.orderOf 4) in
  length l = 1%nat /\ length r = 1%nat
  /\ AudioBufferPool.inUse p' = AudioBufferPool.inUse AudioBufferPool.empty.
Proof.
  destruct (SpatialAudioEngine.decodeBinauralHRTF AudioBufferPool.empty
              fourChannels 1 (SpatialAudioEngine.orderOf 4))
    as [[l r] p'] eqn:E.
  pose proof (createAudioBuffer_returns_arrays AudioBufferPool.empty p'
                fourChannels l r poolInv_empty (f_equal Ok E))
    as (H1 & H2 & _ & H4 & _).
  split; [exact H1 |]. split; [exact H2 | exact H4].
Defined.

(** ** The counters of the pool *)

Section PoolStats.

Import AudioBufferPool.

Lemma stats_step (p : Pool) (c : Call) (n : nat) :
  poolInv p ->
  created (stats p) = length (pool p)
  /\ currentPoolSize (stats p) = length (pool p)
  /\ (created (stats p) + reused (stats p) = n)%nat
  /\ NoDup (pool p) ->
  created (stats (step p c)) = length (pool (step p c))
  /\ currentPoolSize (stats (step p c)) = length (pool (step p c))
  /\ (created (stats (step p c)) + reused (stats (step p c))
      = acquireCalls [c] + n)%nat
  /\ NoDup (pool (step p c)).
Proof.
  intros [Hvalid _ _] (H1 & H2 & H3 & H4).
  destruct c as [size | buffer | buffer i v | size]; simpl.
  - unfold acquire. destruct (findFree p size (pool p)); simpl.
    + repeat split; try assumption; lia.
    + rewrite length_app. simpl. repeat split; try lia.
      apply NoDup_app. split; [exact H4 |]. split; [| apply NoDup_singleton].
      intros r Hr Hnew. apply list_elem_of_singleton in Hnew. subst r.
      specialize (Hvalid _ Hr). lia.
  - unfold release. destruct (bool_decide (buffer ∈ inUse p)); simpl;
      repeat split; assumption.
  - repeat split; assumption.
  - repeat split; assumption.
Qed.

Lemma stats_run (calls : list Call) : forall (p p' : Pool) (n : nat),
  poolInv p ->
  created (stats p) = length (pool p)
  /\ currentPoolSize (stats p) = length (pool p)
  /\ (created (stats p) + reused (stats p) = n)%nat
  /\ NoDup (pool p) ->
  run p calls = Some p' ->
  created (stats p') = length (pool p')
  /\ currentPoolSize (stats p') = length (pool p')
  /\ (created (stats p') + reused (stats p') = acquireCalls calls + n)%nat
  /\ NoDup (pool p').
Proof.
  induction calls as [|c rest IH]; intros p p' n Hinv Hst Hrun;
    simpl in Hrun.
  - injection Hrun as <-. exact Hst.
  - destruct (allowed p c) eqn:Ha; [| discriminate].
    pose proof (stats_step p c n Hinv Hst) as Hstep.
    pose proof (IH (step p c) p' _ (poolInv_step p c Ha Hinv) Hstep Hrun)
      as (R1 & R2 & R3 & R4).
    split; [exact R1 |]. split; [exact R2 |]. split; [| exact R4].
    rewrite R3. destruct c; simpl; lia.
Qed.

(** X10. After any sequence of calls on a new pool, the counter of created
    arrays and the recorded pool size both equal the number of arrays of the
    pool, which are pairwise different objects; created and reused arrays
    add up to the number of calls of [acquire]. The reuse ratio reported by
    [getStats] is NaN as long as [acquire] has not been called, and is a
    number from 0 up to, but not including, 1 afterwards. *)
Theorem pool_counters (calls : list Call) (p : Pool) :
  run empty calls = Some p ->
  created (stats p) = length (pool p)
  /\ currentPoolSize (stats p) = length (pool p)
  /\ NoDup (pool p)
  /\ (created (stats p) + reused (stats p))%nat = acquireCalls calls
  /\ fst (getStats p) = stats p
  /\ (acquireCalls calls = 0%nat -> snd (getStats p) = None)
  /\ ((0 < acquireCalls calls)%nat ->
      exists ratio, snd (getStats p) = Some ratio /\ (0 <= ratio < 1)%R).
Proof.
  intros Hrun.
  assert (Hempty : created (stats empty) = length (pool empty)
                   /\ currentPoolSize (stats empty) = length (pool empty)
                   /\ (created (stats empty) + reused (stats empty)
                       = 0)%nat
                   /\ NoDup (pool empty)).
  { simpl. repeat split. apply NoDup_nil_2. }
  destruct (stats_run calls empty p 0 poolInv_empty Hempty Hrun)
    as (H1 & H2 & H3 & H4).
  rewrite Nat.add_0_r in H3.
  split; [exact H1 |]. split; [exact H2 |]. split; [exact H4 |].
  split; [exact H3 |]. split; [reflexivity |].
  unfold getStats. cbv zeta. cbn [snd]. rewrite H3. split.
  - intros ->. reflexivity.
  - intros Hpos.
    destruct (Nat.eqb_spec (acquireCalls calls) 0) as [Hz | _]; [lia |].
    eexists. split; [reflexivity |].
    assert (Hc : (0 < created (stats p))%nat).
    { destruct (created (stats p)) eqn:Hcr; [| lia].
      exfalso. (* no array was created, so no array can have been reused *)
      assert (Hpool : pool p = []).
      { destruct (pool p); [reflexivity | simpl in H1; lia]. }
      assert (Hgen : forall calls q q',
                 run q calls = Some q' -> pool q' = [] ->
                 pool q = [] /\ (reused (stats q') = reused (stats q))).
      { clear. induction calls as [|c rest IH]; intros q q' Hrun Hnil;
          simpl in Hrun.
        - injection Hrun as <-. auto.
        - destruct (allowed q c); [| discriminate].
          destruct (IH _ _ Hrun Hnil) as [Hq Hr].
          destruct c as [size | buffer | buffer i v | size]; simpl in Hq, Hr.
          + unfold acquire in Hq.
            destruct (findFree q size (pool q)) eqn:Hf; simpl in Hq.
            * rewrite Hq in Hf. discriminate.
            * destruct (pool q); discriminate.
          + unfold release in Hq, Hr.
            destruct (bool_decide (buffer ∈ inUse q)); auto.
          + auto.
          + auto. }
      destruct (Hgen _ _ _ Hrun Hpool) as [_ Hr]. simpl in Hr.
      simpl in H3. lia. }
    assert (Hsum : (0 < INR (acquireCalls calls))%R).
    { apply lt_0_INR. exact Hpos. }
    split.
    + apply Rmult_le_pos; [apply pos_INR |].
      apply Rlt_le, Rinv_0_lt_compat. exact Hsum.
    + apply (Rmult_lt_reg_r (INR (acquireCalls calls))); [exact Hsum |].
      unfold Rdiv. rewrite Rmult_assoc, Rinv_l, Rmult_1_r, Rmult_1_l
        by lra.
      apply lt_INR. lia.
Qed.

End PoolStats.

Lemma pool_counters_witness :
  AudioBufferPool.run AudioBufferPool.empty exampleCalls = Some examplePool
  /\ (AudioBufferPool.created (AudioBufferPool.stats examplePool)
      + AudioBufferPool.reused (AudioBufferPool.stats examplePool))%nat
     = acquireCalls exampleCalls
  /\ exists ratio,
       snd (AudioBufferPool.getStats examplePool) = Some ratio
       /\ (0 <= ratio < 1)%R.
Proof.
  split; [reflexivity |].
  pose proof (pool_counters exampleCalls examplePool eq_refl)
    as (_ & _ & _ & H4 & _ & _ & H7).
  split; [exact H4 |]. apply H7. simpl. lia.
Defined.

(** * Properties of the movement presets *)

Section Boundaries.

Import MovementPresets.
Local Open Scope R_scope.

Lemma sqrt_scaled (x z k : R) :
  0 <= k ->
  sqrt (x * k * (x * k) + z * k * (z * k)) = k * sqrt (x * x + z * z).
Proof.
  intros Hk.
  replace (x * k * (x * k) + z * k * (z * k))
    with (k * k * (x * x + z * z)) by ring.
  rewrite sqrt_mult_alt by nra. rewrite sqrt_square by exact Hk.
  reflexivity.
Qed.

Lemma clamp_height (lo hi y : R) :
  lo <= hi -> lo <= Rmax lo (Rmin hi y) <= hi.
Proof.
  intros H. split; [apply Rmax_l |].
  apply Rmax_lub; [exact H | apply Rmin_l].
Qed.

(** The clamp of the radius, as both boundary functions have it. *)
Lemma radial_clamp (x z r : R) :
  0 <= r ->
  let distance := sqrt (x * x + z * z) in
  let xz := if Rlt_dec r distance
            then (x * (r / distance), z * (r / distance)) else (x, z) in
  sqrt (fst xz * fst xz + snd xz * snd xz) = Rmin distance r.
Proof.
  intros Hr. cbv zeta.
  destruct (Rlt_dec r (sqrt (x * x + z * z))) as [Hlt | Hge]; simpl.
  - rewrite sqrt_scaled.
    + rewrite Rmin_right by lra. field. lra.
    + apply Rmult_le_pos; [exact Hr |].
      apply Rlt_le, Rinv_0_lt_compat. lra.
  - rewrite Rmin_left by lra. reflexivity.
Qed.

Lemma applyExplorerBoundaries_inside (position : Vec3) (b : Boundaries) :
  0 <= radius b -> floor b <= ceiling b ->
  insideBoundaries b (applyExplorerBoundaries position b).
Proof.
  intros Hr Hfc. unfold applyExplorerBoundaries, insideBoundaries,
    axisDistance. cbv zeta.
  pose proof (radial_clamp (vx position) (vz position) (radius b) Hr) as Hc.
  cbv zeta in Hc.
  destruct (if Rlt_dec (radius b) _ then _ else _) as [x z] eqn:Hxz.
  simpl in *. split.
  - rewrite Hc. apply Rmin_r.
  - apply clamp_height. exact Hfc.
Qed.

(** The distance from the axis after [applySoftBoundaries]: the clamp of the
    radius, then the push out of the stage barrier, which divides by the
    distance or by 0.1, whichever is larger. *)
Lemma applySoftBoundaries_distance (position : Vec3) (b : Boundaries) :
  0 <= radius b ->
  let d := Rmin (axisDistance position) (radius b) in
  axisDistance (applySoftBoundaries position b)
  = if Rlt_dec 0 (stage_barrier b) then
      if Rlt_dec d (stage_barrier b)
      then d * (stage_barrier b / Rmax d 0.1) else d
    else d.
Proof.
  intros Hr. unfold applySoftBoundaries, axisDistance. cbv zeta.
  pose proof (radial_clamp (vx position) (vz position) (radius b) Hr) as Hc.
  cbv zeta in Hc.
  destruct (if Rlt_dec (radius b) _ then _ else _) as [x z] eqn:Hxz.
  simpl in Hc. rewrite <- Hc.
  destruct (Rlt_dec 0 (stage_barrier b)) as [Hsb | Hsb]; [| reflexivity].
  destruct (Rlt_dec (sqrt (x * x + z * z)) (stage_barrier b)) as [Hin | Hout];
    [| reflexivity].
  simpl. rewrite sqrt_scaled; [ring |].
  apply Rlt_le, Rdiv_lt_0_compat; [exact Hsb |].
  apply Rlt_le_trans with 0.1; [lra | apply Rmax_r].
Qed.

Lemma applySoftBoundaries_height (position : Vec3) (b : Boundaries) :
  vy (applySoftBoundaries position b)
  = Rmax (floor b) (Rmin (ceiling b) (vy position)).
Proof.
  unfold applySoftBoundaries. cbv zeta.
  destruct (if Rlt_dec (radius b) _ then _ else _) as [x z].
  destruct (if Rlt_dec 0 (stage_barrier b) then _ else _) as [x' z'].
  reflexivity.
Qed.

Lemma applySoftBoundaries_inside (position : Vec3) (b : Boundaries) :
  0 <= stage_barrier b <= radius b -> floor b <= ceiling b ->
  insideBoundaries b (applySoftBoundaries position b).
Proof.
  intros [Hsb Hr] Hfc. split.
  - rewrite applySoftBoundaries_distance by lra. cbv zeta.
    set (d := Rmin (axisDistance position) (radius b)).
    assert (Hd : 0 <= d <= radius b).
    { split; [| apply Rmin_r].
      apply Rmin_glb; [apply sqrt_pos | lra]. }
    destruct (Rlt_dec 0 (stage_barrier b)); [| lra].
    destruct (Rlt_dec d (stage_barrier b)); [| lra].
    assert (Hm : 0 < Rmax d 0.1).
    { apply Rlt_le_trans with 0.1; [lra | apply Rmax_r]. }
    assert (Hle : d / Rmax d 0.1 <= 1).
    { apply (Rmult_le_reg_r (Rmax d 0.1)); [exact Hm |].
      unfold Rdiv. rewrite Rmult_assoc, Rinv_l by lra.
      rewrite Rmult_1_r, Rmult_1_l. apply Rmax_l. }
    replace (d * (stage_barrier b / Rmax d 0.1))
      with (stage_barrier b * (d / Rmax d 0.1)) by (field; lra).
    apply Rle_trans with (stage_barrier b * 1); [| lra].
    apply Rmult_le_compat_l; lra.
  - rewrite applySoftBoundaries_height. apply clamp_height. exact Hfc.
Qed.

Lemma moved_back (position target : Vec3) :
  moved position
    (mkVec3 (vx target - vx position) (vy target - vy position)
            (vz target - vz position))
  = target.
Proof.
  unfold moved. destruct target as [x y z]. simpl. f_equal; ring.
Qed.

(** Where [processMovement] takes the listener: to the position that
    [applyConstraints] returns. *)
Lemma processMovement_lands (preset : Preset) (inputVector position : Vec3)
    (audioSources : list Point) :
  exists target,
    moved position
      (processMovement (Some preset) inputVector position audioSources)
    = applyConstraints preset target position audioSources.
Proof.
  unfold processMovement. cbv zeta.
  destruct (match horizontal_speed (movement preset) with
            | Some _ => _ | None => _ end) as [x z].
  eexists. apply moved_back.
Qed.

(** The presets whose constraints are the boundaries alone. *)
Lemma builtin_presets_inside (preset : Preset)
    (inputVector position : Vec3) (audioSources : list Point) :
  preset = explorer \/ preset = asymmetric \/ preset = stadium
  \/ (preset = venue /\ audioSources = []) ->
  let position' :=
    moved position
      (processMovement (Some preset) inputVector position audioSources) in
  axisDistance position' <= 30 /\ -10 <= vy position' <= 10.
Proof.
  intros Hpreset. cbv zeta.
  destruct (processMovement_lands preset inputVector position audioSources)
    as [target ->].
  unfold applyConstraints. cbv zeta.
  destruct Hpreset as [-> | [-> | [-> | [-> ->]]]]; simpl constraints.
  - apply (applyExplorerBoundaries_inside target (boundaries explorer));
      simpl; lra.
  - apply (applySoftBoundaries_inside target (boundaries asymmetric));
      simpl; lra.
  - apply (applySoftBoundaries_inside target (boundaries stadium));
      simpl; lra.
  - unfold applyVenueConstraints. simpl.
    apply (applySoftBoundaries_inside target (boundaries venue));
      simpl; lra.
Qed.

(** X11. With the presets Explorer, Asymmetric and Stadium, and with the
    preset Venue as long as there are no sources, a movement never takes the
    listener out of the cylinder of the preset: whatever the input and
    wherever the listener is, the position after the processed movement is
    at most 30 from the vertical axis and between -10 and 10 in height. *)
Theorem processMovement_stays_inside (preset : Preset)
    (inputVector position : Vec3) (audioSources : list Point) :
  preset = explorer \/ preset = asymmetric \/ preset = stadium
  \/ (preset = venue /\ audioSources = []) ->
  let position' :=
    moved position
      (processMovement (Some preset) inputVector position audioSources) in
  axisDistance position' <= 30 /\ -10 <= vy position' <= 10.
Proof.
  exact (builtin_presets_inside preset inputVector position audioSources).
Qed.

(** X12. The stage barrier of [applySoftBoundaries], for a barrier that is
    positive and not larger than the radius. A position at least 0.1 from
    the vertical axis ends at least as far from the axis as the barrier, and
    not farther than the radius. A position nearer than 0.1 to the axis, and
    inside the barrier, is moved away from the axis by the factor
    [stage_barrier / 0.1] only: it ends inside the barrier, and a position
    on the axis stays there. *)
Theorem stage_barrier_push (position : Vec3) (b : Boundaries) :
  0 < stage_barrier b <= radius b ->
  (0.1 <= axisDistance position ->
   stage_barrier b <= axisDistance (applySoftBoundaries position b)
   <= radius b)
  /\ (axisDistance position < 0.1 ->
      axisDistance position < stage_barrier b ->
      axisDistance (applySoftBoundaries position b)
      = axisDistance position * (stage_barrier b / 0.1)
      /\ axisDistance (applySoftBoundaries position b) < stage_barrier b).
Proof.
  intros [Hsb Hr].
  rewrite applySoftBoundaries_distance by lra. cbv zeta.
  set (d0 := axisDistance position).
  assert (Hd0 : 0 <= d0) by apply sqrt_pos.
  destruct (Rlt_dec 0 (stage_barrier b)) as [_ | Hn]; [| lra].
  split.
  - intros Hfar.
    destruct (Rle_dec d0 (radius b)) as [Hle | Hgt].
    + rewrite Rmin_left by exact Hle.
      destruct (Rlt_dec d0 (stage_barrier b)) as [Hin | Hout]; [| lra].
      rewrite Rmax_left by exact Hfar.
      replace (d0 * (stage_barrier b / d0)) with (stage_barrier b)
        by (field; lra).
      lra.
    + rewrite Rmin_right by lra.
      destruct (Rlt_dec (radius b) (stage_barrier b)); lra.
  - intros Hnear Hin.
    rewrite Rmin_left by lra.
    destruct (Rlt_dec d0 (stage_barrier b)) as [_ | Hout]; [| lra].
    rewrite Rmax_right by lra. split; [reflexivity |].
    replace (d0 * (stage_barrier b / 0.1))
      with (stage_barrier b * (d0 / 0.1)) by (field; lra).
    rewrite <- (Rmult_1_r (stage_barrier b)) at 2.
    apply Rmult_lt_compat_l; [exact Hsb |].
    apply (Rmult_lt_reg_r 0.1); [lra |].
    unfold Rdiv. rewrite Rmult_assoc, Rinv_l by lra. lra.
Qed.

Lemma pow2_mult (a : R) : a ^ 2 = a * a.
Proof. ring. Qed.

(** One push away from a source. *)
Lemma pushAway_distance (r : R) (constrained : Vec3) (sourcePos : Point) :
  0 <= r ->
  planeDistance (pushAway r constrained sourcePos) sourcePos = 0
  \/ r <= planeDistance (pushAway r constrained sourcePos) sourcePos.
Proof.
  intros Hr. unfold pushAway. cbv zeta.
  fold (planeDistance constrained sourcePos).
  destruct (Rlt_dec (planeDistance constrained sourcePos) r) as [Hin | Hout];
    [| right; lra].
  assert (Hlen : sqrt ((vx constrained - p0 sourcePos)
                       * (vx constrained - p0 sourcePos)
                       + (vz constrained - p2 sourcePos)
                         * (vz constrained - p2 sourcePos))
                 = planeDistance constrained sourcePos).
  { unfold planeDistance. rewrite !pow2_mult. reflexivity. }
  rewrite Hlen.
  destruct (Rlt_dec 0 (planeDistance constrained sourcePos)) as [Hpos | Hz].
  - right. unfold planeDistance at 1. cbn [vx vz]. rewrite !pow2_mult.
    set (L := planeDistance constrained sourcePos) in *.
    replace (p0 sourcePos + (vx constrained - p0 sourcePos) / L * r
             - p0 sourcePos)
      with ((vx constrained - p0 sourcePos) * (r / L)) by (field; lra).
    replace (p2 sourcePos + (vz constrained - p2 sourcePos) / L * r
             - p2 sourcePos)
      with ((vz constrained - p2 sourcePos) * (r / L)) by (field; lra).
    rewrite sqrt_scaled.
    + rewrite Hlen. replace (r / L * L) with r by (field; lra). lra.
    + apply Rmult_le_pos; [exact Hr |].
      apply Rlt_le, Rinv_0_lt_compat. exact Hpos.
  - left. pose proof (sqrt_pos ((vx constrained - p0 sourcePos) ^ 2
                                + (vz constrained - p2 sourcePos) ^ 2)).
    unfold planeDistance in *. lra.
Qed.

Lemma pushAway_height (r : R) (constrained : Vec3) (sourcePos : Point) :
  vy (pushAway r constrained sourcePos) = vy constrained.
Proof.
  unfold pushAway. cbv zeta.
  destruct (Rlt_dec _ r); [| reflexivity].
  destruct (Rlt_dec 0 _); reflexivity.
Qed.

(** X13. With the preset Venue, whatever the input, the listener does not
    end nearer than 0.8 to the last source of the list, measured in the
    horizontal plane, unless it ends exactly above or below it; its height
    ends between -10 and 10. *)
Theorem venue_source_barrier (inputVector position : Vec3)
    (earlier : list Point) (last : Point) :
  let position' :=
    moved position
      (processMovement (Some venue) inputVector position
         (earlier ++ [last])) in
  (planeDistance position' last = 0 \/ 0.8 <= planeDistance position' last)
  /\ -10 <= vy position' <= 10.
Proof.
  cbv zeta.
  destruct (processMovement_lands venue inputVector position
              (earlier ++ [last])) as [target ->].
  unfold applyConstraints. cbv zeta. simpl constraints.
  unfold applyVenueConstraints. cbv zeta. simpl source_barriers.
  assert (Hsome : exists s rest, earlier ++ [last] = s :: rest).
  { destruct earlier; simpl; eauto. }
  destruct Hsome as (s & rest & Hsources). rewrite Hsources. simpl enabled.
  cbv iota. rewrite <- Hsources. simpl barrier_radius.
  destruct (Req_dec_T 0.8 0) as [Hz | _]; [lra |].
  rewrite fold_left_app. simpl fold_left. split.
  - apply pushAway_distance. lra.
  - rewrite pushAway_height.
    assert (Hfold : forall sources c,
              vy (fold_left (pushAway 0.8) sources c) = vy c).
    { induction sources as [|s0 sources IH]; intros c; simpl;
        [reflexivity |].
      rewrite IH. apply pushAway_height. }
    rewrite Hfold, applySoftBoundaries_height. simpl.
    apply clamp_height. lra.
Qed.

(** X14. With the preset Elastic, the pull acts on the position that the
    boundaries return, toward the home position when there are no sources
    and else toward the nearest source. A position at most 6 from the target
    is left where it is. A position farther away is moved straight toward
    the target by a quarter of the excess over 6, and by at most 0.6: it
    ends nearer to the target, and still farther than 6 from it; its height
    is not changed. *)
Theorem elastic_pull (position currentPosition : Vec3)
    (audioSources : list Point) :
  let constrained := applySoftBoundaries position (boundaries elastic) in
  let target :=
    match audioSources with
    | [] => home_position elastic
    | _ => findNearestSource constrained audioSources
    end in
  let result :=
    applyElasticConstraints elastic position currentPosition
      (boundaries elastic) audioSources in
  let D := planeDistance constrained target in
  (D <= 6 -> result = constrained)
  /\ (6 < D ->
      planeDistance result target = D - Rmin ((D - 6) * 0.25) 0.6
      /\ 6 < planeDistance result target < D
      /\ vy result = vy constrained).
Proof.
  cbv zeta. unfold applyElasticConstraints. cbv zeta.
  set (constrained := applySoftBoundaries position (boundaries elastic)).
  set (target := match audioSources with
                 | [] => home_position elastic
                 | _ => findNearestSource constrained audioSources
                 end).
  fold (planeDistance constrained target).
  set (D := planeDistance constrained target).
  simpl pull_strength. simpl comfort_zone. simpl max_pull.
  unfold orElse.
  destruct (Rlt_dec 0 0.25) as [_ | Hn]; [| lra].
  destruct (Req_dec_T 6 0) as [Hz | _]; [lra |].
  destruct (Req_dec_T 0.6 0) as [Hz | _]; [lra |].
  destruct (Rlt_dec 6 D) as [Hfar | Hnear];
    (split; [intros Hle | intros Hgt]);
    [exfalso; lra | | reflexivity | exfalso; lra].
  - clear Hgt.
    set (f := Rmin ((D - 6) * 0.25) 0.6).
    assert (Hf : 0 < f <= (D - 6) * 0.25).
    { unfold f. split; [apply Rmin_glb_lt; lra | apply Rmin_l]. }
    assert (Hdist : planeDistance
                      (mkVec3
                         (vx constrained
                          + (p0 target - vx constrained) / D * f)
                         (vy constrained)
                         (vz constrained
                          + (p2 target - vz constrained) / D * f))
                      target
                    = D - f).
    { unfold planeDistance. cbn [vx vz]. rewrite !pow2_mult.
      replace (vx constrained + (p0 target - vx constrained) / D * f
               - p0 target)
        with ((vx constrained - p0 target) * (1 - f / D)) by (field; lra).
      replace (vz constrained + (p2 target - vz constrained) / D * f
               - p2 target)
        with ((vz constrained - p2 target) * (1 - f / D)) by (field; lra).
      rewrite sqrt_scaled.
      - replace (sqrt ((vx constrained - p0 target)
                       * (vx constrained - p0 target)
                       + (vz constrained - p2 target)
                         * (vz constrained - p2 target)))
          with D by (unfold D, planeDistance; rewrite !pow2_mult;
                     reflexivity).
        field. lra.
      - apply (Rmult_le_reg_r D); [lra |].
        replace ((1 - f / D) * D) with (D - f) by (field; lra). lra. }
    rewrite Hdist. split; [reflexivity |]. split; [lra | reflexivity].
Qed.

Lemma findNearestSource_loop (position : Vec3) (sources : list Point) :
  forall (nearest : Point) (minDistance : option R) (seen : list Point),
  match minDistance with
  | None => seen = []
  | Some d =>
      d = planeDistance position nearest /\ nearest ∈ seen
      /\ forall s, s ∈ seen -> d <= planeDistance position s
  end ->
  seen ++ sources <> [] ->
  let st :=
    fold_left (fun (st : Point * option R) (sourcePos : Point) =>
                 let '(nearestSource, minDistance) := st in
                 let distance :=
                   sqrt ((vx position - p0 sourcePos) ^ 2
                         + (vz position - p2 sourcePos) ^ 2) in
                 let nearer :=
                   match minDistance with
                   | None => true
                   | Some m => if Rlt_dec distance m then true else false
                   end in
                 if nearer then (sourcePos, Some distance)
                 else (nearestSource, minDistance))
              sources (nearest, minDistance) in
  fst st ∈ seen ++ sources
  /\ forall s, s ∈ seen ++ sources ->
       planeDistance position (fst st) <= planeDistance position s.
Proof.
  induction sources as [|sourcePos rest IH];
    intros nearest minDistance seen Hinv Hne; simpl.
  - rewrite app_nil_r in *.
    destruct minDistance as [d |]; [| contradiction].
    destruct Hinv as (-> & Hin & Hmin). split; assumption.
  - replace (seen ++ sourcePos :: rest) with ((seen ++ [sourcePos]) ++ rest)
      by (rewrite <- app_assoc; reflexivity).
    assert (Hne' : (seen ++ [sourcePos]) ++ rest <> []).
    { destruct seen; discriminate. }
    assert (Hd : sqrt ((vx position - p0 sourcePos)
                       * ((vx position - p0 sourcePos) * 1)
                       + (vz position - p2 sourcePos)
                         * ((vz position - p2 sourcePos) * 1))
                 = planeDistance position sourcePos) by reflexivity.
    destruct minDistance as [d |].
    + destruct Hinv as (-> & Hin & Hmin). rewrite Hd.
      destruct (Rlt_dec (planeDistance position sourcePos)
                  (planeDistance position nearest)) as [Hlt | Hge].
      * apply (IH sourcePos (Some (planeDistance position sourcePos))
                 (seen ++ [sourcePos])); [| exact Hne'].
        split; [reflexivity |]. split; [set_solver |].
        intros s Hs. apply elem_of_app in Hs as [Hs | Hs].
        -- specialize (Hmin s Hs). lra.
        -- apply list_elem_of_singleton in Hs. subst s. lra.
      * apply (IH nearest (Some (planeDistance position nearest))
                 (seen ++ [sourcePos])); [| exact Hne'].
        split; [reflexivity |]. split; [set_solver |].
        intros s Hs. apply elem_of_app in Hs as [Hs | Hs].
        -- exact (Hmin s Hs).
        -- apply list_elem_of_singleton in Hs. subst s. lra.
    + subst seen. rewrite Hd.
      apply (IH sourcePos (Some (planeDistance position sourcePos))
               ([] ++ [sourcePos])); [| exact Hne'].
      split; [reflexivity |]. split; [set_solver |].
      intros s Hs. apply list_elem_of_singleton in Hs. subst s. lra.
Qed.

(** X18. [findNearestSource] returns a source of the list that is nearest
    to the position in the horizontal plane: no source of the list is
    nearer. For an empty list it returns the origin. *)
Theorem findNearestSource_nearest (position : Vec3)
    (audioSources : list Point) :
  (audioSources <> [] ->
   findNearestSource position audioSources ∈ audioSources
   /\ forall s, s ∈ audioSources ->
        planeDistance position (findNearestSource position audioSources)
        <= planeDistance position s)
  /\ findNearestSource position [] = mkPoint 0 0 0.
Proof.
  split; [| reflexivity].
  intros Hne. unfold findNearestSource.
  destruct audioSources as [|first rest]; [contradiction |].
  exact (findNearestSource_loop position (first :: rest) first None []
           eq_refl Hne).
Qed.

End Boundaries.

Lemma findNearestSource_nearest_witness :
  MovementPresets.findNearestSource (MovementPresets.mkVec3 0 0 0)
    [MovementPresets.mkPoint 3 0 0; MovementPresets.mkPoint 1 0 0]
  ∈ [MovementPresets.mkPoint 3 0 0; MovementPresets.mkPoint 1 0 0].
Proof.
  refine (proj1 (proj1 (findNearestSource_nearest
                          (MovementPresets.mkVec3 0 0 0)
                          [MovementPresets.mkPoint 3 0 0;
                           MovementPresets.mkPoint 1 0 0]) _)).
  discriminate.
Defined.

Lemma stage_barrier_push_witness :
  (MovementPresets.stage_barrier
     (MovementPresets.boundaries MovementPresets.stadium)
   <= axisDistance
        (MovementPresets.applySoftBoundaries
           (MovementPresets.mkVec3 1 0 0)
           (MovementPresets.boundaries MovementPresets.stadium)))%R.
Proof.
  refine (proj1 (proj1 (stage_barrier_push (MovementPresets.mkVec3 1 0 0)
                          (MovementPresets.boundaries MovementPresets.stadium)
                          _) _)).
  - simpl. lra.
  - unfold axisDistance. simpl.
    replace (1 * 1 + 0 * 0)%R with (1 * 1)%R by ring.
    rewrite sqrt_square; lra.
Defined.

Lemma processMovement_stays_inside_witness :
  (axisDistance
     (moved (MovementPresets.mkVec3 29 0 0)
        (MovementPresets.processMovement (Some MovementPresets.explorer)
           (MovementPresets.mkVec3 5 100 0) (MovementPresets.mkVec3 29 0 0)
           []))
   <= 30)%R.
Proof.
  exact (proj1 (processMovement_stays_inside MovementPresets.explorer
                  (MovementPresets.mkVec3 5 100 0)
                  (MovementPresets.mkVec3 29 0 0) []
                  (or_introl eq_refl))).
Defined.

(** * Properties of the listener *)

Section Listener.

Import MovementPresets SpatialAudioEngine.
Local Open Scope R_scope.

(** X15. When the engine has movement presets and the current preset is
    Explorer, Asymmetric or Stadium, or Venue without sources, each of
    [moveListener], [moveListenerAbsolute] and [setListenerPosition] leaves
    the listener inside the cylinder of the presets, at most 30 from the
    vertical axis and between -10 and 10 in height, whatever its arguments
    and wherever the listener was. The audio context is given that position
    with the sign of X changed, and the rotation of the listener stays as it
    was. *)
Theorem listener_stays_inside (e e' : Engine) (preset : Preset)
    (a b c : R) :
  movementPresets e = Some (Some preset) ->
  preset = explorer \/ preset = asymmetric \/ preset = stadium
  \/ (preset = venue /\ audioSources e = []) ->
  e' = moveListener e a b c \/ e' = moveListenerAbsolute e a b c
  \/ e' = setListenerPosition e a b c ->
  (axisDistance (listenerPosition e') <= 30
   /\ -10 <= vy (listenerPosition e') <= 10)
  /\ listenerXYZ (listener e')
     = mkVec3 (- vx (listenerPosition e')) (vy (listenerPosition e'))
              (vz (listenerPosition e'))
  /\ listenerRotation e' = listenerRotation e.
Proof.
  intros Hpresets Hpreset He'.
  assert (Hgen : forall inputVector,
            let e0 :=
              updateListenerPosition e
                (vx (listenerPosition e)
                 + vx (processMovement (Some preset) inputVector
                         (listenerPosition e) (audioSources e)))
                (vy (listenerPosition e)
                 + vy (processMovement (Some preset) inputVector
                         (listenerPosition e) (audioSources e)))
                (vz (listenerPosition e)
                 + vz (processMovement (Some preset) inputVector
                         (listenerPosition e) (audioSources e))) in
            (axisDistance (listenerPosition e0) <= 30
             /\ -10 <= vy (listenerPosition e0) <= 10)
            /\ listenerXYZ (listener e0)
               = mkVec3 (- vx (listenerPosition e0))
                        (vy (listenerPosition e0)) (vz (listenerPosition e0))
            /\ listenerRotation e0 = listenerRotation e).
  { intros inputVector. cbv zeta. split; [| split; reflexivity].
    exact (builtin_presets_inside preset inputVector (listenerPosition e)
             (audioSources e) Hpreset). }
  destruct He' as [-> | [-> | ->]].
  - unfold moveListener, processed. cbv zeta. rewrite Hpresets.
    apply Hgen.
  - unfold moveListenerAbsolute, processed. cbv zeta. rewrite Hpresets.
    apply Hgen.
  - unfold setListenerPosition. cbv zeta. rewrite Hpresets.
    apply Hgen.
Qed.

(** X16. [updateListenerOrientation] gives the audio context a forward
    vector and an up vector of length 1, for every azimuth, elevation and
    roll. The up vector is perpendicular to the forward vector as it is
    before the sign of its X coordinate is changed. The position and the
    rotation of the listener stay as they were. *)
Theorem updateListenerOrientation_unit (e : Engine) :
  let e' := updateListenerOrientation e in
  let f := forwardXYZ (listener e') in
  let u := upXYZ (listener e') in
  vx f * vx f + vy f * vy f + vz f * vz f = 1
  /\ vx u * vx u + vy u * vy u + vz u * vz u = 1
  /\ - vx f * vx u + vy f * vy u + vz f * vz u = 0
  /\ listenerPosition e' = listenerPosition e
  /\ listenerRotation e' = listenerRotation e
  /\ listenerXYZ (listener e') = listenerXYZ (listener e).
Proof.
  cbv zeta. unfold updateListenerOrientation. cbv zeta. simpl.
  set (az := rotationAzimuth (listenerRotation e) * PI / 180).
  set (el := rotationElevation (listenerRotation e) * PI / 180).
  set (ro := rotationRoll (listenerRotation e) * PI / 180).
  pose proof (sin2_cos2 az) as Ha. pose proof (sin2_cos2 el) as He.
  pose proof (sin2_cos2 ro) as Hr. unfold Rsqr in Ha, He, Hr.
  set (sa := sin az) in *. set (ca := cos az) in *.
  set (se := sin el) in *. set (ce := cos el) in *.
  set (sr := sin ro) in *. set (cr := cos ro) in *.
  assert (Hup : (- sa * se * cr - ca * sr) * (- sa * se * cr - ca * sr)
                + ce * cr * (ce * cr)
                + (- ca * se * cr + sa * sr) * (- ca * se * cr + sa * sr)
                = 1).
  { replace ((- sa * se * cr - ca * sr) * (- sa * se * cr - ca * sr)
             + ce * cr * (ce * cr)
             + (- ca * se * cr + sa * sr) * (- ca * se * cr + sa * sr))
      with ((sa * sa + ca * ca) * (se * se * (cr * cr) + sr * sr)
            + ce * ce * (cr * cr)) by ring.
    rewrite Ha.
    replace (1 * (se * se * (cr * cr) + sr * sr) + ce * ce * (cr * cr))
      with ((se * se + ce * ce) * (cr * cr) + sr * sr) by ring.
    rewrite He. lra. }
  rewrite Hup, sqrt_1.
  destruct (Rlt_dec 0 1) as [_ | Hn]; [| lra].
  split.
  { replace (- (sa * ce) * - (sa * ce) + se * se + ca * ce * (ca * ce))
      with ((sa * sa + ca * ca) * (ce * ce) + se * se) by ring.
    rewrite Ha. lra. }
  split.
  { unfold Rdiv. rewrite Rinv_1, !Rmult_1_r. exact Hup. }
  split.
  { unfold Rdiv. rewrite Rinv_1, !Rmult_1_r.
    replace (- - (sa * ce) * (- sa * se * cr - ca * sr) + se * (ce * cr)
             + ca * ce * (- ca * se * cr + sa * sr))
      with (se * ce * cr * (1 - (sa * sa + ca * ca))) by ring.
    rewrite Ha. ring. }
  repeat split.
Qed.

(** X17. Without movement presets, [moveListener] turns the horizontal
    input by the azimuth of the listener and scales it by the move speed:
    the listener moves by 0.17 times the length of the horizontal input in
    the plane and by 0.17 times [dy] in height, and at azimuth 0 by 0.17
    times the input itself. The audio context is given the new position
    with the sign of X changed. *)
Theorem moveListener_free (e : Engine) (dx dy dz : R) :
  movementPresets e = None ->
  let e' := moveListener e dx dy dz in
  let stepX := vx (listenerPosition e') - vx (listenerPosition e) in
  let stepY := vy (listenerPosition e') - vy (listenerPosition e) in
  let stepZ := vz (listenerPosition e') - vz (listenerPosition e) in
  sqrt (stepX * stepX + stepZ * stepZ) = 0.17 * sqrt (dx * dx + dz * dz)
  /\ stepY = 0.17 * dy
  /\ (rotationAzimuth (listenerRotation e) = 0 ->
      stepX = 0.17 * dx /\ stepZ = 0.17 * dz)
  /\ listenerXYZ (listener e')
     = mkVec3 (- vx (listenerPosition e')) (vy (listenerPosition e'))
              (vz (listenerPosition e'))
  /\ listenerRotation e' = listenerRotation e.
Proof.
  intros Hnone. cbv zeta. unfold moveListener, processed. cbv zeta.
  rewrite Hnone. simpl. unfold moveSpeed.
  set (az := rotationAzimuth (listenerRotation e) * PI / 180).
  pose proof (sin2_cos2 az) as Ha. unfold Rsqr in Ha.
  split.
  { replace (vx (listenerPosition e)
             + (dx * cos az - dz * sin az) * 0.17 - vx (listenerPosition e))
      with ((dx * cos az - dz * sin az) * 0.17) by ring.
    replace (vz (listenerPosition e)
             + (dx * sin az + dz * cos az) * 0.17 - vz (listenerPosition e))
      with ((dx * sin az + dz * cos az) * 0.17) by ring.
    rewrite sqrt_scaled by lra. f_equal. f_equal.
    replace ((dx * cos az - dz * sin az) * (dx * cos az - dz * sin az)
             + (dx * sin az + dz * cos az) * (dx * sin az + dz * cos az))
      with ((sin az * sin az + cos az * cos az) * (dx * dx + dz * dz))
      by ring.
    rewrite Ha. ring. }
  split; [ring |]. split; [| split; reflexivity].
  intros Hzero. unfold az. rewrite Hzero.
  replace (0 * PI / 180) with 0 by field.
  rewrite cos_0, sin_0. split; ring.
Qed.

End Listener.

Lemma listener_stays_inside_witness :
  (axisDistance
     (SpatialAudioEngine.listenerPosition
        (SpatialAudioEngine.moveListener exampleEngine 0 1000 1000))
   <= 30)%R.
Proof.
  exact (proj1 (proj1 (listener_stays_inside exampleEngine _
                         MovementPresets.explorer 0 1000 1000 eq_refl
                         (or_introl eq_refl) (or_introl eq_refl)))).
Defined.

Lemma moveListener_free_witness :
  (MovementPresets.vy
     (SpatialAudioEngine.listenerPosition
        (SpatialAudioEngine.moveListener freeEngine 1 1 0))
   - MovementPresets.vy (SpatialAudioEngine.listenerPosition freeEngine)
   = 0.17 * 1)%R.
Proof.
  exact (proj1 (proj2 (moveListener_free freeEngine 1 1 0 eq_refl))).
Defined.

(** * Further properties of the virtual speakers *)

Section Speakers.

Import SpatialAudioEngine.
Local Open Scope R_scope.

Lemma order_at_least (k numChannels : nat) :
  INR k <= orderOf numChannels <-> ((k + 1) * (k + 1) <= numChannels)%nat.
Proof.
  rewrite order_loop_test. rewrite Nat.sqrt_le_square. lia.
Qed.

(** X19. The layout of the virtual speakers follows from the number of
    channels: 20 speakers from 16 channels on, 12 speakers from 9 to 15
    channels, and 8 speakers below. In each layout the gains of the speakers
    add up to 1. *)
Theorem speaker_layout (numChannels : nat) :
  let speakers := getVirtualSpeakerConfig (orderOf numChannels) in
  length speakers
  = (if (16 <=? numChannels)%nat then 20
     else if (9 <=? numChannels)%nat then 12 else 8)%nat
  /\ fold_right Rplus 0 (map gain speakers) = 1.
Proof.
  cbv zeta. unfold getVirtualSpeakerConfig.
  pose proof (order_at_least 3 numChannels) as H3.
  pose proof (order_at_least 2 numChannels) as H2.
  change (INR 3) with (1 + 1 + 1) in H3. change (INR 2) with (1 + 1) in H2.
  assert (H20 : INR 20 = 20) by (simpl; lra).
  destruct (Rle_dec 3 (orderOf numChannels)) as [Hge3 | Hlt3].
  - assert ((16 <=? numChannels)%nat = true) as ->.
    { apply Nat.leb_le. apply H3. lra. }
    split; [reflexivity |].
    unfold getIcosahedralSpeakers. cbv zeta. rewrite map_map.
    cbn [map gain length fold_right]. rewrite H20. lra.
  - assert ((16 <=? numChannels)%nat = false) as ->.
    { apply Nat.leb_gt. apply Nat.nle_gt. intros Hle. apply Hlt3.
      simpl in H3. apply H3 in Hle. lra. }
    destruct (Rle_dec 2 (orderOf numChannels)) as [Hge2 | Hlt2].
    + assert ((9 <=? numChannels)%nat = true) as ->.
      { apply Nat.leb_le. apply H2. lra. }
      split; [reflexivity |].
      unfold getDodecahedralSpeakers. rewrite map_map.
      cbn [map gain seq fold_right]. lra.
    + assert ((9 <=? numChannels)%nat = false) as ->.
      { apply Nat.leb_gt. apply Nat.nle_gt. intros Hle. apply Hlt2.
        simpl in H2. apply H2 in Hle. lra. }
      split; [reflexivity |].
      unfold getCubeSpeakers. cbn [map gain fold_right]. lra.
Qed.

(** X20. The analytic HRTF is mirror symmetric: for a source at the opposite
    azimuth, the gain of the left ear is the gain the right ear has for the
    source itself, and the other way round, and the time difference between
    the ears changes its sign. *)
Theorem getHRTF_mirror (azimuth elevation : R) :
  left (getHRTF (- azimuth) elevation) = right (getHRTF azimuth elevation)
  /\ right (getHRTF (- azimuth) elevation)
     = left (getHRTF azimuth elevation)
  /\ itd (getHRTF (- azimuth) elevation)
     = - itd (getHRTF azimuth elevation).
Proof.
  unfold getHRTF. cbv zeta. cbn [left right itd].
  replace (- azimuth + PI / 2) with (- (azimuth - PI / 2)) by ring.
  replace (- azimuth - PI / 2) with (- (azimuth + PI / 2)) by ring.
  rewrite !cos_neg, !sin_neg.
  split; [| split].
  - f_equal.
    destruct (Rlt_dec 0 (- azimuth)) as [H1 | H1];
      destruct (Rlt_dec azimuth 0) as [H2 | H2]; try lra; ring.
  - f_equal.
    destruct (Rlt_dec (- azimuth) 0) as [H1 | H1];
      destruct (Rlt_dec 0 azimuth) as [H2 | H2]; try lra; ring.
  - ring.
Qed.

End Speakers.

(** * The binaural decode *)

Section Binaural.

Import AudioBufferPool SpatialAudioEngine.

#[local] Existing Instance Speaker_inhabited.

Lemma acquire_zeros (p : Pool) (size : nat) :
  poolInv p ->
  store (snd (acquire p size)) !! fst (acquire p size) = Some (zeros size).
Proof.
  intros [Hvalid HinUse Hzero]. unfold acquire.
  destruct (findFree p size (pool p)) as [b |] eqn:Hfind; simpl.
  - apply findFree_Some in Hfind as (Hb & Hlen & Hfree).
    destruct (Hzero b Hb Hfree) as [n Hn].
    unfold bufferLength in Hlen. unfold Ref in *. rewrite Hn in Hlen.
    simpl in Hlen. injection Hlen as Hlen.
    rewrite length_zeros in Hlen. subst n. exact Hn.
  - rewrite lookup_app_r by lia. rewrite Nat.sub_diag. reflexivity.
Qed.

(** The loop over the samples of one speaker fills its array. *)
Lemma write_loop_content (o : Ref) (f : nat -> f32) (k : nat) :
  forall (i : nat) (c : list f32) (p : Pool),
  store p !! o = Some c -> (i + k <= length c)%nat ->
  store (fold_left (fun p s => write p o s (f s)) (seq i k) p) !! o
  = Some (writeFrom c i (map f (seq i k))).
Proof.
  induction k as [|k IH]; intros i c p Hc Hlen; simpl.
  - rewrite writeFrom_nil. exact Hc.
  - rewrite (IH (S i) (<[i := f i]> c)).
    + rewrite writeFrom_cons by lia. reflexivity.
    + simpl. rewrite list_lookup_alter_eq. unfold Ref in *. rewrite Hc.
      reflexivity.
    + rewrite length_insert. lia.
Qed.

(** One speaker: an array is acquired and filled; the arrays of the
    speakers before keep what they hold. *)
Lemma speaker_step (audioData : list (list f32)) (numSamples : nat)
    (speaker : Speaker) (done : list Speaker) (outputs : list Ref)
    (q : Pool) :
  poolInv q ->
  speakersDone audioData numSamples q done outputs ->
  let output := fst (acquire q numSamples) in
  let q2 :=
    fold_left (fun p (sample : nat) =>
                 write p output sample
                   (speakerSample audioData speaker sample))
              (seq 0 numSamples) (snd (acquire q numSamples)) in
  poolInv q2
  /\ speakersDone audioData numSamples q2 (done ++ [speaker])
       (outputs ++ [output]).
Proof.
  intros Hinv Hdone. cbv zeta.
  destruct (acquire_fresh q numSamples Hinv) as (A1 & A2 & A3 & _).
  pose proof (poolInv_acquire q numSamples Hinv) as A5.
  pose proof (acquire_zeros q numSamples Hinv) as A6.
  set (output := fst (acquire q numSamples)) in *.
  set (q1 := snd (acquire q numSamples)) in *.
  set (f := speakerSample audioData speaker).
  destruct (write_loop output f (seq 0 numSamples) q1)
    as (W1 & W2 & W3 & W4).
  assert (Hout : output ∈ inUse q1) by (rewrite A2; set_solver).
  pose proof (poolInv_write_loop output f (seq 0 numSamples) q1 A5 Hout)
    as W5.
  pose proof (write_loop_content output f numSamples 0 (zeros numSamples)
                q1 A6) as W6.
  rewrite length_zeros in W6. specialize (W6 (Nat.le_refl _)).
  rewrite writeFrom_all in W6
    by (rewrite length_map, length_seq, length_zeros; reflexivity).
  split; [exact W5 |].
  unfold speakersDone. apply Forall2_app.
  - eapply Forall2_impl; [exact Hdone |].
    intros spk o [Hheld Hso]. simpl.
    assert (Hne : o <> output) by (intros ->; contradiction).
    split.
    + rewrite W2, A2. set_solver.
    + rewrite W4 by exact Hne. rewrite A3 by exact Hheld. exact Hso.
  - constructor; [| constructor]. split; [rewrite W2; exact Hout |].
    exact W6.
Qed.

Lemma decodeToVirtualSpeakers_contents (audioData : list (list f32))
    (numSamples : nat) (speakers : list Speaker) :
  forall (done : list Speaker) (outputs : list Ref) (q : Pool),
  poolInv q ->
  speakersDone audioData numSamples q done outputs ->
  let st :=
    fold_left (fun (st : list Ref * Pool) (speaker : Speaker) =>
      let '(outputs, p) := st in
      let '(output, p) := acquire p numSamples in
      let shCoeffs := computeSphericalHarmonics (azimuth speaker)
                        (elevation speaker) (length audioData) in
      let p :=
        fold_left (fun p (sample : nat) =>
          write p output sample
                (decodeSample audioData shCoeffs (gain speaker) sample))
          (seq 0 numSamples) p in
      (outputs ++ [output], p))
      speakers (outputs, q) in
  speakersDone audioData numSamples (snd st) (done ++ speakers) (fst st).
Proof.
  induction speakers as [|speaker rest IH];
    intros done outputs q Hinv Hdone; cbn [fold_left].
  - rewrite app_nil_r. exact Hdone.
  - destruct (speaker_step audioData numSamples speaker done outputs q
                Hinv Hdone) as [S1 S2].
    destruct (acquire q numSamples) as [output q1] eqn:Hacq.
    cbn [fst snd] in S1, S2. cbv zeta.
    replace (done ++ speaker :: rest) with ((done ++ [speaker]) ++ rest)
      by (rewrite <- app_assoc; reflexivity).
    exact (IH (done ++ [speaker]) (outputs ++ [output]) _ S1 S2).
Qed.

(** The loop over the samples of [applySpatialHRTF] for one speaker: each
    sample of both channels gets its own term added. *)
Lemma accumulate_loop (output : list f32) (a b : R) (k : nat) :
  forall (i : nat) (l r : list f32),
  (i + k <= length l)%nat -> (i + k <= length r)%nat ->
  fold_left (fun (st : list f32 * list f32) (i : nat) =>
               let '(l, r) := st in
               (<[i := fadd (elem l i) (fmul (elem output i) (Some a))]> l,
                <[i := fadd (elem r i) (fmul (elem output i) (Some b))]> r))
            (seq i k) (l, r)
  = (writeFrom l i
       (map (fun j => fadd (elem l j) (fmul (elem output j) (Some a)))
            (seq i k)),
     writeFrom r i
       (map (fun j => fadd (elem r j) (fmul (elem output j) (Some b)))
            (seq i k))).
Proof.
  induction k as [|k IH]; intros i l r Hl Hr; simpl.
  - rewrite !writeFrom_nil. reflexivity.
  - rewrite IH by (rewrite length_insert; lia).
    rewrite <- !writeFrom_cons by lia.
    assert (Hext : forall (c : list f32) (v : f32) (g : f32 -> nat -> f32),
              map (fun j => g (elem (<[i := v]> c) j) j) (seq (S i) k)
              = map (fun j => g (elem c j) j) (seq (S i) k)).
    { intros c v g. apply map_ext_in. intros j Hj. apply in_seq in Hj.
      unfold elem. rewrite list_lookup_insert_ne by lia. reflexivity. }
    rewrite (Hext l _ (fun x j => fadd x (fmul (elem output j) (Some a)))).
    rewrite (Hext r _ (fun x j => fadd x (fmul (elem output j) (Some b)))).
    reflexivity.
Qed.

Lemma elem_map_seq (f : nat -> f32) (n i : nat) :
  (i < n)%nat -> elem (map f (seq 0 n)) i = f i.
Proof.
  intros Hi. unfold elem. rewrite list_lookup_fmap.
  rewrite lookup_seq_lt by exact Hi. reflexivity.
Qed.

Lemma binauralSample_snoc (ear : HRTF -> R) (audioData : list (list f32))
    (speakers : list Speaker) (speaker : Speaker) (sample : nat) :
  binauralSample ear audioData (speakers ++ [speaker]) sample
  = fadd (binauralSample ear audioData speakers sample)
         (fmul (speakerSample audioData speaker sample)
               (Some (ear (getHRTF (azimuth speaker) (elevation speaker))))).
Proof.
  unfold binauralSample. rewrite fold_left_app. reflexivity.
Qed.

Lemma zeros_as_map (n : nat) :
  zeros n = map (fun _ : nat => Some 0%R) (seq 0 n).
Proof.
  unfold zeros. generalize 0%nat.
  induction n as [|n IH]; intros i; simpl; [reflexivity |].
  f_equal. apply IH.
Qed.

(** The loop over the speakers of [applySpatialHRTF]. *)
Lemma applySpatialHRTF_sums (audioData : list (list f32)) (numSamples : nat)
    (q : Pool) (speakers : list Speaker) (outputs : list Ref) (k : nat) :
  speakersDone audioData numSamples q speakers outputs ->
  (k <= length speakers)%nat ->
  fold_left (fun (st : list f32 * list f32) (spkIdx : nat) =>
      let '(l, r) := st in
      let speaker := speakers !!! spkIdx in
      let output := default [] (outputs !! spkIdx ≫= (store q !!.)) in
      let hrtf := getHRTF (azimuth speaker) (elevation speaker) in
      fold_left (fun (st : list f32 * list f32) (i : nat) =>
        let '(l, r) := st in
        (<[i := fadd (elem l i) (fmul (elem output i) (Some (left hrtf)))]> l,
         <[i := fadd (elem r i) (fmul (elem output i) (Some (right hrtf)))]> r))
        (seq 0 numSamples) (l, r))
      (seq 0 k) (zeros numSamples, zeros numSamples)
  = (map (binauralSample left audioData (take k speakers))
         (seq 0 numSamples),
     map (binauralSample right audioData (take k speakers))
         (seq 0 numSamples)).
Proof.
  intros Hdone. induction k as [|k IH]; intros Hk.
  - simpl. rewrite zeros_as_map. reflexivity.
  - rewrite seq_S, fold_left_app, IH by lia. cbn [fold_left Nat.add].
    destruct (lookup_lt_is_Some_2 speakers k ltac:(lia)) as [speaker Hsp].
    destruct (Forall2_lookup_l _ _ _ _ _ Hdone Hsp)
      as (output & Hout & _ & Hcontent).
    rewrite (list_lookup_total_correct _ _ _ Hsp).
    unfold Ref in *. rewrite Hout. cbn [mbind option_bind].
    rewrite Hcontent. cbn [default from_option Datatypes.id].
    cbv zeta.
    rewrite accumulate_loop
      by (rewrite length_map, length_seq; lia).
    rewrite !writeFrom_all by (rewrite !length_map; reflexivity).
    rewrite (take_S_r _ _ _ Hsp).
    f_equal; apply map_ext_in; intros i Hi; apply in_seq in Hi;
      rewrite binauralSample_snoc, !elem_map_seq by lia; reflexivity.
Qed.


End Binaural.


(** * Properties of the file loader *)

Section Loader.

Import UniversalFileLoader.

Lemma substring_full (s : string) : substring 0 (String.length s) s = s.
Proof.
  induction s as [|c s IH]; simpl; [reflexivity |]. rewrite IH. reflexivity.
Qed.

Lemma substring_append_r (stem suffix : string) :
  substring (String.length stem) (String.length suffix)
            (stem ++ suffix)%string
  = suffix.
Proof.
  induction stem as [|c stem IH]; simpl; [apply substring_full | exact IH].
Qed.

Lemma string_length_append (a b : string) :
  String.length (a ++ b)%string = (String.length a + String.length b)%nat.
Proof.
  induction a as [|c a IH]; simpl; [reflexivity |]. rewrite IH. reflexivity.
Qed.

Lemma substring_split (s : string) :
  forall n : nat, (n <= String.length s)%nat ->
  s = (substring 0 n s ++ substring n (String.length s - n) s)%string.
Proof.
  induction s as [|c s IH]; intros n Hn; simpl in Hn.
  - assert (n = 0%nat) as -> by lia. reflexivity.
  - destruct n as [|n].
    + cbn [substring]. rewrite Nat.sub_0_r.
      change (String.length (String c s)) with (S (String.length s)).
      cbn [substring]. rewrite substring_full. reflexivity.
    + simpl.
      change (String c s
              = String c (substring 0 n s
                          ++ substring n (String.length s - n) s)%string).
      f_equal. apply IH. lia.
Qed.

(** [endsWith suffix s] holds exactly when [s] is some text followed by
    [suffix]. *)
Lemma endsWith_spec (suffix s : string) :
  endsWith suffix s = true <-> exists stem, s = (stem ++ suffix)%string.
Proof.
  unfold endsWith. rewrite andb_true_iff, Nat.leb_le, String.eqb_eq. split.
  - intros [Hlen Hsub].
    exists (substring 0 (String.length s - String.length suffix) s).
    pose proof (substring_split s
                  (String.length s - String.length suffix) ltac:(lia)) as H.
    replace (String.length s - (String.length s - String.length suffix))%nat
      with (String.length suffix) in H by lia.
    rewrite Hsub in H. exact H.
  - intros [stem ->]. rewrite string_length_append. split; [lia |].
    replace (String.length stem + String.length suffix
             - String.length suffix)%nat
      with (String.length stem) by lia.
    apply substring_append_r.
Qed.

Variable toLowerCase : string -> string.

(** X22. [validateFile] accepts a file exactly when it has at most
    2147483648 bytes and its name, in lower case, is some text followed by
    [.shac] or by [.zyz]. The size is checked first: a larger file is
    rejected as too large whatever its name. [getFileExtension] returns
    nothing but [.shac] and [.zyz], so the error for an unsupported format
    is never thrown. *)
Theorem validateFile_accepts (size : Z) (name : string) :
  (validateFile toLowerCase size name = Returned true
   <-> (size <= 2147483648)%Z
       /\ exists stem,
            toLowerCase name = (stem ++ ".shac")%string
            \/ toLowerCase name = (stem ++ ".zyz")%string)
  /\ ((2147483648 < size)%Z ->
      validateFile toLowerCase size name = Thrown FileTooLarge)
  /\ (forall extension,
        validateFile toLowerCase size name
        <> Thrown (UnsupportedFormat extension))
  /\ (forall extension,
        getFileExtension toLowerCase name = Returned extension ->
        extension = ".shac"%string \/ extension = ".zyz"%string).
Proof.
  unfold validateFile, getFileExtension. cbv zeta.
  change (2 * 1024 * 1024 * 1024)%Z with 2147483648%Z.
  pose proof (endsWith_spec ".shac" (toLowerCase name)) as Hshac.
  pose proof (endsWith_spec ".zyz" (toLowerCase name)) as Hzyz.
  destruct (Z.ltb_spec 2147483648 size) as [Hbig | Hsmall].
  - split; [split; [discriminate | intros [H _]; lia] |].
    split; [reflexivity |]. split; [discriminate |].
    destruct (endsWith ".shac" (toLowerCase name));
      [intros ? [= <-]; auto |].
    destruct (endsWith ".zyz" (toLowerCase name));
      [intros ? [= <-]; auto | discriminate].
  - destruct (endsWith ".shac" (toLowerCase name)) eqn:E1.
    + split; [split; [intros _ | reflexivity] |].
      { split; [exact Hsmall |].
        destruct (proj1 Hshac eq_refl) as [stem Hstem]. eauto. }
      split; [lia |]. split; [discriminate |]. intros ? [= <-]. auto.
    + destruct (endsWith ".zyz" (toLowerCase name)) eqn:E2.
      * split; [split; [intros _ | reflexivity] |].
        { split; [exact Hsmall |].
          destruct (proj1 Hzyz eq_refl) as [stem Hstem]. eauto. }
        split; [lia |]. split; [discriminate |]. intros ? [= <-]. auto.
      * split; [split; [discriminate |] |].
        { intros [_ [stem [Hstem | Hstem]]].
          - assert (false = true) by (apply Hshac; eauto). discriminate.
          - assert (false = true) by (apply Hzyz; eauto). discriminate. }
        split; [lia |]. split; discriminate.
Qed.

End Loader.

Lemma validateFile_accepts_witness :
  UniversalFileLoader.validateFile (fun s => s) 3000000000 "a.shac"
  = UniversalFileLoader.Thrown UniversalFileLoader.FileTooLarge.
Proof.
  apply (proj1 (proj2 (validateFile_accepts (fun s => s) 3000000000
                         "a.shac"))).
  lia.
Defined.

(** * The preset Explorer away from its boundaries *)

Section Explorer.

Import MovementPresets.
Local Open Scope R_scope.

(** X23. With the preset Explorer the input is scaled by 1.2 in the
    horizontal plane and by 0.8 in height. When the position this leads to
    is inside the cylinder, the movement returned is the scaled input, and
    the sources play no part. When that position is farther than 30 from
    the vertical axis, the listener ends exactly 30 from the axis. *)
Theorem explorer_free_movement (inputVector position : Vec3)
    (audioSources : list Point) :
  let scaled :=
    mkVec3 (vx inputVector * 1.2) (vy inputVector * 0.8)
           (vz inputVector * 1.2) in
  let result :=
    processMovement (Some explorer) inputVector position audioSources in
  (insideBoundaries (boundaries explorer) (moved position scaled) ->
   result = scaled)
  /\ (30 < axisDistance (moved position scaled) ->
      axisDistance (moved position result) = 30).
Proof.
  cbv zeta. split.
  - intros [Hr [Hlo Hhi]].
    unfold processMovement, applyConstraints, applyExplorerBoundaries.
    cbn [explorer movement horizontal_speed vertical_speed constraints
         boundaries radius floor ceiling vx vy vz].
    unfold axisDistance, moved in Hr. cbn [vx vy vz explorer boundaries
      radius] in Hr.
    unfold moved in Hlo, Hhi.
    cbn [vx vy vz explorer boundaries floor ceiling] in Hlo, Hhi.
    destruct (Rlt_dec 30 _) as [Hout | _]; [lra |].
    cbn [vx vy vz].
    rewrite Rmin_right by lra. rewrite Rmax_right by lra.
    f_equal; ring.
  - intros Hfar.
    destruct (processMovement_lands explorer inputVector position
                audioSources) as [target Htarget].
    unfold processMovement in *. unfold applyConstraints in *.
    cbn [explorer movement horizontal_speed vertical_speed constraints
         boundaries] in *.
    rewrite moved_back.
    unfold moved in Hfar. cbn [vx vy vz] in Hfar.
    set (target' := mkVec3 (vx position + vx inputVector * 1.2)
                           (vy position + vy inputVector * 0.8)
                           (vz position + vz inputVector * 1.2)) in *.
    unfold applyExplorerBoundaries, axisDistance. cbv zeta.
    pose proof (radial_clamp (vx target') (vz target') 30 ltac:(lra)) as Hc.
    cbv zeta in Hc. cbn [radius].
    destruct (if Rlt_dec 30 _ then _ else _) as [x z] eqn:Hxz.
    cbn [vx vz fst snd] in *. rewrite Hc.
    apply Rmin_right. unfold axisDistance in Hfar. lra.
Qed.

End Explorer.

Lemma explorer_free_movement_witness :
  MovementPresets.processMovement (Some MovementPresets.explorer)
    (MovementPresets.mkVec3 1 1 0) (MovementPresets.mkVec3 0 0 0) []
  = MovementPresets.mkVec3 (1 * 1.2) (1 * 0.8) (0 * 1.2).
Proof.
  apply (proj1 (explorer_free_movement (MovementPresets.mkVec3 1 1 0)
                  (MovementPresets.mkVec3 0 0 0) [])).
  unfold insideBoundaries, axisDistance, moved. simpl. split; [| lra].
  replace ((0 + 1 * 1.2) * (0 + 1 * 1.2) + (0 + 0 * 1.2) * (0 + 0 * 1.2))%R
    with (1.2 * 1.2)%R by ring.
  rewrite sqrt_square; lra.
Defined.

(** * The basis of the renderer above degree 3 *)

Section HighOrder.

Import SpatialAudioEngine.
Local Open Scope R_scope.

Lemma factorial_fact (n : nat) : factorial n = INR (fact n).
Proof.
  unfold factorial. destruct (Nat.leb_spec n 1) as [Hle | Hgt].
  - destruct n as [|[|n]]; [simpl; lra | simpl; lra | lia].
  - assert (Hloop : forall k : nat,
              fold_left (fun result (i : nat) => result * INR i)
                        (seq 2 k) 1
              = INR (fact (S k))).
    { induction k as [|k IH]; [simpl; lra |].
      rewrite seq_S, fold_left_app, IH. cbn [fold_left].
      change (2 + k)%nat with (S (S k)).
      rewrite (fact_simpl (S k)), mult_INR. ring. }
    rewrite Hloop. f_equal. f_equal. lia.
Qed.

Lemma Math_pow_half (b : R) (l : nat) :
  0 <= b -> Math_pow b (INR l / 2) = sqrt b ^ l.
Proof.
  intros Hb. unfold Math_pow.
  destruct (Req_dec_T (INR l / 2) 0) as [Hz | Hnz].
  - assert (l = 0%nat) as ->.
    { apply INR_eq. simpl. lra. }
    reflexivity.
  - assert (Hl : (0 < l)%nat).
    { destruct l; [exfalso; apply Hnz; simpl; lra | lia]. }
    destruct (Rlt_dec 0 b) as [Hpos | Hzero].
    + replace (INR l / 2) with (/ 2 * INR l) by field.
      rewrite <- Rpower_mult, Rpower_sqrt by exact Hpos.
      apply Rpower_pow. apply sqrt_lt_R0. exact Hpos.
    + assert (b = 0) as -> by lra.
      rewrite sqrt_0, pow_i by exact Hl. reflexivity.
Qed.

Lemma associatedLegendre_diag_seed (l : nat) (x : R) :
  -1 <= x <= 1 -> associatedLegendre_diag l x = Spec.legendreSeed l x.
Proof.
  intros Hx. unfold associatedLegendre_diag, Spec.legendreSeed. cbv zeta.
  rewrite Math_pow_half by nra. f_equal.
  assert (Hloop : forall (k : nat) (a : R),
            fold_left (fun result (i : nat) => result * (2 * INR i - 1))
                      (seq 1 k) a
            = a * Spec.oddDoubleFactorial k).
  { induction k as [|k IH]; intros a; [simpl; ring |].
    rewrite seq_S, fold_left_app, IH. cbn [fold_left Spec.oddDoubleFactorial].
    change (1 + k)%nat with (S k). ring. }
  apply Hloop.
Qed.

Lemma associatedLegendre_loop (m : nat) (x : R) (k : nat) :
  fold_left (fun (st : R * R) (ll : nat) =>
               let '(Plm_prev, Plm_curr) := st in
               let Plm_next :=
                 ((2 * INR ll - 1) * x * Plm_curr
                  - (INR ll + INR m - 1) * Plm_prev) / (INR ll - INR m) in
               (Plm_curr, Plm_next))
            (seq (m + 2) k)
            (Spec.legendreSeed m x,
             x * (2 * INR m + 1) * Spec.legendreSeed m x)
  = Spec.legendreClimb m k x.
Proof.
  induction k as [|k IH]; [reflexivity |].
  rewrite seq_S, fold_left_app, IH. cbn [fold_left Spec.legendreClimb].
  destruct (Spec.legendreClimb m k x) as [p0 p1].
  replace (m + 2 + k)%nat with (m + k + 2)%nat by lia. reflexivity.
Qed.

Lemma legendreClimb_shift (m k : nat) (x : R) :
  fst (Spec.legendreClimb m (S k) x) = snd (Spec.legendreClimb m k x).
Proof.
  simpl. destruct (Spec.legendreClimb m k x). reflexivity.
Qed.

(** The renderer's [associatedLegendre] computes the associated Legendre
    function of the three-term recurrence. *)
Lemma associatedLegendre_recurrence (l m : nat) (x : R) :
  (m <= l)%nat -> -1 <= x <= 1 ->
  associatedLegendre l m x = Spec.associatedLegendre l m x.
Proof.
  intros Hml Hx. unfold associatedLegendre, Spec.associatedLegendre.
  destruct (Nat.eqb_spec l m) as [-> | Hne].
  - rewrite Nat.sub_diag. simpl. apply associatedLegendre_diag_seed, Hx.
  - destruct (Nat.eqb_spec l (m + 1)) as [-> | Hne1].
    + replace (m + 1 - m)%nat with 1%nat by lia.
      rewrite legendreClimb_shift. simpl.
      unfold associatedLegendre_next.
      rewrite associatedLegendre_diag_seed by exact Hx. reflexivity.
    + cbv zeta. unfold associatedLegendre_next.
      rewrite associatedLegendre_diag_seed by exact Hx.
      rewrite associatedLegendre_loop.
      replace (l - m)%nat with (S (l + 1 - (m + 2))) by lia.
      rewrite legendreClimb_shift. reflexivity.
Qed.

(** X24. For a degree [l] above 3 and an index [m] from [-l] to [l], the
    basis function of the renderer is the normalization
    [sqrt ((2l+1) (l-|m|)! / (4 PI (l+|m|)!))] times the associated Legendre
    function of degree [l] and order [|m|] at the cosine of the elevation,
    times 1 for [m = 0], [cos (m * azimuth)] for [m > 0] and
    [sin (|m| * azimuth)] for [m < 0]. The loops of [factorial] and of
    [associatedLegendre] compute the factorial and the three-term
    recurrence. *)
Theorem renderer_high_degree (l : nat) (m : Z) (azimuth elevation : R) :
  (4 <= l)%nat -> (- Z.of_nat l <= m <= Z.of_nat l)%Z ->
  realSphericalHarmonic l m azimuth elevation
  = Spec.normalization l m
    * Spec.associatedLegendre l (Z.abs_nat m) (cos elevation)
    * (if (m =? 0)%Z then 1
       else if (0 <? m)%Z then cos (IZR m * azimuth)
       else sin (IZR (Z.abs m) * azimuth)).
Proof.
  intros Hl Hm.
  assert (Hhigh : realSphericalHarmonic l m azimuth elevation
                  = computeHighOrderHarmonic l m azimuth elevation).
  { destruct l as [|[|[|[|l]]]]; try lia. reflexivity. }
  rewrite Hhigh. unfold computeHighOrderHarmonic. cbv zeta.
  rewrite associatedLegendre_recurrence
    by (try lia; pose proof (COS_bound elevation); lra).
  rewrite !factorial_fact.
  assert (Hnorm : sqrt ((2 * INR l + 1) * INR (fact (l - Z.abs_nat m))
                        / (4 * PI * INR (fact (l + Z.abs_nat m))))
                  = Spec.normalization l m).
  { unfold Spec.normalization. do 3 f_equal.
    rewrite plus_INR, mult_INR. simpl. ring. }
  rewrite Hnorm.
  destruct (m =? 0)%Z; [ring |].
  destruct (0 <? m)%Z; [reflexivity |].
  rewrite INR_IZR_INZ, Zabs2Nat.id_abs. reflexivity.
Qed.

End HighOrder.

Lemma renderer_high_degree_witness :
  (SpatialAudioEngine.realSphericalHarmonic 4 0 0 0
   = Spec.normalization 4 0
     * Spec.associatedLegendre 4 (Z.abs_nat 0) (cos 0)
     * 1)%R.
Proof.
  apply (renderer_high_degree 4 0 0 0); lia.
Defined.

(** * Properties of the rotation *)

Section RotationProperties.

Import SHACDecoder SpatialAudioEngine Rotation.
Local Open Scope R_scope.

(** [Math_round x] is the integer [n] with [n - 1/2 <= x < n + 1/2]. *)
Lemma Math_round_spec (x : R) (n : Z) :
  IZR n - / 2 <= x < IZR n + / 2 -> Math_round x = IZR n.
Proof.
  intros Hx. unfold Math_round. f_equal. symmetry.
  apply Int_part_spec. lra.
Qed.

Lemma validCache_lookup (rotationCache : RotationCache) (key : RotationKey)
    (matrix : list R) :
  validCache rotationCache -> mapGet rotationCache key = Some matrix ->
  exists yaw pitch roll,
    matrix = computeRotationMatrix (fst (fst (fst key))) yaw pitch roll.
Proof.
  intros Hvalid. induction Hvalid as [|[k0 v0] rest H0 Hrest IH];
    [discriminate |].
  simpl. destruct (bool_decide (k0 = key)) eqn:Hk.
  - apply bool_decide_eq_true in Hk. intros [= <-]. subst k0. exact H0.
  - exact IH.
Qed.

Lemma validCache_mapSet (rotationCache : RotationCache) (key : RotationKey)
    (matrix : list R) :
  validCache rotationCache ->
  (exists yaw pitch roll,
     matrix = computeRotationMatrix (fst (fst (fst key))) yaw pitch roll) ->
  validCache (mapSet rotationCache key matrix).
Proof.
  intros Hvalid Hm. induction Hvalid as [|[k0 v0] rest H0 Hrest IH]; simpl.
  - constructor; [exact Hm | constructor].
  - destruct (bool_decide (k0 = key)) eqn:Hk.
    + apply bool_decide_eq_true in Hk. subst k0.
      constructor; [exact Hm | exact Hrest].
    + constructor; [exact H0 | exact IH].
Qed.

Lemma rotation_cache_valid_aux (rotationCache rotationCache' : RotationCache)
    (order : nat) (yaw pitch roll : R) (matrix : list R) :
  getCachedRotationMatrix rotationCache order yaw pitch roll
  = (matrix, rotationCache') ->
  validCache rotationCache ->
  validCache rotationCache'
  /\ exists yaw0 pitch0 roll0,
       matrix = computeRotationMatrix order yaw0 pitch0 roll0.
Proof.
  unfold getCachedRotationMatrix. cbv zeta.
  set (key := (order, Math_round (yaw * 573) / 573,
               Math_round (pitch * 573) / 573,
               Math_round (roll * 573) / 573)).
  destruct (mapGet rotationCache key) as [cached |] eqn:Hget;
    intros [= <- <-] Hvalid.
  - split; [exact Hvalid |].
    exact (validCache_lookup rotationCache key cached Hvalid Hget).
  - split; [| eauto].
    apply validCache_mapSet; [exact Hvalid | simpl; eauto].
Qed.

(** X25. The rotation matrices are cached under the order and the three
    angles rounded to multiples of 1/573. Once a call has returned, every
    later call with the same order and with angles that round to the same
    multiples returns the matrix of that first call and leaves the cache as
    it is. On a miss the matrix is computed from the angles as they are
    given, not from the rounded ones. A call never removes or replaces an
    entry of the cache, and a cache that holds matrices of
    [computeRotationMatrix] only keeps doing so. *)
Theorem rotation_cache_memo (rotationCache rotationCache' : RotationCache)
    (order : nat) (yaw pitch roll : R) (matrix : list R) :
  getCachedRotationMatrix rotationCache order yaw pitch roll
  = (matrix, rotationCache') ->
  (forall yaw' pitch' roll',
     Math_round (yaw' * 573) = Math_round (yaw * 573) ->
     Math_round (pitch' * 573) = Math_round (pitch * 573) ->
     Math_round (roll' * 573) = Math_round (roll * 573) ->
     getCachedRotationMatrix rotationCache' order yaw' pitch' roll'
     = (matrix, rotationCache'))
  /\ (mapGet rotationCache
        (order, Math_round (yaw * 573) / 573,
         Math_round (pitch * 573) / 573, Math_round (roll * 573) / 573)
      = None ->
      matrix = computeRotationMatrix order yaw pitch roll)
  /\ (forall key value,
        mapGet rotationCache key = Some value ->
        mapGet rotationCache' key = Some value)
  /\ (validCache rotationCache ->
      validCache rotationCache'
      /\ exists yaw0 pitch0 roll0,
           matrix = computeRotationMatrix order yaw0 pitch0 roll0).
Proof.
  unfold getCachedRotationMatrix. cbv zeta.
  set (key := (order, Math_round (yaw * 573) / 573,
               Math_round (pitch * 573) / 573,
               Math_round (roll * 573) / 573)).
  destruct (mapGet rotationCache key) as [cached |] eqn:Hget;
    intros [= <- <-].
  - split; [| split; [discriminate | split; [auto |]]].
    + intros yaw' pitch' roll' -> -> ->. fold key. rewrite Hget.
      reflexivity.
    + intros Hvalid. split; [exact Hvalid |].
      exact (validCache_lookup rotationCache key cached Hvalid Hget).
  - split; [| split; [reflexivity | split]].
    + intros yaw' pitch' roll' -> -> ->. fold key.
      rewrite mapGet_mapSet, bool_decide_eq_true_2 by reflexivity.
      reflexivity.
    + intros key' value Hkey'. rewrite mapGet_mapSet.
      rewrite bool_decide_eq_false_2; [exact Hkey' |].
      intros <-. congruence.
    + intros Hvalid. split; [| eauto].
      apply validCache_mapSet; [exact Hvalid | simpl; eauto].
Qed.

(** The loops of [rotateAmbisonics]. *)
Lemma alter_rows {A : Type} (g : nat -> A -> A) (rows : list A) (k : nat) :
  (k <= length rows)%nat ->
  fold_left (fun rows i => alter (g i) i rows) (seq 0 k) rows
  = imap (fun i row => if (i <? k)%nat then g i row else row) rows.
Proof.
  induction k as [|k IH]; intros Hk.
  - simpl. apply list_eq. intros i. rewrite list_lookup_imap.
    destruct (rows !! i); reflexivity.
  - rewrite seq_S, fold_left_app, IH by lia. cbn [fold_left Nat.add].
    apply list_eq. intros i. rewrite list_lookup_imap.
    destruct (decide (i = k)) as [-> | Hne].
    + rewrite list_lookup_alter_eq, list_lookup_imap.
      destruct (rows !! k); [| reflexivity]. simpl.
      rewrite Nat.ltb_irrefl.
      destruct (Nat.ltb_spec k (S k)); [reflexivity | lia].
    + rewrite list_lookup_alter_ne by auto. rewrite list_lookup_imap.
      destruct (rows !! i); [| reflexivity]. simpl.
      destruct (Nat.ltb_spec i k); destruct (Nat.ltb_spec i (S k));
        try reflexivity; lia.
Qed.

Lemma fold_imap {A B : Type} (F : B -> nat -> A -> A) (ss : list B) :
  forall rows : list A,
  fold_left (fun rows s => imap (F s) rows) ss rows
  = imap (fun i row => fold_left (fun row s => F s i row) ss row) rows.
Proof.
  induction ss as [|s ss IH]; intros rows; simpl.
  - apply list_eq. intros i. rewrite list_lookup_imap.
    destruct (rows !! i); reflexivity.
  - rewrite IH. apply list_eq. intros i. rewrite !list_lookup_imap.
    destruct (rows !! i); reflexivity.
Qed.

Lemma fill_row (c : nat -> f32) (k : nat) :
  forall (i : nat) (row : list f32),
  (i + k <= length row)%nat ->
  fold_left (fun row s => <[s := c s]> row) (seq i k) row
  = writeFrom row i (map c (seq i k)).
Proof.
  induction k as [|k IH]; intros i row Hlen; simpl.
  - rewrite writeFrom_nil. reflexivity.
  - rewrite IH by (rewrite length_insert; lia).
    apply writeFrom_cons. lia.
Qed.

Lemma rotate_loops (rotMatrix : list R) (audioData : list (list f32))
    (numSamples : nat) :
  let n := length audioData in
  fold_left (fun rotatedData (s : nat) =>
    fold_left (fun rotatedData (i : nat) =>
      let sum :=
        fold_left (fun (sum : f32) (j : nat) =>
          fadd sum (fmul (rotMatrix !! (i * n + j)%nat)
                         (elem (audioData !!! j) s)))
          (seq 0 n) (Some 0) in
      alter (fun row => <[s := sum]> row) i rotatedData)
      (seq 0 n) rotatedData)
    (seq 0 numSamples) (replicate n (AudioBufferPool.zeros numSamples))
  = map (fun i => map (rotatedSample rotMatrix audioData i)
                      (seq 0 numSamples))
        (seq 0 n).
Proof.
  cbv zeta. set (n := length audioData).
  set (rows0 := replicate n (AudioBufferPool.zeros numSamples)).
  assert (Hinner : forall (s : nat) (rows : list (list f32)),
            length rows = n ->
            fold_left (fun rotatedData (i : nat) =>
                         alter (fun row =>
                                  <[s := rotatedSample rotMatrix audioData i s]>
                                    row) i rotatedData)
                      (seq 0 n) rows
            = imap (fun i row =>
                      <[s := rotatedSample rotMatrix audioData i s]> row)
                   rows).
  { intros s rows Hrows.
    rewrite (alter_rows
               (fun i row => <[s := rotatedSample rotMatrix audioData i s]> row)
               rows n) by lia.
    apply imap_ext. intros i row Hi. apply lookup_lt_Some in Hi.
    destruct (Nat.ltb_spec i n); [reflexivity | lia]. }
  assert (Hlen : forall (ss : list nat) (rows : list (list f32)),
            length rows = n ->
            fold_left (fun rotatedData (s : nat) =>
                         fold_left (fun rotatedData (i : nat) =>
                           alter (fun row =>
                             <[s := rotatedSample rotMatrix audioData i s]>
                               row) i rotatedData)
                           (seq 0 n) rotatedData)
                      ss rows
            = fold_left (fun rows s =>
                           imap (fun i row =>
                             <[s := rotatedSample rotMatrix audioData i s]>
                               row) rows)
                        ss rows).
  { induction ss as [|s ss IH]; intros rows Hrows; [reflexivity |].
    cbn [fold_left]. rewrite Hinner by exact Hrows.
    apply IH. rewrite length_imap. exact Hrows. }
  change (fold_left _ (seq 0 numSamples) rows0)
    with (fold_left (fun rotatedData (s : nat) =>
                       fold_left (fun rotatedData (i : nat) =>
                         alter (fun row =>
                           <[s := rotatedSample rotMatrix audioData i s]>
                             row) i rotatedData)
                         (seq 0 n) rotatedData)
                    (seq 0 numSamples) rows0).
  rewrite Hlen by (unfold rows0; apply length_replicate).
  rewrite (fold_imap
             (fun s i row =>
                <[s := rotatedSample rotMatrix audioData i s]> row)).
  apply list_eq. intros i. rewrite list_lookup_imap, list_lookup_fmap.
  unfold rows0.
  destruct (decide (i < n)%nat) as [Hi | Hi].
  - assert (Hrep : replicate n (AudioBufferPool.zeros numSamples) !! i
                   = Some (AudioBufferPool.zeros numSamples))
      by (apply lookup_replicate_2; exact Hi).
    rewrite Hrep, lookup_seq_lt by exact Hi. simpl.
    rewrite (fill_row (fun s => rotatedSample rotMatrix audioData i s)
               numSamples 0)
      by (rewrite length_zeros; lia).
    rewrite writeFrom_all
      by (rewrite length_map, length_seq, length_zeros; reflexivity).
    reflexivity.
  - rewrite lookup_seq_ge by lia.
    assert (Hrep : replicate n (AudioBufferPool.zeros numSamples) !! i = None)
      by (apply lookup_replicate_None; lia).
    rewrite Hrep. reflexivity.
Qed.

Lemma rotateAmbisonics_eq (rotationCache rotationCache' : RotationCache)
    (audioData : list (list f32)) (order : nat) (yaw pitch roll : R)
    (matrix : list R) :
  length audioData = ((order + 1) * (order + 1))%nat ->
  getCachedRotationMatrix rotationCache order yaw pitch roll
  = (matrix, rotationCache') ->
  rotateAmbisonics rotationCache audioData yaw pitch roll
  = Ok (map (fun i => map (rotatedSample matrix audioData i)
                          (seq 0 (length (audioData !!! 0%nat))))
            (seq 0 (length audioData)),
        rotationCache').
Proof.
  intros Hlen Hget. unfold rotateAmbisonics. cbv zeta.
  rewrite Hlen, Nat.sqrt_square.
  replace (order + 1 - 1)%nat with order by lia.
  rewrite Hget. rewrite <- Hlen.
  destruct audioData as [|channel0 rest]; [simpl in Hlen; lia |].
  change ((channel0 :: rest) !!! 0%nat) with channel0.
  pose proof (rotate_loops matrix (channel0 :: rest) (length channel0))
    as Hloops.
  cbv zeta in Hloops. rewrite Hloops. reflexivity.
Qed.

(** X26. For a signal of [(order + 1)²] channels, at least one, and a cache
    of matrices of [computeRotationMatrix], [rotateAmbisonics] succeeds. It
    returns as many channels as it was given, each with as many samples as
    channel 0, and sample [s] of channel [i] is row [i] of the matrix for
    the order times the samples [s] of the channels given. A signal of one
    channel is returned as it is, whatever the angles. *)
Theorem rotateAmbisonics_product (rotationCache : RotationCache)
    (audioData : list (list f32)) (order : nat) (yaw pitch roll : R) :
  length audioData = ((order + 1) * (order + 1))%nat ->
  validCache rotationCache ->
  exists matrix rotationCache' yaw0 pitch0 roll0,
    getCachedRotationMatrix rotationCache order yaw pitch roll
    = (matrix, rotationCache')
    /\ matrix = computeRotationMatrix order yaw0 pitch0 roll0
    /\ rotateAmbisonics rotationCache audioData yaw pitch roll
       = Ok (map (fun i => map (rotatedSample matrix audioData i)
                               (seq 0 (length (audioData !!! 0%nat))))
                 (seq 0 (length audioData)),
             rotationCache')
    /\ (order = 0%nat ->
        rotateAmbisonics rotationCache audioData yaw pitch roll
        = Ok (audioData, rotationCache')).
Proof.
  intros Hlen Hvalid.
  destruct (getCachedRotationMatrix rotationCache order yaw pitch roll)
    as [matrix rotationCache'] eqn:Hget.
  destruct (rotation_cache_valid_aux rotationCache rotationCache' order yaw
              pitch roll matrix Hget Hvalid)
    as (_ & yaw0 & pitch0 & roll0 & Hmatrix).
  exists matrix, rotationCache', yaw0, pitch0, roll0.
  split; [reflexivity |]. split; [exact Hmatrix |].
  pose proof (rotateAmbisonics_eq rotationCache rotationCache' audioData
                order yaw pitch roll matrix Hlen Hget) as Hrot.
  split; [exact Hrot |].
  intros ->. rewrite Hrot. do 2 f_equal.
  destruct audioData as [|channel0 [|channel1 rest]]; try discriminate.
  change ([channel0] !!! 0%nat) with channel0. simpl. f_equal.
  assert (Hone : matrix = [1]) by (rewrite Hmatrix; reflexivity).
  rewrite Hone. apply list_eq. intros s. rewrite list_lookup_fmap.
  destruct (channel0 !! s) as [x |] eqn:Hs.
  - rewrite lookup_seq_lt by (apply lookup_lt_Some in Hs; exact Hs).
    cbn [fmap option_fmap option_map Nat.add]. f_equal.
    unfold rotatedSample. cbn [length seq fold_left].
    change (([1] : list R) !! (0 * 1 + 0)%nat) with (Some 1).
    change ([channel0] !!! 0%nat) with channel0.
    unfold elem. unfold f32 in *. rewrite Hs.
    destruct x as [v |]; simpl; [| reflexivity].
    f_equal. ring.
  - rewrite lookup_seq_ge by (apply lookup_ge_None in Hs; exact Hs).
    reflexivity.
Qed.

(** X27. At order 1, four channels, row 0 of the rotation matrix is
    [1, 0, 0, 0] for every yaw, pitch and roll: when the four channels hold
    numbers at the samples of channel 0, the rotation returns channel 0, the
    omnidirectional channel, as it is. *)
Theorem rotateAmbisonics_first_order_W (rotationCache : RotationCache)
    (c0 c1 c2 c3 : list R) (yaw pitch roll : R) :
  validCache rotationCache ->
  (length c0 <= length c1)%nat -> (length c0 <= length c2)%nat ->
  (length c0 <= length c3)%nat ->
  exists rotated rotationCache',
    rotateAmbisonics rotationCache
      [map Some c0; map Some c1; map Some c2; map Some c3] yaw pitch roll
    = Ok (rotated, rotationCache')
    /\ rotated !! 0%nat = Some (map Some c0).
Proof.
  intros Hvalid H1 H2 H3.
  set (audioData := [map Some c0; map Some c1; map Some c2; map Some c3]).
  destruct (getCachedRotationMatrix rotationCache 1 yaw pitch roll)
    as [matrix rotationCache'] eqn:Hget.
  destruct (rotation_cache_valid_aux rotationCache rotationCache' 1 yaw
              pitch roll matrix Hget Hvalid)
    as (_ & yaw0 & pitch0 & roll0 & Hmatrix).
  eexists. exists rotationCache'. split.
  - exact (rotateAmbisonics_eq rotationCache rotationCache' audioData 1
             yaw pitch roll matrix eq_refl Hget).
  - change (length audioData) with 4%nat.
    change (audioData !!! 0%nat) with (map Some c0).
    change (seq 0 4) with [0; 1; 2; 3]%nat. cbn [map lookup list_lookup].
    f_equal. rewrite length_map. apply list_eq. intros s.
    rewrite !list_lookup_fmap.
    destruct (c0 !! s) as [v0 |] eqn:Hs.
    + pose proof (lookup_lt_Some _ _ _ Hs) as Hlt.
      rewrite lookup_seq_lt by exact Hlt. simpl.
      destruct (lookup_lt_is_Some_2 c1 s ltac:(lia)) as [v1 Hv1].
      destruct (lookup_lt_is_Some_2 c2 s ltac:(lia)) as [v2 Hv2].
      destruct (lookup_lt_is_Some_2 c3 s ltac:(lia)) as [v3 Hv3].
      unfold rotatedSample. change (length audioData) with 4%nat.
      change (seq 0 4) with [0; 1; 2; 3]%nat.
      assert (Hrow : matrix !! 0%nat = Some 1 /\ matrix !! 1%nat = Some 0
                     /\ matrix !! 2%nat = Some 0
                     /\ matrix !! 3%nat = Some 0).
      { rewrite Hmatrix. repeat split; reflexivity. }
      destruct Hrow as (R0 & R1 & R2 & R3).
      cbn [fold_left Nat.mul Nat.add]. rewrite R0, R1, R2, R3.
      unfold audioData, elem.
      cbn [lookup_total list_lookup_total].
      rewrite !list_lookup_fmap, Hs, Hv1, Hv2, Hv3. simpl.
      do 2 f_equal. ring.
    + rewrite lookup_seq_ge by (apply lookup_ge_None in Hs; exact Hs).
      reflexivity.
Qed.

End RotationProperties.

#[local] Existing Instance Rotation.R_eq_dec.

Lemma rotation_cache_memo_witness :
  Rotation.getCachedRotationMatrix
    (mapSet [] (1%nat, 0 / 573, 0 / 573, 0 / 573)%R
            (SHACDecoder.computeRotationMatrix 1 0 0 0))
    1 0.0005 0 0
  = (SHACDecoder.computeRotationMatrix 1 0 0 0,
     mapSet [] (1%nat, 0 / 573, 0 / 573, 0 / 573)%R
            (SHACDecoder.computeRotationMatrix 1 0 0 0)).
Proof.
  assert (H0 : Rotation.Math_round (0 * 573) = 0%R).
  { apply (Math_round_spec (0 * 573) 0). lra. }
  assert (H1 : Rotation.Math_round (0.0005 * 573) = 0%R).
  { apply (Math_round_spec (0.0005 * 573) 0). lra. }
  assert (Hcall : Rotation.getCachedRotationMatrix [] 1 0 0 0
                  = (SHACDecoder.computeRotationMatrix 1 0 0 0,
                     mapSet [] (1%nat, 0 / 573, 0 / 573, 0 / 573)%R
                            (SHACDecoder.computeRotationMatrix 1 0 0 0))).
  { unfold Rotation.getCachedRotationMatrix. cbv zeta. rewrite H0.
    reflexivity. }
  refine (proj1 (rotation_cache_memo [] _ 1 0 0 0 _ Hcall) 0.0005%R 0%R 0%R
            _ eq_refl eq_refl).
  rewrite H0, H1. reflexivity.
Defined.

Lemma rotateAmbisonics_product_witness :
  exists rotationCache',
    Rotation.rotateAmbisonics [] [[Some 1%R; None]] 1 0 0
    = Ok ([[Some 1%R; None]], rotationCache').
Proof.
  destruct (rotateAmbisonics_product [] [[Some 1%R; None]] 0 1 0 0 eq_refl
              (Forall_nil_2 _))
    as (matrix & rotationCache' & y & p & r & _ & _ & _ & Hmono).
  exists rotationCache'. exact (Hmono eq_refl).
Defined.

Lemma rotateAmbisonics_first_order_W_witness :
  exists rotated rotationCache',
    Rotation.rotateAmbisonics []
      [map Some [1%R]; map Some [2%R]; map Some [3%R]; map Some [4%R]]
      1 0 0
    = Ok (rotated, rotationCache')
    /\ rotated !! 0%nat = Some (map Some [1%R]).
Proof.
  apply (rotateAmbisonics_first_order_W [] [1%R] [2%R] [3%R] [4%R] 1 0 0).
  - constructor.
  - simpl. lia.
  - simpl. lia.
  - simpl. lia.
Defined.

(** * A file and what it decodes to *)

Section RoundTrip.

Variable TextDecoder_decode : list byte -> string.
Variable JSON_parse : string -> option Json.
Variable float32_of_bits : Z -> f32.

Lemma getUint16_window (pre post : list byte) (v : Z) :
  (0 <= v < 65536)%Z ->
  getUint16 (pre ++ le16 v ++ post) (Z.of_nat (length pre)) = Ok v.
Proof.
  intros Hv. unfold getUint16.
  replace (Z.of_nat (length pre)) with (Z.of_nat (length pre) + 0)%Z at 1
    by lia.
  rewrite in_range_app by (simpl; lia).
  replace (Z.of_nat (length pre)) with (Z.of_nat (length pre) + Z.of_nat 0)%Z
    at 1 by lia.
  replace (Z.of_nat (length pre) + 1)%Z
    with (Z.of_nat (length pre) + Z.of_nat 1)%Z by lia.
  rewrite !byteAt_payload by (simpl; lia). simpl nth.
  rewrite le16_value by exact Hv. reflexivity.
Qed.

Lemma getUint32_window (pre post : list byte) (v : Z) :
  (0 <= v < 4294967296)%Z ->
  getUint32 (pre ++ le32 v ++ post) (Z.of_nat (length pre)) = Ok v.
Proof.
  intros Hv. unfold getUint32.
  replace (Z.of_nat (length pre)) with (Z.of_nat (length pre) + 0)%Z at 1
    by lia.
  rewrite in_range_app by (simpl; lia).
  replace (Z.of_nat (length pre)) with (Z.of_nat (length pre) + Z.of_nat 0)%Z
    at 1 by lia.
  replace (Z.of_nat (length pre) + 1)%Z
    with (Z.of_nat (length pre) + Z.of_nat 1)%Z by lia.
  replace (Z.of_nat (length pre) + 2)%Z
    with (Z.of_nat (length pre) + Z.of_nat 2)%Z by lia.
  replace (Z.of_nat (length pre) + 3)%Z
    with (Z.of_nat (length pre) + Z.of_nat 3)%Z by lia.
  rewrite !byteAt_payload by (simpl; lia). simpl nth.
  rewrite le32_value by exact Hv. reflexivity.
Qed.

Lemma Uint8Array_window (pre bytes post : list byte) :
  Uint8Array_view (pre ++ bytes ++ post) (Z.of_nat (length pre))
    (Z.of_nat (length bytes))
  = Ok bytes.
Proof.
  unfold Uint8Array_view.
  replace (Z.of_nat (length pre)) with (Z.of_nat (length pre) + 0)%Z at 1
    by lia.
  rewrite in_range_app by lia. rewrite !Nat2Z.id.
  rewrite drop_app_length, take_app_length. reflexivity.
Qed.

Section OneRecord.

Variable h : SHACDecoder.Header.
Variables pre post : list byte.
Variable r : LayerRecord.

Hypothesis Hrange : headerInRange h.
Hypothesis Hfits : recordFits h r.

Let buf : list byte := pre ++ encodeLayer r ++ post.
Let off : Z := Z.of_nat (length pre).
Let idLength : Z := Z.of_nat (length (recordId r)).
Let metadataLength : Z := Z.of_nat (length (recordMetadata r)).

Lemma record_idLength : getUint16 buf off = Ok idLength.
Proof.
  destruct Hfits as (Hid & _ & _).
  unfold buf, encodeLayer. rewrite <- !app_assoc.
  apply getUint16_window. unfold idLength. lia.
Qed.

Lemma record_metadataLength : getUint32 buf (off + 2) = Ok metadataLength.
Proof.
  destruct Hfits as (_ & Hmeta & _).
  unfold buf, encodeLayer, off.
  replace (pre ++ (le16 (Z.of_nat (length (recordId r)))
                   ++ le32 (Z.of_nat (length (recordMetadata r)))
                   ++ recordId r ++ recordMetadata r ++ recordAudio r)
               ++ post)
    with ((pre ++ le16 (Z.of_nat (length (recordId r))))
          ++ le32 (Z.of_nat (length (recordMetadata r)))
          ++ (recordId r ++ recordMetadata r ++ recordAudio r ++ post))
    by (rewrite <- !app_assoc; reflexivity).
  replace (Z.of_nat (length pre) + 2)%Z
    with (Z.of_nat (length (pre ++ le16 (Z.of_nat (length (recordId r))))))
    by (rewrite length_app; simpl; lia).
  apply getUint32_window. lia.
Qed.

Lemma record_id :
  Uint8Array_view buf (off + 2 + 4) idLength = Ok (recordId r).
Proof.
  unfold buf, encodeLayer, off, idLength.
  replace (pre ++ (le16 (Z.of_nat (length (recordId r)))
                   ++ le32 (Z.of_nat (length (recordMetadata r)))
                   ++ recordId r ++ recordMetadata r ++ recordAudio r)
               ++ post)
    with ((pre ++ le16 (Z.of_nat (length (recordId r)))
               ++ le32 (Z.of_nat (length (recordMetadata r))))
          ++ recordId r
          ++ (recordMetadata r ++ recordAudio r ++ post))
    by (rewrite <- !app_assoc; reflexivity).
  replace (Z.of_nat (length pre) + 2 + 4)%Z
    with (Z.of_nat (length (pre ++ le16 (Z.of_nat (length (recordId r)))
                                ++ le32 (Z.of_nat
                                           (length (recordMetadata r))))))
    by (rewrite !length_app; simpl; lia).
  apply Uint8Array_window.
Qed.

Lemma record_metadata :
  Uint8Array_view buf (off + 2 + 4 + idLength) metadataLength
  = Ok (recordMetadata r).
Proof.
  unfold buf, encodeLayer, off, idLength, metadataLength.
  replace (pre ++ (le16 (Z.of_nat (length (recordId r)))
                   ++ le32 (Z.of_nat (length (recordMetadata r)))
                   ++ recordId r ++ recordMetadata r ++ recordAudio r)
               ++ post)
    with ((pre ++ le16 (Z.of_nat (length (recordId r)))
               ++ le32 (Z.of_nat (length (recordMetadata r)))
               ++ recordId r)
          ++ recordMetadata r
          ++ (recordAudio r ++ post))
    by (rewrite <- !app_assoc; reflexivity).
  replace (Z.of_nat (length pre) + 2 + 4
           + Z.of_nat (length (recordId r)))%Z
    with (Z.of_nat (length (pre ++ le16 (Z.of_nat (length (recordId r)))
                                ++ le32 (Z.of_nat
                                           (length (recordMetadata r)))
                                ++ recordId r)))
    by (rewrite !length_app; simpl; lia).
  apply Uint8Array_window.
Qed.

Lemma audioDataSize_nat :
  Z.to_nat (SHACDecoder.audioDataSize h)
  = (Z.to_nat (SHACDecoder.n_channels h) * Z.to_nat (SHACDecoder.n_samples h)
     * (if (SHACDecoder.bit_depth h =? 16)%Z then 2 else 4))%nat.
Proof.
  destruct Hrange as (_ & _ & Hnc & _ & _ & Hns & _).
  unfold SHACDecoder.audioDataSize, SHACDecoder.bytesPerSample.
  destruct (SHACDecoder.bit_depth h =? 16)%Z; nia.
Qed.

Lemma record_audio :
  SHACDecoder.readAudioDataOptimized float32_of_bits buf
    (off + 6 + idLength + metadataLength)
    (Z.to_nat (SHACDecoder.n_channels h))
    (Z.to_nat (SHACDecoder.n_samples h)) (SHACDecoder.bit_depth h)
  = Ok (SHACDecoder.audioData
          (snd (decodedLayer TextDecoder_decode JSON_parse float32_of_bits
                  h r))).
Proof.
  destruct Hfits as (_ & _ & Haudio).
  unfold buf, encodeLayer, off, idLength, metadataLength.
  replace (pre ++ (le16 (Z.of_nat (length (recordId r)))
                   ++ le32 (Z.of_nat (length (recordMetadata r)))
                   ++ recordId r ++ recordMetadata r ++ recordAudio r)
               ++ post)
    with ((pre ++ le16 (Z.of_nat (length (recordId r)))
               ++ le32 (Z.of_nat (length (recordMetadata r)))
               ++ recordId r ++ recordMetadata r)
          ++ recordAudio r ++ post)
    by (rewrite <- !app_assoc; reflexivity).
  replace (Z.of_nat (length pre) + 6 + Z.of_nat (length (recordId r))
           + Z.of_nat (length (recordMetadata r)))%Z
    with (Z.of_nat (length (pre ++ le16 (Z.of_nat (length (recordId r)))
                                ++ le32 (Z.of_nat
                                           (length (recordMetadata r)))
                                ++ recordId r ++ recordMetadata r)))
    by (rewrite !length_app; simpl; lia).
  apply readAudioDataOptimized_window.
  rewrite Haudio. apply audioDataSize_nat.
Qed.

Lemma length_encodeLayer :
  Z.of_nat (length (encodeLayer r))
  = (6 + idLength + metadataLength + SHACDecoder.audioDataSize h)%Z.
Proof.
  destruct Hfits as (_ & _ & Haudio).
  destruct Hrange as (_ & _ & Hnc & _ & _ & Hns & _).
  assert (0 <= SHACDecoder.audioDataSize h)%Z.
  { unfold SHACDecoder.audioDataSize, SHACDecoder.bytesPerSample.
    destruct (SHACDecoder.bit_depth h =? 16)%Z; nia. }
  unfold encodeLayer, idLength, metadataLength.
  rewrite !length_app, Haudio. simpl. lia.
Qed.

Lemma record_indexStep (index : list SHACDecoder.LayerInfo) :
  SHACDecoder.indexStep TextDecoder_decode buf h (off, index)
  = Ok (Z.of_nat (length pre + length (encodeLayer r)),
        index ++ [SHACDecoder.mkLayerInfo
                    (TextDecoder_decode (recordId r)) off
                    (off + 6 + idLength + metadataLength)
                    (SHACDecoder.audioDataSize h) metadataLength]).
Proof.
  unfold SHACDecoder.indexStep. cbv zeta.
  rewrite record_idLength. cbn [rbind].
  rewrite record_metadataLength. cbn [rbind].
  rewrite record_id. cbn [rbind].
  pose proof length_encodeLayer as Hlen.
  rewrite Nat2Z.inj_add, Hlen. fold off.
  replace (off + 2 + 4 + idLength + metadataLength - metadataLength
           - idLength - 6)%Z with off by lia.
  replace (off + 2 + 4 + idLength + metadataLength)%Z
    with (off + 6 + idLength + metadataLength)%Z by lia.
  replace (off + (6 + idLength + metadataLength
                  + SHACDecoder.audioDataSize h))%Z
    with (off + 6 + idLength + metadataLength
          + SHACDecoder.audioDataSize h)%Z by lia.
  reflexivity.
Qed.

Lemma record_readLayer :
  SHACDecoder.readLayerOptimized TextDecoder_decode JSON_parse
    float32_of_bits buf h
    (SHACDecoder.mkLayerInfo (TextDecoder_decode (recordId r)) off
       (off + 6 + idLength + metadataLength)
       (SHACDecoder.audioDataSize h) metadataLength)
  = Ok (decodedLayer TextDecoder_decode JSON_parse float32_of_bits h r).
Proof.
  unfold SHACDecoder.readLayerOptimized. cbv zeta.
  cbn [SHACDecoder.headerOffset SHACDecoder.metadataLength
       SHACDecoder.dataOffset].
  rewrite record_idLength. cbn [rbind].
  rewrite record_id. cbn [rbind].
  rewrite record_metadata. cbn [rbind].
  rewrite record_audio. cbn [rbind]. reflexivity.
Qed.

End OneRecord.

Lemma indexLoop_records (h : SHACDecoder.Header)
    (records : list LayerRecord) :
  headerInRange h -> Forall (recordFits h) records ->
  forall (pre post : list byte) (index : list SHACDecoder.LayerInfo),
  SHACDecoder.indexLoop TextDecoder_decode (length records)
    (pre ++ flat_map encodeLayer records ++ post) h
    (Z.of_nat (length pre), index)
  = Ok (Z.of_nat (length pre + length (flat_map encodeLayer records)),
        index ++ entriesFrom TextDecoder_decode h (length pre) records).
Proof.
  intros Hrange Hall. induction Hall as [|r rest Hr Hrest IH];
    intros pre post index.
  - simpl. rewrite Nat.add_0_r, app_nil_r. reflexivity.
  - cbn [length SHACDecoder.indexLoop flat_map entriesFrom].
    rewrite <- (app_assoc (encodeLayer r)).
    rewrite (record_indexStep h pre (flat_map encodeLayer rest ++ post) r
               Hrange Hr index).
    cbn [rbind].
    replace (pre ++ encodeLayer r ++ flat_map encodeLayer rest ++ post)
      with ((pre ++ encodeLayer r) ++ flat_map encodeLayer rest ++ post)
      by (rewrite <- app_assoc; reflexivity).
    rewrite <- (length_app pre (encodeLayer r)).
    rewrite IH. rewrite !length_app, <- app_assoc. simpl.
    do 2 f_equal. lia.
Qed.

Lemma readLayers_records (h : SHACDecoder.Header)
    (records : list LayerRecord) :
  headerInRange h -> Forall (recordFits h) records ->
  forall (pre post : list byte),
  mapR (SHACDecoder.readLayerOptimized TextDecoder_decode JSON_parse
          float32_of_bits (pre ++ flat_map encodeLayer records ++ post) h)
       (entriesFrom TextDecoder_decode h (length pre) records)
  = Ok (map (decodedLayer TextDecoder_decode JSON_parse float32_of_bits h)
            records).
Proof.
  intros Hrange Hall. induction Hall as [|r rest Hr Hrest IH];
    intros pre post; [reflexivity |].
  cbn [flat_map entriesFrom mapR map].
  rewrite <- (app_assoc (encodeLayer r)).
  rewrite (record_readLayer h pre (flat_map encodeLayer rest ++ post) r
             Hrange Hr).
  cbn [rbind].
  replace (pre ++ encodeLayer r ++ flat_map encodeLayer rest ++ post)
    with ((pre ++ encodeLayer r) ++ flat_map encodeLayer rest ++ post)
    by (rewrite <- app_assoc; reflexivity).
  rewrite <- (length_app pre (encodeLayer r)).
  rewrite IH. reflexivity.
Qed.


End RoundTrip.


(** * The range of 16-bit samples *)

Section SampleRange.

Variable float32_of_bits : Z -> f32.

Lemma sample16_range (value : Z) :
  (-32768 <= value <= 32767)%Z -> inSampleRange (SHACDecoder.sample16 value).
Proof.
  intros [Hlo Hhi]. unfold SHACDecoder.sample16. eexists.
  split; [reflexivity |].
  apply IZR_le in Hlo. apply IZR_le in Hhi.
  split.
  - apply (Rmult_le_reg_r 32767); [lra |].
    unfold Rdiv. rewrite !Rmult_assoc, Rinv_l by lra. lra.
  - apply (Rmult_le_reg_r 32767); [lra |].
    unfold Rdiv. rewrite !Rmult_assoc, Rinv_l by lra. lra.
Qed.

Lemma byteAt_range (buf : ArrayBuffer) (off : Z) :
  (0 <= byteAt buf off < 256)%Z.
Proof. apply u8_range. Qed.

Lemma channelLoops_Forall {A : Type} (P : A -> Prop) (nc ns : nat)
    (body : nat -> nat -> result A) (a : list (list A)) :
  (forall ch s b, body ch s = Ok b -> P b) ->
  SHACDecoder.channelLoops nc ns body = Ok a -> Forall (Forall P) a.
Proof.
  intros HP H. unfold SHACDecoder.channelLoops in H.
  eapply mapR_Forall; [| exact H].
  intros ch channel Hch. simpl in Hch.
  eapply mapR_Forall; [| exact Hch].
  intros s b Hb. exact (HP ch s b Hb).
Qed.

(** X29. At a bit depth of 16 every sample that is read is a number, never
    NaN, and lies between [-32768/32767], a little below -1, and 1: the
    16-bit integers are divided by 32767. This holds on both paths, the
    byte-wise one and the one through the 16-bit view. *)
Theorem readAudioData16_range (buf : ArrayBuffer) (offset : Z)
    (numChannels numSamples : nat) (audio : list (list f32)) :
  SHACDecoder.readAudioDataOptimized float32_of_bits buf offset numChannels
    numSamples 16 = Ok audio ->
  Forall (Forall inSampleRange) audio.
Proof.
  unfold SHACDecoder.readAudioDataOptimized.
  change (16 =? 16)%Z with true. cbv iota.
  destruct (negb (offset mod 2 =? 0)%Z).
  - unfold SHACDecoder.readAudio16_bytewise.
    apply channelLoops_Forall. intros ch s b Hb. cbv zeta in Hb.
    bind_ok Hb. bind_ok Hb. injection Hb as <-.
    apply sample16_range.
    unfold getUint8 in E. destruct (in_range buf _ 1); [| discriminate].
    injection E as <-.
    unfold getInt8 in E0. destruct (in_range buf _ 1); [| discriminate].
    injection E0 as <-.
    match goal with
    | |- context [shl8_or ?high (byteAt buf ?o)] =>
        pose proof (byteAt_range buf o) as Hlow;
        rewrite (shl8_or_add high (byteAt buf o) Hlow)
    end.
    match goal with
    | |- context [(128 <=? byteAt buf ?o)%Z] =>
        pose proof (byteAt_range buf o) as Hhigh;
        destruct (Z.leb_spec 128 (byteAt buf o))
    end; lia.
  - unfold SHACDecoder.readAudio16_view. cbv zeta. intros H. bind_ok H.
    revert H. apply channelLoops_Forall. intros ch s b [= <-].
    apply sample16_range.
    unfold Int16Array_view in E.
    destruct ((offset mod 2 =? 0)%Z && in_range buf offset _);
      [| discriminate].
    injection E as <-.
    rewrite nth_lookup, list_lookup_fmap.
    destruct (seq 0 _ !! _) as [i |]; simpl; [| lia].
    unfold int16_le. cbv zeta.
    match goal with
    | |- context [(32768 <=? byteAt buf ?a + 256 * byteAt buf ?b)%Z] =>
        pose proof (byteAt_range buf a); pose proof (byteAt_range buf b);
        destruct (Z.leb_spec 32768 (byteAt buf a + 256 * byteAt buf b))
    end; lia.
Qed.

End SampleRange.

Lemma readAudioData16_range_witness :
  Forall (Forall inSampleRange) [[Some (16384 / 32767)%R]].
Proof.
  exact (readAudioData16_range exampleFloat fallbackFile 37 1 1
           [[Some (16384 / 32767)%R]] eq_refl).
Defined.

(** * Rendering again *)

Section Reuse.

Import AudioBufferPool SpatialAudioEngine.

Lemma write_loop_stats (o : Ref) (f : nat -> f32) (samples : list nat) :
  forall p,
  stats (fold_left (fun p s => write p o s (f s)) samples p) = stats p.
Proof.
  induction samples as [|s rest IH]; intros p; simpl; [reflexivity |].
  rewrite IH. reflexivity.
Qed.

Lemma write_loop_bufferLength (o : Ref) (f : nat -> f32)
    (samples : list nat) :
  forall p r,
  bufferLength (fold_left (fun p s => write p o s (f s)) samples p) r
  = bufferLength p r.
Proof.
  induction samples as [|s rest IH]; intros p r; simpl; [reflexivity |].
  rewrite IH. unfold bufferLength. simpl.
  destruct (decide (r = o)) as [-> | Hne].
  - rewrite list_lookup_alter_eq. unfold Ref in *.
    destruct (store p !! o); simpl;
      [f_equal; apply length_insert | reflexivity].
  - rewrite list_lookup_alter_ne by auto. reflexivity.
Qed.

Lemma release_bufferLength (p : Pool) (b r : Ref) :
  bufferLength (release p b) r = bufferLength p r.
Proof.
  unfold release. destruct (bool_decide (b ∈ inUse p)); [| reflexivity].
  unfold bufferLength, fill0. simpl.
  destruct (decide (r = b)) as [-> | Hne].
  - rewrite list_lookup_alter_eq. unfold Ref in *.
    destruct (store p !! b); simpl;
      [f_equal; apply length_zeros | reflexivity].
  - rewrite list_lookup_alter_ne by auto. reflexivity.
Qed.

Lemma releaseAll_bufferLength (bs : list Ref) :
  forall (p : Pool) (r : Ref),
  bufferLength (releaseAll p bs) r = bufferLength p r.
Proof.
  unfold releaseAll. induction bs as [|b bs IH]; intros p r; simpl;
    [reflexivity |].
  rewrite IH. apply release_bufferLength.
Qed.

Lemma releaseAll_stats (bs : list Ref) :
  forall p : Pool, stats (releaseAll p bs) = stats p.
Proof.
  unfold releaseAll. induction bs as [|b bs IH]; intros p; simpl;
    [reflexivity |].
  rewrite IH. unfold release. destruct (bool_decide (b ∈ inUse p));
    reflexivity.
Qed.

Lemma releaseAll_store_length (bs : list Ref) :
  forall p : Pool, length (store (releaseAll p bs)) = length (store p).
Proof.
  unfold releaseAll. induction bs as [|b bs IH]; intros p; simpl;
    [reflexivity |].
  rewrite IH. unfold release. destruct (bool_decide (b ∈ inUse p));
    [| reflexivity].
  simpl. unfold fill0. apply length_alter.
Qed.

(** Taking one element out of a list without repetitions. *)
Lemma length_without (b : Ref) (l : list Ref) :
  NoDup l ->
  (length l <= S (length (filter (fun o => o <> b) l)))%nat.
Proof.
  induction 1 as [|x l Hx Hl IH]; [simpl; lia |].
  rewrite filter_cons. destruct (decide (x <> b)) as [Hne | Heq].
  - simpl. lia.
  - assert (x = b) as -> by (destruct (decide (x = b)); tauto).
    assert (Hall : filter (fun o => o <> b) l = l).
    { clear IH Hl. induction l as [|y l IHl]; [reflexivity |].
      rewrite filter_cons.
      destruct (decide (y <> b)) as [_ | Hyb].
      - f_equal. apply IHl. intros Hin. apply Hx. right. exact Hin.
      - exfalso. apply Hx.
        assert (y = b) as -> by (destruct (decide (y = b)); tauto).
        left. }
    rewrite Hall. simpl. lia.
Qed.

(** The arrays a render takes are pairwise different. *)
Lemma decodeToVirtualSpeakers_NoDup (audioData : list (list f32))
    (numSamples : nat) (speakers : list Speaker) :
  forall (outputs : list Ref) (q : Pool),
  poolInv q -> NoDup outputs ->
  (forall o, o ∈ outputs -> o ∈ inUse q) ->
  let st :=
    fold_left (fun (st : list Ref * Pool) (speaker : Speaker) =>
      let '(outputs, p) := st in
      let '(output, p) := acquire p numSamples in
      let shCoeffs := computeSphericalHarmonics (azimuth speaker)
                        (elevation speaker) (length audioData) in
      let p :=
        fold_left (fun p (sample : nat) =>
          write p output sample
                (decodeSample audioData shCoeffs (gain speaker) sample))
          (seq 0 numSamples) p in
      (outputs ++ [output], p))
      speakers (outputs, q) in
  NoDup (fst st)
  /\ length (fst st) = (length outputs + length speakers)%nat.
Proof.
  induction speakers as [|speaker rest IH];
    intros outputs q Hinv Hnd Hheld; cbn [fold_left].
  - simpl. split; [exact Hnd | lia].
  - destruct (acquire_fresh q numSamples Hinv) as (A1 & A2 & _ & _).
    pose proof (poolInv_acquire q numSamples Hinv) as A5.
    destruct (acquire q numSamples) as [output q1] eqn:Hacq.
    cbn [fst snd] in A1, A2, A5. cbv zeta.
    set (f := fun sample =>
                decodeSample audioData
                  (computeSphericalHarmonics (azimuth speaker)
                     (elevation speaker) (length audioData))
                  (gain speaker) sample).
    destruct (write_loop output f (seq 0 numSamples) q1)
      as (_ & W2 & _ & _).
    assert (Hout : output ∈ inUse q1) by (rewrite A2; set_solver).
    pose proof (poolInv_write_loop output f (seq 0 numSamples) q1 A5 Hout)
      as W5.
    destruct (IH (outputs ++ [output])
                (fold_left (fun p sample => write p output sample (f sample))
                   (seq 0 numSamples) q1) W5) as [N1 N2].
    + apply NoDup_app. split; [exact Hnd |]. split; [| apply NoDup_singleton].
      intros o Ho Hnew. apply list_elem_of_singleton in Hnew. subst o.
      exact (A1 (Hheld _ Ho)).
    + intros o Ho. rewrite W2, A2.
      apply elem_of_app in Ho as [Ho | Ho]; [| set_solver].
      specialize (Hheld o Ho). set_solver.
    + split; [exact N1 |]. etransitivity; [exact N2 |].
      rewrite length_app. simpl. lia.
Qed.

(** As long as enough free arrays of the right length are left, the loop
    over the speakers allocates nothing. *)
Lemma reuse_loop (audioData : list (list f32)) (numSamples : nat)
    (speakers : list Speaker) :
  forall (avail outputs : list Ref) (q : Pool),
  poolInv q -> NoDup avail ->
  (forall o, o ∈ avail -> fits q numSamples o) ->
  (length speakers <= length avail)%nat ->
  let st :=
    fold_left (fun (st : list Ref * Pool) (speaker : Speaker) =>
      let '(outputs, p) := st in
      let '(output, p) := acquire p numSamples in
      let shCoeffs := computeSphericalHarmonics (azimuth speaker)
                        (elevation speaker) (length audioData) in
      let p :=
        fold_left (fun p (sample : nat) =>
          write p output sample
                (decodeSample audioData shCoeffs (gain speaker) sample))
          (seq 0 numSamples) p in
      (outputs ++ [output], p))
      speakers (outputs, q) in
  pool (snd st) = pool q
  /\ length (store (snd st)) = length (store q)
  /\ created (stats (snd st)) = created (stats q)
  /\ poolInv (snd st).
Proof.
  induction speakers as [|speaker rest IH];
    intros avail outputs q Hinv Hnd Hfits Hlen; cbn [fold_left].
  - simpl. auto.
  - destruct avail as [|a avail']; [simpl in Hlen; lia |].
    destruct (Hfits a ltac:(left)) as (Ha1 & Ha2 & Ha3).
    destruct (findFree_exists q numSamples (pool q) a Ha1 Ha2 Ha3)
      as [b Hfind].
    pose proof (poolInv_acquire q numSamples Hinv) as A5.
    unfold acquire in A5 |- *. rewrite Hfind in A5 |- *.
    cbn [fst snd] in A5. cbv zeta.
    set (q1 := mkPool (store q) (pool q) ({[b]} ∪ inUse q)
                 (mkStats (created (stats q)) (S (reused (stats q)))
                    (currentPoolSize (stats q)))) in *.
    set (f := fun sample =>
                decodeSample audioData
                  (computeSphericalHarmonics (azimuth speaker)
                     (elevation speaker) (length audioData))
                  (gain speaker) sample).
    destruct (write_loop b f (seq 0 numSamples) q1)
      as (W1 & W2 & W3 & W4).
    pose proof (write_loop_stats b f (seq 0 numSamples) q1) as W6.
    assert (Hout : b ∈ inUse q1) by (simpl; set_solver).
    pose proof (poolInv_write_loop b f (seq 0 numSamples) q1 A5 Hout)
      as W5.
    set (q2 := fold_left (fun p sample => write p b sample (f sample))
                 (seq 0 numSamples) q1) in *.
    destruct (IH (filter (fun o => o <> b) (a :: avail'))
                (outputs ++ [b]) q2 W5) as (R1 & R2 & R3 & R4).
    + apply NoDup_filter. exact Hnd.
    + intros o Ho. apply list_elem_of_filter in Ho as [Hne Ho].
      destruct (Hfits o Ho) as (Ho1 & Ho2 & Ho3).
      split; [rewrite W1; exact Ho1 |]. split.
      * unfold q2. rewrite write_loop_bufferLength. exact Ho2.
      * rewrite W2. simpl. set_solver.
    + pose proof (length_without b (a :: avail') Hnd) as Hw.
      simpl in Hlen, Hw. lia.
    + split; [etransitivity; [exact R1 | exact W1] |].
      split; [etransitivity; [exact R2 | exact W3] |].
      split; [| exact R4].
      etransitivity; [exact R3 |]. fold q2. rewrite W6. reflexivity.
Qed.

(** X30. After a render of four or more channels, a second render of as
    many channels with as many samples allocates nothing: it succeeds with
    the arrays the first render gave back, so the pool, the number of
    arrays and the counter of created arrays stay as they are. *)
Theorem second_render_reuses (p p1 : Pool)
    (audio1 audio2 : list (list f32)) (l1 r1 : list f32) :
  poolInv p ->
  (4 <= length audio1)%nat ->
  createAudioBuffer p audio1 = Ok (l1, r1, p1) ->
  length audio2 = length audio1 ->
  length (audio2 !!! 0%nat) = length (audio1 !!! 0%nat) ->
  exists l2 r2 p2,
    createAudioBuffer p1 audio2 = Ok (l2, r2, p2)
    /\ pool p2 = pool p1
    /\ length (store p2) = length (store p1)
    /\ created (stats p2) = created (stats p1).
Proof.
  intros Hinv H4 Hfirst Hchannels Hsamples.
  unfold createAudioBuffer in Hfirst.
  destruct audio1 as [|c1 rest1]; [discriminate |].
  change ((c1 :: rest1) !!! 0%nat) with c1 in Hsamples.
  destruct (Nat.eqb_spec (length c1) 0) as [Hz | Hnz]; [discriminate |].
  revert H4 Hchannels Hfirst. generalize (c1 :: rest1).
  intros audio1 H4 Hchannels Hfirst.
  destruct (Nat.leb_spec 4 (length audio1)) as [_ | Hlt]; [| lia].
  injection Hfirst as Hfirst. unfold decodeBinauralHRTF in Hfirst.
  set (speakers := getVirtualSpeakerConfig (orderOf (length audio1))) in *.
  (* the first render *)
  pose proof (decodeToVirtualSpeakers_NoDup audio1 (length c1) speakers
                [] p Hinv (NoDup_nil_2) ltac:(intros o Ho; inversion Ho))
    as Hnodup.
  pose proof (decodeToVirtualSpeakers_contents audio1 (length c1) speakers
                [] [] p Hinv (Forall2_nil_2 _ _ _)) as Hdone.
  pose proof (decodeToVirtualSpeakers_inv p audio1 speakers (length c1) Hinv)
    as Hrender.
  cbv zeta in Hnodup, Hdone.
  fold (decodeToVirtualSpeakers p audio1 speakers (length c1))
    in Hnodup, Hdone.
  destruct (decodeToVirtualSpeakers p audio1 speakers (length c1))
    as [outputs q].
  cbn [fst snd app length Nat.add] in Hnodup, Hdone.
  destruct Hnodup as [Hnd Hcount].
  destruct Hrender as (I1 & I2 & _).
  cbn [fst snd] in I1, I2.
  assert (Hp1 : p1 = releaseAll q outputs).
  { unfold applySpatialHRTF in Hfirst.
    destruct (fold_left _ (seq 0 (length speakers)) _) as [lo ro].
    injection Hfirst as _ _ <-. reflexivity. }
  destruct (releaseAll_facts outputs q I1) as (R1 & R2 & R3 & _).
  rewrite <- Hp1 in R1, R2, R3.
  assert (Hfits : forall o, o ∈ outputs -> fits p1 (length c1) o).
  { intros o Ho.
    destruct (proj1 (list_elem_of_lookup outputs o) Ho) as [i Hi].
    destruct (Forall2_lookup_r _ _ _ _ _ Hdone Hi)
      as (speaker & _ & Hheld & Hcontent).
    split; [rewrite R3; apply (inv_inUse q I1); exact Hheld |].
    split.
    - rewrite Hp1, releaseAll_bufferLength. unfold bufferLength.
      unfold Ref in *. rewrite Hcontent. simpl.
      rewrite length_map, length_seq. reflexivity.
    - rewrite R2. set_solver. }
  (* the second render *)
  unfold createAudioBuffer.
  destruct audio2 as [|c2 rest2]; [simpl in Hchannels; lia |].
  change ((c2 :: rest2) !!! 0%nat) with c2 in Hsamples.
  destruct (Nat.eqb_spec (length c2) 0) as [Hz | _]; [lia |].
  revert Hchannels. generalize (c2 :: rest2). intros audio2 Hchannels.
  destruct (Nat.leb_spec 4 (length audio2)) as [_ | Hlt]; [| lia].
  unfold decodeBinauralHRTF. rewrite Hchannels. fold speakers.
  rewrite Hsamples.
  pose proof (reuse_loop audio2 (length c1) speakers outputs [] p1 R1 Hnd
                Hfits ltac:(lia)) as Hreuse.
  cbv zeta in Hreuse.
  fold (decodeToVirtualSpeakers p1 audio2 speakers (length c1)) in Hreuse.
  destruct (decodeToVirtualSpeakers p1 audio2 speakers (length c1))
    as [outputs2 q2].
  cbn [snd] in Hreuse. destruct Hreuse as (U1 & U2 & U3 & U4).
  unfold applySpatialHRTF.
  destruct (fold_left _ (seq 0 (length speakers)) _) as [l2 r2].
  exists l2, r2, (releaseAll q2 outputs2). split; [reflexivity |].
  split.
  - destruct (releaseAll_facts outputs2 q2) as (_ & _ & -> & _);
      [| exact U1].
    exact U4.
  - rewrite releaseAll_store_length, releaseAll_stats. auto.
Qed.

End Reuse.

Lemma second_render_reuses_witness :
  let '(l1, r1, p1) :=
    SpatialAudioEngine.decodeBinauralHRTF AudioBufferPool.empty fourChannels
      1 (SpatialAudioEngine.orderOf 4) in
  exists l2 r2 p2,
    SpatialAudioEngine.createAudioBuffer p1 fourChannels = Ok (l2, r2, p2)
    /\ AudioBufferPool.pool p2 = AudioBufferPool.pool p1.
Proof.
  destruct (SpatialAudioEngine.decodeBinauralHRTF AudioBufferPool.empty
              fourChannels 1 (SpatialAudioEngine.orderOf 4))
    as [[l1 r1] p1] eqn:E.
  destruct (second_render_reuses AudioBufferPool.empty p1 fourChannels
              fourChannels l1 r1 poolInv_empty ltac:(simpl; lia)
              (f_equal Ok E) eq_refl eq_refl)
    as (l2 & r2 & p2 & H1 & H2 & _).
  exists l2, r2, p2. split; [exact H1 | exact H2].
Defined.
